(** * Celtic Orbit Explorer: the complex-dynamics engine of [Main.cpp]

    A shallow embedding of the numeric core of [src/Main.cpp]:
    [screenToComplex], [formula1] .. [formula4], the [formulas] vector,
    the per-pixel escape loop of [computeFractal], the orbit loop that
    fills [mousePeriod] and [mouseOrbit], the mouse-wheel zoom handler and
    the inverse transform used to draw the orbit.

    The program computes on [float].  The engine is written once over an
    interface of the operations it uses ([FloatArith], [FloatMag]) and is
    then read at two instances: IEEE-754 binary32 (the Standard Library's
    [SpecFloat] at precision 24, every operation rounding to nearest even,
    no fused or extended-precision evaluation) and exact rational
    arithmetic (for the algebraic identities).  [int] counters are far
    from overflow ([maxIter = 100], [maxOrbit = 1000]) and are natural
    numbers; [int] coordinates are integers. *)

From Stdlib Require Import String.
From Stdlib Require Import ZArith QArith Qabs List Bool Lia Arith.
From Stdlib Require Import Floats.SpecFloat.
From Stdlib Require Import Qfield Qpower Lqa.
Import ListNotations.

Set Implicit Arguments.
#[local] Open Scope nat_scope.

(** ** The arithmetic the program uses *)

(** The operations of [float] that [Main.cpp] relies on.  [of_int] is the
    implicit conversion of an [int] operand in a mixed expression. *)
Class FloatArith (F : Type) := {
  fadd : F -> F -> F;
  fsub : F -> F -> F;
  fmul : F -> F -> F;
  fdiv : F -> F -> F;
  fneg : F -> F;
  fabs : F -> F;
  flt : F -> F -> bool;
  of_int : Z -> F
}.

(** What [std::abs (std::complex<float>)] and the comparison with the
    [double] literal [1e-4] need on top of that: the C library's [hypot]
    and the test [(double) x < 1e-4]. *)
Class FloatMag (F : Type) := {
  hypot : F -> F -> F;
  lt_1e_4 : F -> bool
}.

Declare Scope flt_scope.
Delimit Scope flt_scope with flt.
Infix "+" := fadd : flt_scope.
Infix "-" := fsub : flt_scope.
Infix "*" := fmul : flt_scope.
Infix "/" := fdiv : flt_scope.
Notation "- x" := (fneg x) : flt_scope.

(** ** Control flow: a C [for] loop with [break] *)

(** What one execution of a loop body does. *)
Inductive step_result (S : Type) :=
| Continue (s : S)
| Break (s : S).

(** How a loop was left: its condition failed, or the body hit [break]. *)
Inductive loop_exit (S : Type) :=
| GuardFailed (s : S)
| Broke (s : S).

Arguments Continue {S} _.
Arguments Break {S} _.
Arguments GuardFailed {S} _.
Arguments Broke {S} _.

Definition exit_state {S : Type} (e : loop_exit S) : S :=
  match e with GuardFailed s => s | Broke s => s end.

(** [for (; cond; incr) body], run for at most [fuel] executions of the
    body; [None] means the fuel ran out with the condition still true. *)
Fixpoint for_loop {S : Type} (cond : S -> bool) (body : S -> step_result S)
    (incr : S -> S) (fuel : nat) (s : S) {struct fuel} : option (loop_exit S) :=
  if cond s then
    match fuel with
    | O => None
    | Datatypes.S fuel' =>
        match body s with
        | Break s' => Some (Broke s')
        | Continue s' => for_loop cond body incr fuel' (incr s')
        end
    end
  else Some (GuardFailed s).

(** Sequencing of computations that can fail (an index outside the
    [formulas] vector, a loop out of fuel). *)
Definition bind {A B : Type} (m : option A) (k : A -> option B) : option B :=
  match m with Some a => k a | None => None end.

Notation "x <- m ;; k" := (bind m (fun x => k))
  (at level 61, m at next level, right associativity).

Fixpoint mapM {A B : Type} (f : A -> option B) (l : list A) : option (list B) :=
  match l with
  | [] => Some []
  | a :: l' => b <- f a ;; bs <- mapM f l' ;; Some (b :: bs)
  end.

(** The values [0, 1, ..., n-1] of an [int] loop counter. *)
Definition int_range (n : Z) : list Z := map Z.of_nat (seq 0 (Z.to_nat n)).

(** ** [std::complex<float>] and [sf::Vector2f] *)

Record complex (F : Type) := Complex { real : F; imag : F }.
Record Vector2f (F : Type) := Vec2 { vx : F; vy : F }.

Arguments Complex {F} _ _.
Arguments Vec2 {F} _ _.

Section Engine.
Context {F : Type} {FA : FloatArith F}.
Local Open Scope flt_scope.

(** [operator+] and [operator-] of [std::complex]. *)
Definition cadd (a b : complex F) : complex F :=
  Complex (real a + real b) (imag a + imag b).
Definition csub (a b : complex F) : complex F :=
  Complex (real a - real b) (imag a - imag b).

(** The opposite point, [-z]. *)
Definition cneg (z : complex F) : complex F :=
  Complex (- real z) (- imag z).

(** Helper to map screen to complex plane. *)
Definition screenToComplex (x y : Z) (zoom : F) (offset : Vector2f F)
    (width height : Z) : complex F :=
  Complex ((of_int x + vx offset - of_int width / of_int 2) / zoom)
          ((of_int y + vy offset - of_int height / of_int 2) / zoom).

(** Formula definitions. *)
Definition formula1 (z c : complex F) : complex F :=
  let re2 := real z * real z - imag z * imag z in
  let im2 := of_int 2 * real z * imag z in
  cadd (Complex (fabs re2) im2) c.

Definition formula2 (z c : complex F) : complex F :=
  let re2 := real z * real z - imag z * imag z in
  let im2 := of_int 2 * real z * imag z in
  cadd (Complex (fabs re2) (fabs im2)) c.

Definition formula3 (z c : complex F) : complex F :=
  let re2 := real z * real z - imag z * imag z in
  let im2 := of_int 2 * real z * imag z in
  cadd (Complex re2 (- im2)) c.

Definition formula4 (z c : complex F) : complex F :=
  let re_part := real z * fabs (real z) + imag z * imag z in
  let im_part := of_int 2 * real z * imag z in
  cadd (Complex (fabs re_part) im_part) c.

(** The [formulas] vector of [main]. *)
Definition formulas : list (complex F -> complex F -> complex F) :=
  [formula1; formula2; formula3; formula4].

(** *** The view: zooming about the cursor and drawing back *)

(** The [MouseWheelScrolled] handler: the new [zoom] and [offset] after
    a wheel event of the given [delta] with the mouse at
    [(mouse_x, mouse_y)]. *)
Definition onMouseWheelScrolled (zoomFactor : F) (width height : Z)
    (mouse_x mouse_y : Z) (delta : F) (zoom : F) (offset : Vector2f F)
    : F * Vector2f F :=
  let beforeZoom := screenToComplex mouse_x mouse_y zoom offset width height in
  let zoom' :=
    if flt (of_int 0) delta then zoom * zoomFactor
    else if flt delta (of_int 0) then zoom / zoomFactor
    else zoom in
  (* Keep the point under the mouse stationary *)
  let afterZoom := screenToComplex mouse_x mouse_y zoom' offset width height in
  (zoom',
   Vec2 (vx offset + (real afterZoom - real beforeZoom) * zoom')
        (vy offset + (imag afterZoom - imag beforeZoom) * zoom')).

(** [n] wheel events of the same [delta] with the mouse at rest: the
    event loop runs the handler once for each. *)
Fixpoint wheelEvents (n : nat) (zoomFactor : F) (width height : Z)
    (mouse_x mouse_y : Z) (delta : F) (view : F * Vector2f F)
    : F * Vector2f F :=
  match n with
  | O => view
  | S n' =>
      wheelEvents n' zoomFactor width height mouse_x mouse_y delta
        (onMouseWheelScrolled zoomFactor width height mouse_x mouse_y delta
           (fst view) (snd view))
  end.

(** The position at which a point of the complex plane is drawn (the
    orbit path and the Julia marker). *)
Definition orbitVertex (p : complex F) (zoom : F) (offset : Vector2f F)
    (width height : Z) : Vector2f F :=
  Vec2 (real p * zoom + of_int width / of_int 2 - vx offset)
       (imag p * zoom + of_int height / of_int 2 - vy offset).

(** [evaluate]: [formulas[formulaIndex] (z, cc)]; an index outside the
    vector has no defined behaviour. *)
Definition evaluate (formulaIndex : nat) (z cc : complex F)
    : option (complex F) :=
  f <- nth_error formulas formulaIndex ;; Some (f z cc).

(** The value of [z] after [n] executions of [z = f (z, cc)]. *)
Fixpoint iterate (f : complex F -> complex F -> complex F) (cc : complex F)
    (n : nat) (z : complex F) : complex F :=
  match n with
  | O => z
  | S n' => f (iterate f cc n' z) cc
  end.

(** *** Magnitudes *)

Context {FM : FloatMag F}.

(** [std::abs (z)]. *)
Definition cabs (z : complex F) : F := hypot (real z) (imag z).

(** [std::abs (z) > 2.0f]. *)
Definition escaped (z : complex F) : bool := flt (of_int 2) (cabs z).

(** [std::abs (z - p) < 1e-4]. *)
Definition near (z p : complex F) : bool := lt_1e_4 (cabs (csub z p)).

(** *** [computeFractal] *)

Record PixelState := { iter : nat; pix_z : complex F }.

(** The body of the escape loop, for the selected formula [f]. *)
Definition escape_body (f : complex F -> complex F -> complex F)
    (cc : complex F) (s : PixelState) : step_result PixelState :=
  let z := f (pix_z s) cc in
  if escaped z then Break {| iter := iter s; pix_z := z |}
  else Continue {| iter := iter s; pix_z := z |}.

Definition escape_loop (maxIter : nat)
    (f : complex F -> complex F -> complex F) (z cc : complex F)
    : option (loop_exit PixelState) :=
  for_loop (fun s => iter s <? maxIter)%nat (escape_body f cc)
    (fun s => {| iter := S (iter s); pix_z := pix_z s |})
    maxIter {| iter := 0; pix_z := z |}.

(** The value of [iter] with which pixel [(px, py)] leaves the loop. *)
Definition pixelIter (maxIter : nat) (width height : Z) (zoom : F)
    (offset : Vector2f F) (juliaMode : bool) (juliaC : complex F)
    (formulaIndex : nat) (px py : Z) : option nat :=
  f <- nth_error formulas formulaIndex ;;
  let c := screenToComplex px py zoom offset width height in
  let z := if juliaMode then c else c in
  let cc := if juliaMode then juliaC else c in
  e <- escape_loop maxIter f z cc ;;
  Some (iter (exit_state e)).

(** [static_cast<sf::Uint8> (255 * iter / maxIter)]. *)
Definition pixelColor (maxIter : nat) (it : nat) : Z :=
  ((255 * Z.of_nat it / Z.of_nat maxIter) mod 256)%Z.

(** The grid of iteration counts, column [px] by row [py]. *)
Definition fractalField (maxIter : nat) (width height : Z) (zoom : F)
    (offset : Vector2f F) (juliaMode : bool) (juliaC : complex F)
    (formulaIndex : nat) : option (list (list nat)) :=
  mapM (fun px =>
    mapM (fun py =>
      pixelIter maxIter width height zoom offset juliaMode juliaC
        formulaIndex px py)
      (int_range height))
    (int_range width).

(** The grey levels [computeFractal] writes into [fractalImage]. *)
Definition computeFractal (maxIter : nat) (width height : Z) (zoom : F)
    (offset : Vector2f F) (juliaMode : bool) (juliaC : complex F)
    (formulaIndex : nat) : option (list (list Z)) :=
  field <- fractalField maxIter width height zoom offset juliaMode juliaC
             formulaIndex ;;
  Some (map (map (pixelColor maxIter)) field).

(** *** The orbit under the mouse *)

Record OrbitState := {
  period : nat;
  orb_z : complex F;
  orbit : list (complex F);
  found : bool
}.

(** The inner loop: is [z] within [1e-4] of one of [orbit[0 .. period-1]]? *)
Definition scan (z : complex F) (orbit : list (complex F)) (period : nat)
    : bool :=
  existsb (near z) (firstn period orbit).

Definition orbit_body (f : complex F -> complex F -> complex F)
    (cc : complex F) (s : OrbitState) : step_result OrbitState :=
  let z := f (orb_z s) cc in
  let orbit' := orbit s ++ [z] in
  (* check for repetition (simple period detection) *)
  let found' := if scan z orbit' (period s) then true else found s in
  let s' := {| period := period s; orb_z := z; orbit := orbit';
               found := found' |} in
  if found' || escaped z then Break s' else Continue s'.

(** The orbit loop, from [int period = 0] to the end of the [for]. *)
Definition traceOrbit (z cc : complex F) (formulaIndex : nat)
    (maxOrbit : nat) : option (loop_exit OrbitState) :=
  f <- nth_error formulas formulaIndex ;;
  for_loop (fun s => period s <? maxOrbit)%nat (orbit_body f cc)
    (fun s => {| period := S (period s); orb_z := orb_z s;
                 orbit := orbit s; found := found s |})
    maxOrbit {| period := 0; orb_z := z; orbit := []; found := false |}.

(** What the program keeps of a finished trace. *)
Definition mousePeriod (e : loop_exit OrbitState) : nat :=
  period (exit_state e).
Definition mouseOrbit (e : loop_exit OrbitState) : list (complex F) :=
  orbit (exit_state e).

(** The terminal states of a trace: the loop ran out of steps, or it
    left through [break] with [found] set, or through [break] on the
    magnitude test alone. *)
Inductive Classification :=
| Escaped
| PeriodFound (step : nat)
| Exhausted.

Definition classify (e : loop_exit OrbitState) : Classification :=
  match e with
  | GuardFailed _ => Exhausted
  | Broke s => if found s then PeriodFound (period s) else Escaped
  end.

(** The orbit query of one frame: nothing is traced when the mouse is
    outside the window, and [mousePeriod] stays [-1]. *)
Definition mouseQuery (maxOrbit : nat) (width height : Z)
    (mouse_x mouse_y : Z) (zoom : F) (offset : Vector2f F)
    (juliaMode : bool) (juliaC : complex F) (formulaIndex : nat)
    : option (Z * list (complex F)) :=
  if ((0 <=? mouse_x) && (mouse_x <? width)
      && (0 <=? mouse_y) && (mouse_y <? height))%Z
  then
    let c := screenToComplex mouse_x mouse_y zoom offset width height in
    let z := c in
    let cc := if juliaMode then juliaC else c in
    e <- traceOrbit z cc formulaIndex maxOrbit ;;
    Some (Z.of_nat (mousePeriod e), mouseOrbit e)
  else Some ((-1)%Z, []).

(** *** The loops in terms of the iterates *)

Section Iterates.
Variable f : complex F -> complex F -> complex F.
Variables z0 cc : complex F.

(** The point appended to [orbit] at step [i] (0-based). *)
Definition orbit_point (i : nat) : complex F := iterate f cc (S i) z0.

(** The points appended before step [k]. *)
Definition visited_before (k : nat) : list (complex F) :=
  map orbit_point (seq 0 k).

(** Step [k] comes back within [1e-4] of an earlier point. *)
Definition recurs (k : nat) : bool :=
  existsb (near (orbit_point k)) (visited_before k).

(** Step [k] leaves the orbit loop. *)
Definition stops (k : nat) : bool := recurs k || escaped (orbit_point k).

(** The state with which the orbit loop enters step [k], and the one
    with which it breaks there. *)
Definition orbit_entry (k : nat) : OrbitState :=
  {| period := k; orb_z := iterate f cc k z0;
     orbit := visited_before k; found := false |}.
Definition orbit_break (k : nat) : OrbitState :=
  {| period := k; orb_z := orbit_point k;
     orbit := visited_before (S k); found := recurs k |}.

(** The same for the escape loop of a pixel. *)
Definition pixel_entry (k : nat) : PixelState :=
  {| iter := k; pix_z := iterate f cc k z0 |}.
Definition pixel_break (k : nat) : PixelState :=
  {| iter := k; pix_z := orbit_point k |}.
End Iterates.
End Engine.

(** ** The formulas as the specification writes them *)

Section Specification.
Context {F : Type} {FA : FloatArith F}.
Local Open Scope flt_scope.

(** [z^2 = (re^2 - im^2, 2 re im)]. *)
Definition zsq (z : complex F) : complex F :=
  Complex (real z * real z - imag z * imag z) (of_int 2 * real z * imag z).

(** Variant [n] of the registry, [n] in 1..4. *)
Definition spec_formula (n : nat) (z c : complex F) : complex F :=
  match n with
  | 1%nat => cadd (Complex (fabs (real (zsq z))) (imag (zsq z))) c
  | 2%nat => cadd (Complex (fabs (real (zsq z))) (fabs (imag (zsq z)))) c
  | 3%nat => cadd (Complex (real (zsq z)) (- imag (zsq z))) c
  | _ =>
      let re_part := real z * fabs (real z) + imag z * imag z in
      let im_part := of_int 2 * real z * imag z in
      cadd (Complex (fabs re_part) im_part) c
  end.

(** [toComplex] of the viewport mapper. *)
Record Viewport := {
  zoom : F;
  offset : Vector2f F;
  gridWidth : Z;
  gridHeight : Z
}.

Definition toComplex (gx gy : Z) (v : Viewport) : complex F :=
  Complex ((of_int gx + vx (offset v) - of_int (gridWidth v) / of_int 2) / zoom v)
          ((of_int gy + vy (offset v) - of_int (gridHeight v) / of_int 2) / zoom v).
End Specification.

(** The constants of [main]. *)
Definition width : Z := 800.
Definition height : Z := 600.
Definition maxIter : nat := 100.
Definition maxOrbit : nat := 1000.

(** [const float zoomFactor = 1.2f]: the quotient of 12 by 10, which
    binary32 division rounds to the nearest [float], the value the
    literal denotes. *)
Definition zoomFactor {F : Type} {FA : FloatArith F} : F :=
  fdiv (of_int 12) (of_int 10).

(** The number keys: [Num1] .. [Num4] select [formulas[0]] .. [formulas[3]]. *)
Definition selectFormula (key : nat) : option nat :=
  match key with
  | 1 => Some 0
  | 2 => Some 1
  | 3 => Some 2
  | 4 => Some 3
  | _ => None
  end%nat.

(** ** IEEE-754 binary32 and binary64 *)

Module Binary32.
Definition prec : Z := 24.
Definition emax : Z := 128.
Definition add := SFadd prec emax.
Definition sub := SFsub prec emax.
Definition mul := SFmul prec emax.
Definition div := SFdiv prec emax.
Definition neg := SFopp.
Definition abs := SFabs.
Definition ltb := SFltb.
Definition leb := SFleb.
Definition of_Z (n : Z) : spec_float := binary_normalize prec emax n 0 false.
(** Rounding of a [double] to [float]. *)
Definition of_double (x : spec_float) : spec_float :=
  match x with
  | S754_finite s m e => binary_normalize prec emax (cond_Zopp s (Zpos m)) e s
  | _ => x
  end.
End Binary32.

Module Binary64.
Definition prec : Z := 53.
Definition emax : Z := 1024.
Definition add := SFadd prec emax.
Definition mul := SFmul prec emax.
Definition div := SFdiv prec emax.
Definition sqrt := SFsqrt prec emax.
Definition ltb := SFltb.
Definition of_Z (n : Z) : spec_float := binary_normalize prec emax n 0 false.
(** The (exact) promotion of a [float] to [double]. *)
Definition of_float (x : spec_float) : spec_float :=
  match x with
  | S754_finite s m e => binary_normalize prec emax (cond_Zopp s (Zpos m)) e s
  | _ => x
  end.
(** The literal [1e-4]. *)
Definition lit_1e_4 : spec_float := div (of_Z 1) (of_Z 10000).
End Binary64.

Definition is_nan (x : spec_float) : bool :=
  match x with S754_nan => true | _ => false end.
Definition is_inf (x : spec_float) : bool :=
  match x with S754_infinity _ => true | _ => false end.

(** A component of [z] is a NaN, is infinite. *)
Definition has_nan (z : complex spec_float) : bool :=
  is_nan (real z) || is_nan (imag z).
Definition has_inf (z : complex spec_float) : bool :=
  is_inf (real z) || is_inf (imag z).

(** Values [sqrt] is defined on: zeros, positive numbers and [+inf]. *)
Definition sqrt_defined (x : spec_float) : bool :=
  match x with
  | S754_zero _ => true
  | S754_infinity s => negb s
  | S754_finite s _ _ => negb s
  | S754_nan => false
  end.

(** The C library's [hypotf], which [std::abs] of a [std::complex<float>]
    calls.  An infinite argument gives [+inf] even when the other one is
    a NaN, a NaN argument gives a NaN otherwise (C Annex F); finite
    arguments are squared and summed in [double] and the square root is
    rounded to [float], as the C library computes it. *)
Definition hypotf (x y : spec_float) : spec_float :=
  if is_inf x || is_inf y then S754_infinity false
  else if is_nan x || is_nan y then S754_nan
  else
    let dx := Binary64.of_float x in
    let dy := Binary64.of_float y in
    Binary32.of_double
      (Binary64.sqrt (Binary64.add (Binary64.mul dx dx) (Binary64.mul dy dy))).

#[export] Instance binary32_arith : FloatArith spec_float := {
  fadd := Binary32.add;
  fsub := Binary32.sub;
  fmul := Binary32.mul;
  fdiv := Binary32.div;
  fneg := Binary32.neg;
  fabs := Binary32.abs;
  flt := Binary32.ltb;
  of_int := Binary32.of_Z
}.

#[export] Instance binary32_mag : FloatMag spec_float := {
  hypot := hypotf;
  lt_1e_4 := fun x => Binary64.ltb (Binary64.of_float x) Binary64.lit_1e_4
}.

(** ** Exact rational arithmetic *)

#[export] Instance exact_arith : FloatArith Q := {
  fadd := Qplus;
  fsub := Qminus;
  fmul := Qmult;
  fdiv := Qdiv;
  fneg := Qopp;
  fabs := Qabs;
  flt := fun a b => negb (Qle_bool b a);
  of_int := inject_Z
}.


(** ** The event loop of [main] *)

(** [sf::Vector2i]. *)
Record Vector2i := Vec2i { ix : Z; iy : Z }.

(** The values of [event.mouseButton.button] and [event.key.code] the
    program tells apart. *)
Inductive Button := LeftButton | OtherButton.
Inductive Key :=
| Num1 | Num2 | Num3 | Num4
| Numpad1 | Numpad2 | Numpad3 | Numpad4
| OtherKey.

(** What [sf::Mouse::getPosition (window)], [sf::Keyboard::isKeyPressed]
    and [sf::Mouse::isButtonPressed] answer at one point of the program:
    the mouse position, [LAlt || RAlt], [J], the left button. *)
Record Devices := {
  mouse : Vector2i;
  altPressed : bool;
  jPressed : bool;
  leftPressed : bool
}.

(** The four formula names printed on a switch. *)
Definition formulaNames : list string :=
  ["abs(re(z^2)) + i * im(z^2) + c"%string;
   "abs(re(z^2)) + i * abs(im(z^2)) + c"%string;
   "re(z^2) - i * im(z^2) + c"%string;
   "abs(Re(z) * abs(Re(z)) + Im(z)^2) + 2i * Re(z) * Im(z) + c"%string].

Definition isKey1 (code : Key) : bool :=
  match code with Num1 | Numpad1 => true | _ => false end.
Definition isKey2 (code : Key) : bool :=
  match code with Num2 | Numpad2 => true | _ => false end.
Definition isKey3 (code : Key) : bool :=
  match code with Num3 | Numpad3 => true | _ => false end.
Definition isKey4 (code : Key) : bool :=
  match code with Num4 | Numpad4 => true | _ => false end.

(** [mouse.x >= 0 && mouse.x < width && mouse.y >= 0 && mouse.y < height]. *)
Definition insideWindow (width height : Z) (m : Vector2i) : bool :=
  ((0 <=? ix m) && (ix m <? width) && (0 <=? iy m) && (iy m <? height))%Z.

Section Application.
Context {F : Type} {FA : FloatArith F}.
Local Open Scope flt_scope.

(** The events the loop reacts to; every other event type is [OtherEvent]. *)
Inductive Event :=
| Closed
| MouseWheelScrolled (delta : F)
| MouseButtonPressed (button : Button)
| MouseButtonReleased (button : Button)
| LostFocus
| KeyPressed (code : Key)
| OtherEvent.

(** A line written to [std::cout]. *)
Inductive Message :=
| Switched (number : nat) (name : string)
| OrbitPeriod (number : nat) (period : Z)
| JuliaOrbitPeriod (c : complex F) (number : nat) (period : Z).

(** The local variables of [main] that live across frames. *)
Record App := {
  st_open : bool;
  st_zoom : F;
  st_offset : Vector2f F;
  st_fractalImage : list (list Z);
  st_juliaMode : bool;
  st_juliaC : complex F;
  st_formulaIndex : nat;
  st_lastPeriod : Z;
  st_needsUpdate : bool;
  st_dragging : bool;
  st_lastMousePos : Vector2i;
  st_dragStartOffset : Vector2f F;
  st_mousePeriod : Z;
  st_mouseOrbit : list (complex F)
}.

(** What one frame draws and plays, and the lines it prints. *)
Record Rendered := {
  console : list Message;
  juliaMarker : option (Vector2f F);
  mouseMarker : option (Vector2f F);
  orbitLine : option (list (Vector2f F));
  tone : option F
}.

(** The device readings of one frame: one for each event handled, and
    one at each later point where the program reads the devices. *)
Record FrameInput := {
  events : list (Event * Devices);
  atDrag : Devices;
  atJulia : Devices;
  atOrbit : Devices;
  atTone : Devices
}.

Variable zoomFactor : F.
Variables width height : Z.

Definition setFormula (idx : nat) (s : App) : App :=
  {| st_open := st_open s; st_zoom := st_zoom s; st_offset := st_offset s;
     st_fractalImage := st_fractalImage s; st_juliaMode := st_juliaMode s;
     st_juliaC := st_juliaC s; st_formulaIndex := idx;
     st_lastPeriod := st_lastPeriod s; st_needsUpdate := true;
     st_dragging := st_dragging s; st_lastMousePos := st_lastMousePos s;
     st_dragStartOffset := st_dragStartOffset s;
     st_mousePeriod := st_mousePeriod s; st_mouseOrbit := st_mouseOrbit s |}.

Definition setView (zoom : F) (offset : Vector2f F) (s : App) : App :=
  {| st_open := st_open s; st_zoom := zoom; st_offset := offset;
     st_fractalImage := st_fractalImage s; st_juliaMode := st_juliaMode s;
     st_juliaC := st_juliaC s; st_formulaIndex := st_formulaIndex s;
     st_lastPeriod := st_lastPeriod s; st_needsUpdate := true;
     st_dragging := st_dragging s; st_lastMousePos := st_lastMousePos s;
     st_dragStartOffset := st_dragStartOffset s;
     st_mousePeriod := st_mousePeriod s; st_mouseOrbit := st_mouseOrbit s |}.

Definition setDrag (dragging : bool) (lastMousePos : Vector2i)
    (dragStartOffset : Vector2f F) (s : App) : App :=
  {| st_open := st_open s; st_zoom := st_zoom s; st_offset := st_offset s;
     st_fractalImage := st_fractalImage s; st_juliaMode := st_juliaMode s;
     st_juliaC := st_juliaC s; st_formulaIndex := st_formulaIndex s;
     st_lastPeriod := st_lastPeriod s; st_needsUpdate := st_needsUpdate s;
     st_dragging := dragging; st_lastMousePos := lastMousePos;
     st_dragStartOffset := dragStartOffset;
     st_mousePeriod := st_mousePeriod s; st_mouseOrbit := st_mouseOrbit s |}.

Definition setOpen (open : bool) (s : App) : App :=
  {| st_open := open; st_zoom := st_zoom s; st_offset := st_offset s;
     st_fractalImage := st_fractalImage s; st_juliaMode := st_juliaMode s;
     st_juliaC := st_juliaC s; st_formulaIndex := st_formulaIndex s;
     st_lastPeriod := st_lastPeriod s; st_needsUpdate := st_needsUpdate s;
     st_dragging := st_dragging s; st_lastMousePos := st_lastMousePos s;
     st_dragStartOffset := st_dragStartOffset s;
     st_mousePeriod := st_mousePeriod s; st_mouseOrbit := st_mouseOrbit s |}.

(** The four [if]s on [event.key.code]. *)
Definition onKeyPressed (code : Key) (s : App) : App * list Message :=
  let '(s, out) :=
    if isKey1 code
    then (setFormula 0 s, [Switched 1 (nth 0 formulaNames EmptyString)])
    else (s, []) in
  let '(s, out) :=
    if isKey2 code
    then (setFormula 1 s, out ++ [Switched 2 (nth 1 formulaNames EmptyString)])
    else (s, out) in
  let '(s, out) :=
    if isKey3 code
    then (setFormula 2 s, out ++ [Switched 3 (nth 2 formulaNames EmptyString)])
    else (s, out) in
  if isKey4 code
  then (setFormula 3 s, out ++ [Switched 4 (nth 3 formulaNames EmptyString)])
  else (s, out).

(** The body of [while (window.pollEvent (event))] for one event, with
    the devices as they are read while it is handled. *)
Definition handleEvent (ev : Event) (d : Devices) (s : App)
    : App * list Message :=
  match ev with
  | Closed => (setOpen false s, [])
  | MouseWheelScrolled delta =>
      let view := onMouseWheelScrolled zoomFactor width height
                    (ix (mouse d)) (iy (mouse d)) delta
                    (st_zoom s) (st_offset s) in
      (setView (fst view) (snd view) s, [])
  | MouseButtonPressed LeftButton =>
      if altPressed d
      then (setDrag true (mouse d) (st_offset s) s, [])
      else (s, [])
  | MouseButtonPressed OtherButton => (s, [])
  | MouseButtonReleased LeftButton =>
      (setDrag false (st_lastMousePos s) (st_dragStartOffset s) s, [])
  | MouseButtonReleased OtherButton => (s, [])
  | LostFocus =>
      (setDrag false (st_lastMousePos s) (st_dragStartOffset s) s, [])
  | KeyPressed code => onKeyPressed code s
  | OtherEvent => (s, [])
  end.

(** The events [pollEvent] delivers in one frame, in order. *)
Fixpoint pollEvents (evs : list (Event * Devices)) (s : App)
    : App * list Message :=
  match evs with
  | [] => (s, [])
  | (ev, d) :: rest =>
      let '(s1, out1) := handleEvent ev d s in
      let '(s2, out2) := pollEvents rest s1 in
      (s2, out1 ++ out2)
  end.

(** Camera dragging logic. *)
Definition dragStep (d : Devices) (s : App) : App :=
  if st_dragging s && altPressed d
  then
    let delta := Vec2i (ix (mouse d) - ix (st_lastMousePos s))%Z
                       (iy (mouse d) - iy (st_lastMousePos s))%Z in
    setView (st_zoom s)
      (Vec2 (vx (st_dragStartOffset s) - of_int (ix delta))
            (vy (st_dragStartOffset s) - of_int (iy delta)))
      s
  else s.

(** Julia mode handling. *)
Definition juliaStep (d : Devices) (s : App) : App :=
  let newJuliaMode := jPressed d in
  let juliaC :=
    if newJuliaMode
    then screenToComplex (ix (mouse d)) (iy (mouse d)) (st_zoom s)
           (st_offset s) width height
    else st_juliaC s in
  {| st_open := st_open s; st_zoom := st_zoom s; st_offset := st_offset s;
     st_fractalImage := st_fractalImage s; st_juliaMode := newJuliaMode;
     st_juliaC := juliaC; st_formulaIndex := st_formulaIndex s;
     st_lastPeriod := st_lastPeriod s;
     st_needsUpdate := if newJuliaMode then true else st_needsUpdate s;
     st_dragging := st_dragging s; st_lastMousePos := st_lastMousePos s;
     st_dragStartOffset := st_dragStartOffset s;
     st_mousePeriod := st_mousePeriod s; st_mouseOrbit := st_mouseOrbit s |}.

(** [220.0f + (mousePeriod % 40) * 10.0f]. *)
Definition toneFrequency (mousePeriod : Z) : F :=
  of_int 220 + of_int (Z.rem mousePeriod 40) * of_int 10.

Context {FM : FloatMag F}.
Variables maxIter maxOrbit : nat.

(** The image on screen is the one [computeFractal] gives for the
    current view, formula and [juliaC], in Julia mode if [m] and in
    self-map mode otherwise. *)
Definition imageShows (m : bool) (s : App) : Prop :=
  computeFractal maxIter width height (st_zoom s) (st_offset s) m
    (st_juliaC s) (st_formulaIndex s) = Some (st_fractalImage s).

(** Get orbit period at mouse at all times. *)
Definition orbitStep (d : Devices) (s : App) : option App :=
  q <- mouseQuery maxOrbit width height (ix (mouse d)) (iy (mouse d))
         (st_zoom s) (st_offset s) (st_juliaMode s) (st_juliaC s)
         (st_formulaIndex s) ;;
  Some {| st_open := st_open s; st_zoom := st_zoom s;
          st_offset := st_offset s;
          st_fractalImage := st_fractalImage s;
          st_juliaMode := st_juliaMode s; st_juliaC := st_juliaC s;
          st_formulaIndex := st_formulaIndex s;
          st_lastPeriod := st_lastPeriod s;
          st_needsUpdate := st_needsUpdate s;
          st_dragging := st_dragging s;
          st_lastMousePos := st_lastMousePos s;
          st_dragStartOffset := st_dragStartOffset s;
          st_mousePeriod := fst q; st_mouseOrbit := snd q |}.

(** [if (needsUpdate) { computeFractal (...); ...; needsUpdate = false; }]. *)
Definition updateStep (s : App) : option App :=
  if st_needsUpdate s
  then
    image <- computeFractal maxIter width height (st_zoom s) (st_offset s)
               (st_juliaMode s) (st_juliaC s) (st_formulaIndex s) ;;
    Some {| st_open := st_open s; st_zoom := st_zoom s;
            st_offset := st_offset s; st_fractalImage := image;
            st_juliaMode := st_juliaMode s; st_juliaC := st_juliaC s;
            st_formulaIndex := st_formulaIndex s;
            st_lastPeriod := st_lastPeriod s; st_needsUpdate := false;
            st_dragging := st_dragging s;
            st_lastMousePos := st_lastMousePos s;
            st_dragStartOffset := st_dragStartOffset s;
            st_mousePeriod := st_mousePeriod s;
            st_mouseOrbit := st_mouseOrbit s |}
  else Some s.

Definition setLastPeriod (p : Z) (s : App) : App :=
  {| st_open := st_open s; st_zoom := st_zoom s; st_offset := st_offset s;
     st_fractalImage := st_fractalImage s; st_juliaMode := st_juliaMode s;
     st_juliaC := st_juliaC s; st_formulaIndex := st_formulaIndex s;
     st_lastPeriod := p; st_needsUpdate := st_needsUpdate s;
     st_dragging := st_dragging s; st_lastMousePos := st_lastMousePos s;
     st_dragStartOffset := st_dragStartOffset s;
     st_mousePeriod := st_mousePeriod s; st_mouseOrbit := st_mouseOrbit s |}.

(** From [window.clear ()] to [window.display ()]: what is drawn, printed
    and played, and the new [lastPeriod].  [m] is the mouse position read
    for the orbit, [d] the devices read for the tone. *)
Definition drawStep (m : Vector2i) (d : Devices) (s : App)
    : App * Rendered :=
  let marker :=
    if st_juliaMode s
    then Some (orbitVertex (st_juliaC s) (st_zoom s) (st_offset s)
                 width height)
    else None in
  if insideWindow width height m
  then
    let printed :=
      if (st_mousePeriod s =? st_lastPeriod s)%Z then []
      else if st_juliaMode s
           then [JuliaOrbitPeriod (st_juliaC s) (st_formulaIndex s + 1)
                   (st_mousePeriod s)]
           else [OrbitPeriod (st_formulaIndex s + 1) (st_mousePeriod s)] in
    (setLastPeriod (st_mousePeriod s) s,
     {| console := printed;
        juliaMarker := marker;
        mouseMarker := Some (Vec2 (of_int (ix m)) (of_int (iy m)));
        orbitLine :=
          if (1 <? length (st_mouseOrbit s))%nat
          then Some (map (fun p => orbitVertex p (st_zoom s) (st_offset s)
                                     width height) (st_mouseOrbit s))
          else None;
        tone :=
          if leftPressed d && negb (altPressed d)
          then Some (toneFrequency (st_mousePeriod s))
          else None |})
  else
    (setLastPeriod (-1)%Z s,
     {| console := []; juliaMarker := marker; mouseMarker := None;
        orbitLine := None; tone := None |}).

(** One turn of [while (window.isOpen ())]. *)
Definition frame (i : FrameInput) (s : App) : option (App * Rendered) :=
  let '(s1, out) := pollEvents (events i) s in
  let s2 := dragStep (atDrag i) s1 in
  let s3 := juliaStep (atJulia i) s2 in
  s4 <- orbitStep (atOrbit i) s3 ;;
  s5 <- updateStep s4 ;;
  let '(s6, r) := drawStep (mouse (atOrbit i)) (atTone i) s5 in
  Some (s6,
        {| console := out ++ console r; juliaMarker := juliaMarker r;
           mouseMarker := mouseMarker r; orbitLine := orbitLine r;
           tone := tone r |}).

(** [main] up to the loop: the first image and the initial variables. *)
Definition initialApp : option App :=
  image <- computeFractal maxIter width height (of_int 250)
             (Vec2 (of_int 0) (of_int 0)) false
             (Complex (of_int 0) (of_int 0)) 0 ;;
  Some {| st_open := true; st_zoom := of_int 250;
          st_offset := Vec2 (of_int 0) (of_int 0);
          st_fractalImage := image;
          st_juliaMode := false;
          st_juliaC := Complex (of_int 0) (of_int 0);
          st_formulaIndex := 0; st_lastPeriod := (-1)%Z;
          st_needsUpdate := false; st_dragging := false;
          st_lastMousePos := Vec2i 0 0;
          st_dragStartOffset := Vec2 (of_int 0) (of_int 0);
          st_mousePeriod := (-1)%Z; st_mouseOrbit := [] |}.

(** The loop: one frame for each input while the window is open. *)
Fixpoint mainLoop (inputs : list FrameInput) (s : App)
    : option (App * list Rendered) :=
  match inputs with
  | [] => Some (s, [])
  | i :: rest =>
      if st_open s
      then
        r <- frame i s ;;
        rs <- mainLoop rest (fst r) ;;
        Some (fst rs, snd r :: snd rs)
      else Some (s, [])
  end.
End Application.

(** ** Values of the binary32 model used in the examples *)

Definition f32 (n : Z) : spec_float := of_int n.
Definition c32 (a b : Z) : complex spec_float := Complex (f32 a) (f32 b).

(** The smallest positive [float], [2^-149]. *)
Definition min_subnormal : spec_float := S754_finite false 1 (-149).

(** ** The value of a binary32 number *)

(** The rational number a finite [float] stands for; [0] for the others. *)
Definition SF2Q (x : spec_float) : Q :=
  match x with
  | S754_finite s m e =>
      if s then (- (inject_Z (Zpos m) * 2 ^ e))%Q
      else (inject_Z (Zpos m) * 2 ^ e)%Q
  | _ => 0%Q
  end.

(** A zero or a finite number. *)
Definition is_finite (x : spec_float) : bool :=
  match x with
  | S754_zero _ | S754_finite _ _ _ => true
  | _ => false
  end.

(** * Properties *)

Unset Implicit Arguments.

(** ** Lists and failing computations *)

Lemma bind_Some {A B : Type} (m : option A) (k : A -> option B) (b : B) :
  bind m k = Some b <-> exists a, m = Some a /\ k a = Some b.
Proof.
  destruct m as [a|]; simpl; split.
  - intros H; exists a; auto.
  - intros (a' & Ha & Hk); inversion Ha; subst; exact Hk.
  - discriminate.
  - intros (a' & Ha & _); discriminate.
Qed.

Lemma mapM_total {A B : Type} (f : A -> option B) (l : list A) :
  (forall a, In a l -> exists b, f a = Some b) ->
  exists bs, mapM f l = Some bs.
Proof.
  induction l as [|a l IH]; intros H; simpl.
  - exists []; reflexivity.
  - destruct (H a (or_introl eq_refl)) as [b Hb].
    destruct IH as [bs Hbs]; [intros a' Ha'; apply H; right; exact Ha'|].
    exists (b :: bs); rewrite Hb, Hbs; reflexivity.
Qed.

Lemma mapM_nth_error {A B : Type} (f : A -> option B) (l : list A)
    (bs : list B) :
  mapM f l = Some bs ->
  length bs = length l /\
  forall i a, nth_error l i = Some a ->
    exists b, nth_error bs i = Some b /\ f a = Some b.
Proof.
  revert bs; induction l as [|a l IH]; intros bs H; simpl in H.
  - inversion H; subst; split; [reflexivity|].
    intros [|i] a Ha; discriminate.
  - apply bind_Some in H; destruct H as (b & Hb & H).
    apply bind_Some in H; destruct H as (bs' & Hbs & H).
    inversion H; subst; clear H.
    destruct (IH _ Hbs) as [Hlen Hnth]; split; [simpl; congruence|].
    intros [|i] a' Ha'; simpl in *.
    + inversion Ha'; subst; exists b; auto.
    + apply Hnth; exact Ha'.
Qed.

Lemma int_range_nth (n : Z) (i : nat) (x : Z) :
  nth_error (int_range n) i = Some x <-> (x = Z.of_nat i /\ 0 <= x < n)%Z.
Proof.
  unfold int_range; rewrite nth_error_map.
  destruct (Nat.lt_ge_cases i (Z.to_nat n)) as [Hlt|Hge].
  - rewrite nth_error_seq, (proj2 (Nat.ltb_lt _ _) Hlt); simpl.
    split.
    + intros H; inversion H; subst; split; [reflexivity|lia].
    + intros [-> _]; reflexivity.
  - rewrite (proj2 (nth_error_None _ _)) by (rewrite length_seq; exact Hge).
    simpl; split; [discriminate|intros [-> H]; lia].
Qed.

Lemma firstn_snoc {A : Type} (l : list A) (x : A) (k : nat) :
  length l = k -> firstn k (l ++ [x]) = l.
Proof.
  intros <-.
  rewrite firstn_app, Nat.sub_diag, firstn_all; simpl; apply app_nil_r.
Qed.

(** ** The two loops, step by step *)

Lemma for_loop_S {S : Type} (cond : S -> bool) (body : S -> step_result S)
    (incr : S -> S) (fuel : nat) (s : S) :
  for_loop cond body incr (Datatypes.S fuel) s =
  if cond s then
    match body s with
    | Break s' => Some (Broke s')
    | Continue s' => for_loop cond body incr fuel (incr s')
    end
  else Some (GuardFailed s).
Proof. reflexivity. Qed.

(** A loop that returned returns the same with more fuel. *)
Lemma for_loop_more_fuel {S : Type} (cond : S -> bool)
    (body : S -> step_result S) (incr : S -> S) (fuel extra : nat) (s : S)
    (e : loop_exit S) :
  for_loop cond body incr fuel s = Some e ->
  for_loop cond body incr (fuel + extra) s = Some e.
Proof.
  revert s; induction fuel as [|fuel IH]; intros s.
  - simpl; destruct (cond s) eqn:Hc; [discriminate|].
    intros H; destruct extra; simpl; rewrite Hc; exact H.
  - rewrite Nat.add_succ_l, !for_loop_S.
    destruct (cond s); [|auto].
    destruct (body s); [apply IH|auto].
Qed.

Section LoopFacts.
Context {F : Type} {FA : FloatArith F} {FM : FloatMag F}.
Variable f : complex F -> complex F -> complex F.
Variables z0 cc : complex F.

Local Abbreviation pt := (orbit_point f z0 cc).

Lemma visited_before_length k : length (visited_before f z0 cc k) = k.
Proof. unfold visited_before; rewrite length_map, length_seq; reflexivity. Qed.

Lemma visited_before_S k :
  visited_before f z0 cc (S k) = visited_before f z0 cc k ++ [pt k].
Proof. unfold visited_before; rewrite seq_S, map_app; reflexivity. Qed.

Lemma recurs_true k :
  recurs f z0 cc k = true <-> exists j, j < k /\ near (pt k) (pt j) = true.
Proof.
  unfold recurs, visited_before; rewrite existsb_exists; split.
  - intros (p & Hin & Hp); apply in_map_iff in Hin.
    destruct Hin as (j & <- & Hj); apply in_seq in Hj.
    exists j; split; [lia|exact Hp].
  - intros (j & Hj & Hp); exists (pt j); split; [|exact Hp].
    apply in_map, in_seq; lia.
Qed.

Lemma recurs_false k :
  recurs f z0 cc k = false <-> forall j, j < k -> near (pt k) (pt j) = false.
Proof.
  split.
  - intros H j Hj; destruct (near (pt k) (pt j)) eqn:E; [|reflexivity].
    rewrite <- H; symmetry; apply recurs_true; exists j; auto.
  - intros H; destruct (recurs f z0 cc k) eqn:E; [|reflexivity].
    apply recurs_true in E; destruct E as (j & Hj & Hp).
    rewrite H in Hp by exact Hj; discriminate.
Qed.

(** The escape loop of a pixel, entered at iteration [k] with [fuel]
    iterations left: it breaks at the first iterate that compares
    greater than 2, or its condition fails at [maxIter]. *)
Lemma escape_loop_from (maxIter fuel k : nat) :
  k + fuel = maxIter ->
  (forall i, i < k -> escaped (pt i) = false) ->
  (exists n, n < maxIter /\ (forall i, i < n -> escaped (pt i) = false) /\
     escaped (pt n) = true /\
     for_loop (fun s => iter s <? maxIter) (escape_body f cc)
       (fun s => {| iter := S (iter s); pix_z := pix_z s |})
       fuel (pixel_entry f z0 cc k) = Some (Broke (pixel_break f z0 cc n)))
  \/ ((forall i, i < maxIter -> escaped (pt i) = false) /\
      for_loop (fun s => iter s <? maxIter) (escape_body f cc)
        (fun s => {| iter := S (iter s); pix_z := pix_z s |})
        fuel (pixel_entry f z0 cc k) = Some (GuardFailed (pixel_entry f z0 cc maxIter))).
Proof.
  revert k; induction fuel as [|fuel IH]; intros k Hk Hpre.
  - right; rewrite Nat.add_0_r in Hk; subst k; split; [exact Hpre|].
    simpl; rewrite Nat.ltb_irrefl; reflexivity.
  - assert (Hlt : k < maxIter) by lia.
    rewrite for_loop_S; cbv beta.
    change (iter (pixel_entry f z0 cc k)) with k.
    rewrite (proj2 (Nat.ltb_lt _ _) Hlt).
    unfold escape_body.
    change (f (pix_z (pixel_entry f z0 cc k)) cc) with (pt k).
    change (iter (pixel_entry f z0 cc k)) with k.
    destruct (escaped (pt k)) eqn:E.
    + left; exists k.
      split; [exact Hlt|split; [exact Hpre|split; [exact E|reflexivity]]].
    + apply (IH (S k)); [lia|].
      intros i Hi; destruct (Nat.eq_dec i k) as [->|]; [exact E|apply Hpre; lia].
Qed.

(** The orbit loop, entered at step [k]: it breaks at the first step
    that recurs or escapes, or its condition fails at [maxOrbit]. *)
Lemma orbit_loop_from (maxOrbit fuel k : nat) :
  k + fuel = maxOrbit ->
  (forall i, i < k -> stops f z0 cc i = false) ->
  (exists n, n < maxOrbit /\ (forall i, i < n -> stops f z0 cc i = false) /\
     stops f z0 cc n = true /\
     for_loop (fun s => period s <? maxOrbit) (orbit_body f cc)
       (fun s => {| period := S (period s); orb_z := orb_z s;
                    orbit := orbit s; found := found s |})
       fuel (orbit_entry f z0 cc k) = Some (Broke (orbit_break f z0 cc n)))
  \/ ((forall i, i < maxOrbit -> stops f z0 cc i = false) /\
      for_loop (fun s => period s <? maxOrbit) (orbit_body f cc)
        (fun s => {| period := S (period s); orb_z := orb_z s;
                     orbit := orbit s; found := found s |})
        fuel (orbit_entry f z0 cc k)
      = Some (GuardFailed (orbit_entry f z0 cc maxOrbit))).
Proof.
  revert k; induction fuel as [|fuel IH]; intros k Hk Hpre.
  - right; rewrite Nat.add_0_r in Hk; subst k; split; [exact Hpre|].
    simpl; rewrite Nat.ltb_irrefl; reflexivity.
  - assert (Hlt : k < maxOrbit) by lia.
    rewrite for_loop_S; cbv beta.
    change (period (orbit_entry f z0 cc k)) with k.
    rewrite (proj2 (Nat.ltb_lt _ _) Hlt).
    unfold orbit_body.
    change (f (orb_z (orbit_entry f z0 cc k)) cc) with (pt k).
    change (period (orbit_entry f z0 cc k)) with k.
    change (found (orbit_entry f z0 cc k)) with false.
    change (orbit (orbit_entry f z0 cc k)) with (visited_before f z0 cc k).
    rewrite <- visited_before_S.
    assert (Hscan : scan (pt k) (visited_before f z0 cc (S k)) k
                    = recurs f z0 cc k).
    { unfold scan, recurs; rewrite visited_before_S.
      rewrite (firstn_snoc _ _ _ (visited_before_length k)); reflexivity. }
    rewrite Hscan.
    replace (if recurs f z0 cc k then true else false)
      with (recurs f z0 cc k) by (destruct (recurs f z0 cc k); reflexivity).
    fold (stops f z0 cc k).
    destruct (stops f z0 cc k) eqn:E.
    + left; exists k.
      split; [exact Hlt|split; [exact Hpre|split; [exact E|reflexivity]]].
    + assert (Hr : recurs f z0 cc k = false).
      { unfold stops in E; apply orb_false_iff in E; tauto. }
      rewrite Hr; apply (IH (S k)); [lia|].
      intros i Hi; destruct (Nat.eq_dec i k) as [->|]; [exact E|apply Hpre; lia].
Qed.
End LoopFacts.

(** ** The orbit trace and the escape field *)

Section TraceFacts.
Context {F : Type} {FA : FloatArith F} {FM : FloatMag F}.

Lemma formulas_lookup (formulaIndex : nat) :
  formulaIndex < 4 ->
  exists f : complex F -> complex F -> complex F,
    nth_error formulas formulaIndex = Some f.
Proof.
  intros H.
  destruct formulaIndex as [|[|[|[|n]]]]; simpl; eauto; lia.
Qed.

(** A trace either breaks at the first step that recurs or escapes, or
    runs through all [maxOrbit] steps without either. *)
Lemma traceOrbit_outcome (z cc : complex F) (formulaIndex maxOrbit : nat)
    (f : complex F -> complex F -> complex F) :
  nth_error formulas formulaIndex = Some f ->
  (exists n, n < maxOrbit /\ (forall i, i < n -> stops f z cc i = false) /\
     stops f z cc n = true /\
     traceOrbit z cc formulaIndex maxOrbit
     = Some (Broke (orbit_break f z cc n)))
  \/ ((forall i, i < maxOrbit -> stops f z cc i = false) /\
      traceOrbit z cc formulaIndex maxOrbit
      = Some (GuardFailed (orbit_entry f z cc maxOrbit))).
Proof.
  intros Hf; unfold traceOrbit; rewrite Hf; cbn [bind].
  apply (orbit_loop_from f z cc maxOrbit maxOrbit 0); [reflexivity|intros i Hi; lia].
Qed.

Lemma escape_loop_outcome (maxIter : nat)
    (f : complex F -> complex F -> complex F) (z cc : complex F) :
  (exists n, n < maxIter /\
     (forall i, i < n -> escaped (orbit_point f z cc i) = false) /\
     escaped (orbit_point f z cc n) = true /\
     escape_loop maxIter f z cc = Some (Broke (pixel_break f z cc n)))
  \/ ((forall i, i < maxIter -> escaped (orbit_point f z cc i) = false) /\
      escape_loop maxIter f z cc
      = Some (GuardFailed (pixel_entry f z cc maxIter))).
Proof.
  apply (escape_loop_from f z cc maxIter maxIter 0); [reflexivity|intros i Hi; lia].
Qed.

Lemma stops_false (f : complex F -> complex F -> complex F)
    (z cc : complex F) (i : nat) :
  stops f z cc i = false <->
  recurs f z cc i = false /\ escaped (orbit_point f z cc i) = false.
Proof. unfold stops; apply orb_false_iff. Qed.

(** C4.  When the trace ends in [PeriodFound k]: step [k] lies within
    [1e-4] of a point visited at an earlier index, no earlier step lay
    within [1e-4] of one of its predecessors, and the visited sequence is
    the first [k + 1] iterates, so its length is [k + 1]. *)
Theorem period_found_is_first_recurrence
    (z cc : complex F) (formulaIndex maxOrbit : nat)
    (e : loop_exit OrbitState) (k : nat) :
  traceOrbit z cc formulaIndex maxOrbit = Some e ->
  classify e = PeriodFound k ->
  exists f, nth_error formulas formulaIndex = Some f /\
    (exists j, j < k /\
       near (orbit_point f z cc k) (orbit_point f z cc j) = true) /\
    (forall i j, i < k -> j < i ->
       near (orbit_point f z cc i) (orbit_point f z cc j) = false) /\
    mouseOrbit e = map (orbit_point f z cc) (seq 0 (S k)) /\
    length (mouseOrbit e) = S k /\
    mousePeriod e = k /\ k < maxOrbit.
Proof.
  intros Hrun Hcls.
  destruct (nth_error formulas formulaIndex) as [f|] eqn:Hf;
    [|unfold traceOrbit in Hrun; rewrite Hf in Hrun; discriminate].
  exists f; split; [reflexivity|].
  destruct (traceOrbit_outcome z cc formulaIndex maxOrbit f Hf)
    as [(n & Hn & Hfirst & Hstop & Heq)|(_ & Heq)];
    rewrite Heq in Hrun; inversion Hrun; subst e; clear Hrun;
    cbn [classify orbit_break found period] in Hcls.
  - destruct (recurs f z cc n) eqn:Hrec; [|discriminate].
    inversion Hcls; subst n; clear Hcls.
    split; [apply recurs_true; exact Hrec|].
    split.
    { intros i j Hi Hj.
      apply (proj1 (recurs_false f z cc i)); [|exact Hj].
      apply stops_false, Hfirst, Hi. }
    unfold mouseOrbit, mousePeriod; cbn [exit_state orbit_break orbit period].
    split; [reflexivity|].
    split; [apply visited_before_length|split; [reflexivity|exact Hn]].
  - discriminate.
Qed.

(** C5.  For a formula of the registry the trace returns with the fuel
    of [maxOrbit] loop iterations; each iteration appends one point, so
    at most [maxOrbit] points are visited; and the trace ends in exactly
    one of the three classes. *)
Theorem traceOrbit_terminates
    (z cc : complex F) (formulaIndex maxOrbit : nat) :
  formulaIndex < 4 ->
  exists e, traceOrbit z cc formulaIndex maxOrbit = Some e /\
    length (mouseOrbit e) <= maxOrbit /\
    mousePeriod e <= maxOrbit /\
    ((classify e = Escaped /\ mousePeriod e < maxOrbit /\
      length (mouseOrbit e) = S (mousePeriod e))
     \/ (classify e = PeriodFound (mousePeriod e) /\
         mousePeriod e < maxOrbit /\
         length (mouseOrbit e) = S (mousePeriod e))
     \/ (classify e = Exhausted /\ mousePeriod e = maxOrbit /\
         length (mouseOrbit e) = maxOrbit)).
Proof.
  intros Hidx; destruct (formulas_lookup formulaIndex Hidx) as [f Hf].
  destruct (traceOrbit_outcome z cc formulaIndex maxOrbit f Hf)
    as [(n & Hn & Hfirst & Hstop & Heq)|(Hnone & Heq)];
    rewrite Heq; eexists; (split; [reflexivity|]);
    unfold mouseOrbit, mousePeriod;
    cbn [exit_state classify orbit_break orbit_entry orbit period found];
    rewrite visited_before_length.
  - split; [lia|split; [lia|]].
    destruct (recurs f z cc n); [right; left|left]; auto.
  - split; [lia|split; [lia|]]. right; right; auto.
Qed.
End TraceFacts.

Lemma mapM_int_range {B : Type} (g : Z -> option B) (n : Z) (bs : list B) :
  mapM g (int_range n) = Some bs ->
  length bs = Z.to_nat n /\
  forall i b, nth_error bs i = Some b -> g (Z.of_nat i) = Some b.
Proof.
  intros H; destruct (mapM_nth_error g _ _ H) as [Hlen Hnth].
  assert (Hn : length bs = Z.to_nat n).
  { rewrite Hlen; unfold int_range; rewrite length_map, length_seq; reflexivity. }
  split; [exact Hn|].
  intros i b Hb.
  assert (Hi : i < Z.to_nat n).
  { rewrite <- Hn; apply nth_error_Some; congruence. }
  destruct (Hnth i (Z.of_nat i)) as (b' & Hb' & Hg).
  { apply int_range_nth; split; [reflexivity|lia]. }
  congruence.
Qed.

Section FieldFacts.
Context {F : Type} {FA : FloatArith F} {FM : FloatMag F}.

(** The count of one pixel: at most [maxIter], and [maxIter] exactly when
    none of the [maxIter] iterates compared greater than 2. *)
Lemma pixelIter_outcome (maxIter : nat) (width height : Z) (zoom : F)
    (offset : Vector2f F) (juliaMode : bool) (juliaC : complex F)
    (formulaIndex : nat) (f : complex F -> complex F -> complex F)
    (px py : Z) :
  nth_error formulas formulaIndex = Some f ->
  let c := screenToComplex px py zoom offset width height in
  let cc := if juliaMode then juliaC else c in
  exists n,
    pixelIter maxIter width height zoom offset juliaMode juliaC
      formulaIndex px py = Some n /\
    n <= maxIter /\
    (n = maxIter <->
     forall i, i < maxIter -> escaped (orbit_point f c cc i) = false).
Proof.
  intros Hf c cc; unfold pixelIter; rewrite Hf; cbn [bind].
  replace (if juliaMode then screenToComplex px py zoom offset width height
           else screenToComplex px py zoom offset width height)
    with c by (destruct juliaMode; reflexivity).
  fold c; fold cc.
  destruct (escape_loop_outcome maxIter f c cc)
    as [(n & Hn & Hfirst & Hesc & Heq)|(Hnone & Heq)];
    rewrite Heq; cbn [bind exit_state pixel_break pixel_entry iter].
  - exists n; split; [reflexivity|split; [lia|]].
    split; [lia|].
    intros Hall; rewrite (Hall n Hn) in Hesc; discriminate.
  - exists maxIter; split; [reflexivity|split; [lia|]].
    split; auto.
Qed.

(** C8.  For a formula of the registry [computeFractal]'s grid of counts
    exists, has [width] columns of [height] cells, and the cell at
    [(px, py)] holds the count of that pixel: a value in [0, maxIter] that
    is [maxIter] exactly when none of the pixel's [maxIter] iterates had a
    magnitude that compared greater than 2. *)
Theorem field_values_in_range (maxIter : nat) (width height : Z) (zoom : F)
    (offset : Vector2f F) (juliaMode : bool) (juliaC : complex F)
    (formulaIndex : nat) :
  formulaIndex < 4 ->
  exists f field,
    nth_error formulas formulaIndex = Some f /\
    fractalField maxIter width height zoom offset juliaMode juliaC
      formulaIndex = Some field /\
    length field = Z.to_nat width /\
    forall px col, nth_error field px = Some col ->
      length col = Z.to_nat height /\
      forall py n, nth_error col py = Some n ->
        let c := screenToComplex (Z.of_nat px) (Z.of_nat py) zoom offset
                   width height in
        let cc := if juliaMode then juliaC else c in
        0 <= n <= maxIter /\
        (n = maxIter <->
         forall i, i < maxIter -> escaped (orbit_point f c cc i) = false).
Proof.
  intros Hidx; destruct (formulas_lookup formulaIndex Hidx) as [f Hf].
  exists f.
  destruct (mapM_total
    (fun px => mapM (fun py =>
       pixelIter maxIter width height zoom offset juliaMode juliaC
         formulaIndex px py) (int_range height)) (int_range width))
    as [field Hfield].
  { intros px _; apply mapM_total; intros py _.
    destruct (pixelIter_outcome maxIter width height zoom offset juliaMode
                juliaC formulaIndex f px py Hf) as (n & Hn & _).
    exists n; exact Hn. }
  exists field; split; [exact Hf|split; [exact Hfield|]].
  destruct (mapM_int_range _ _ _ Hfield) as [Hlen Hcols].
  split; [exact Hlen|].
  intros px col Hcol.
  destruct (mapM_int_range _ _ _ (Hcols px col Hcol)) as [Hlen' Hcells].
  split; [exact Hlen'|].
  intros py n Hn c cc.
  destruct (pixelIter_outcome maxIter width height zoom offset juliaMode
              juliaC formulaIndex f (Z.of_nat px) (Z.of_nat py) Hf)
    as (n' & Hn' & Hle & Hiff).
  rewrite (Hcells py n Hn) in Hn'; inversion Hn'; subst n'.
  split; [lia|exact Hiff].
Qed.
End FieldFacts.

Section CountFacts.
Context {F : Type} {FA : FloatArith F} {FM : FloatMag F}.

(** What the step count of a trace says about how it ended. *)
Lemma mousePeriod_by_class (z cc : complex F) (formulaIndex maxOrbit : nat) :
  formulaIndex < 4 ->
  exists f e,
    nth_error formulas formulaIndex = Some f /\
    traceOrbit z cc formulaIndex maxOrbit = Some e /\
    0 <= mousePeriod e <= maxOrbit /\
    (classify e = Exhausted <-> mousePeriod e = maxOrbit) /\
    (classify e = Escaped ->
     recurs f z cc (mousePeriod e) = false /\
     escaped (orbit_point f z cc (mousePeriod e)) = true) /\
    (forall k, classify e = PeriodFound k ->
     mousePeriod e = k /\ recurs f z cc k = true).
Proof.
  intros Hidx; destruct (formulas_lookup formulaIndex Hidx) as [f Hf].
  exists f.
  destruct (traceOrbit_outcome z cc formulaIndex maxOrbit f Hf)
    as [(n & Hn & Hfirst & Hstop & Heq)|(Hnone & Heq)];
    rewrite Heq; eexists; (split; [exact Hf|]); (split; [reflexivity|]);
    unfold mousePeriod;
    cbn [exit_state classify orbit_break orbit_entry period found].
  - split; [lia|].
    unfold stops in Hstop.
    destruct (recurs f z cc n) eqn:Hrec; simpl in Hstop.
    + split; [split; [discriminate|lia]|].
      split; [discriminate|].
      intros k Hk; inversion Hk; subst; auto.
    + split; [split; [discriminate|lia]|].
      split; [auto|discriminate].
  - split; [lia|].
    split; [tauto|].
    split; discriminate.
Qed.
End CountFacts.

(** ** The formula registry *)

(** C3.  The number keys 1..4 select registry entries whose evaluation
    is, for every [z] and [c] and in every arithmetic, the expression the
    specification gives for that variant. *)
Theorem registry_matches_specification {F : Type} {FA : FloatArith F}
    (key : nat) (z c : complex F) :
  1 <= key <= 4 ->
  exists formulaIndex,
    selectFormula key = Some formulaIndex /\
    evaluate formulaIndex z c = Some (spec_formula key z c).
Proof.
  intros [Hlo Hhi].
  destruct key as [|[|[|[|[|key]]]]]; try lia;
    eexists; split; reflexivity.
Qed.

(** ** The viewport mapper in exact arithmetic *)

Ltac exact_arith :=
  unfold onMouseWheelScrolled, orbitVertex, screenToComplex, zoomFactor;
  cbn [real imag vx vy fst snd fadd fsub fmul fdiv fneg of_int exact_arith].

(** In exact arithmetic and for a positive zoom, the mapped point is
    [((gx + offset.x - W/2) / zoom, (gy + offset.y - H/2) / zoom)]. *)
Lemma screenToComplex_affine (gx gy : Z) (zoom : Q) (offset : Vector2f Q)
    (W H : Z) :
  (0 < zoom)%Q ->
  (real (screenToComplex gx gy zoom offset W H)
   == (inject_Z gx + vx offset - inject_Z W / 2) / zoom)%Q /\
  (imag (screenToComplex gx gy zoom offset W H)
   == (inject_Z gy + vy offset - inject_Z H / 2) / zoom)%Q.
Proof.
  intros Hz; exact_arith; split; reflexivity.
Qed.

(** In exact arithmetic and for a positive zoom, drawing the point that
    [screenToComplex] maps a grid coordinate to gives back that
    coordinate. *)
Lemma screen_round_trip (gx gy : Z) (zoom : Q) (offset : Vector2f Q)
    (W H : Z) :
  (0 < zoom)%Q ->
  (vx (orbitVertex (screenToComplex gx gy zoom offset W H) zoom offset W H)
   == inject_Z gx)%Q /\
  (vy (orbitVertex (screenToComplex gx gy zoom offset W H) zoom offset W H)
   == inject_Z gy)%Q.
Proof.
  intros Hz.
  assert (Hnz : ~ (zoom == 0)%Q) by (intros E; rewrite E in Hz; discriminate).
  exact_arith; split; field; exact Hnz.
Qed.

(** ** Zooming with the mouse wheel *)

(** In exact arithmetic the handler does not keep the point under the
    mouse: with [before] and [after] the values it computes for the old and
    the new zoom, the point under the mouse ends at [2 after - before]. *)
Lemma wheel_zoom_drift (factor : Q) (W H mouse_x mouse_y : Z) (delta : Q)
    (zoom : Q) (offset : Vector2f Q) :
  (0 < zoom)%Q -> (0 < factor)%Q ->
  let view' := onMouseWheelScrolled factor W H mouse_x mouse_y delta zoom offset in
  let before := screenToComplex mouse_x mouse_y zoom offset W H in
  let after := screenToComplex mouse_x mouse_y (fst view') offset W H in
  let moved := screenToComplex mouse_x mouse_y (fst view') (snd view') W H in
  (real moved == 2 * real after - real before)%Q /\
  (imag moved == 2 * imag after - imag before)%Q.
Proof.
  intros Hz Hf.
  assert (Hnz : ~ (zoom == 0)%Q) by (intros E; rewrite E in Hz; discriminate).
  assert (Hnf : ~ (factor == 0)%Q) by (intros E; rewrite E in Hf; discriminate).
  unfold onMouseWheelScrolled.
  cbn [flt exact_arith of_int].
  destruct (negb (Qle_bool delta (inject_Z 0)));
    [|destruct (negb (Qle_bool (inject_Z 0) delta))];
    exact_arith; split; field; auto.
Qed.

(** ** Binary32: NaNs and infinities *)

Module Binary32Facts.

Lemma add_nan_l y : Binary32.add S754_nan y = S754_nan.
Proof. reflexivity. Qed.
Lemma add_nan_r x : Binary32.add x S754_nan = S754_nan.
Proof. destruct x; reflexivity. Qed.
Lemma sub_nan_l y : Binary32.sub S754_nan y = S754_nan.
Proof. reflexivity. Qed.
Lemma sub_nan_r x : Binary32.sub x S754_nan = S754_nan.
Proof. destruct x; reflexivity. Qed.
Lemma mul_nan_l y : Binary32.mul S754_nan y = S754_nan.
Proof. reflexivity. Qed.
Lemma mul_nan_r x : Binary32.mul x S754_nan = S754_nan.
Proof. destruct x; reflexivity. Qed.

Create Rewrite HintDb nan_prop.
#[local] Hint Rewrite add_nan_l add_nan_r sub_nan_l sub_nan_r
  mul_nan_l mul_nan_r : nan_prop.

Lemma is_nan_eq x : is_nan x = true -> x = S754_nan.
Proof. destruct x; simpl; congruence. Qed.

Ltac nan_simpl :=
  cbn [real imag fadd fsub fmul fneg fabs binary32_arith
       Binary32.neg Binary32.abs SFopp SFabs];
  autorewrite with nan_prop;
  cbn [Binary32.neg Binary32.abs SFopp SFabs].

(** Once a component is a NaN, every formula returns [(NaN, NaN)]. *)
Lemma formula_of_nan (f : complex spec_float -> complex spec_float ->
                          complex spec_float) (z c : complex spec_float) :
  In f formulas -> has_nan z = true -> f z c = Complex S754_nan S754_nan.
Proof.
  intros Hin Hz; destruct z as [re im]; unfold has_nan in Hz; simpl in Hz.
  apply orb_true_iff in Hz.
  simpl in Hin.
  destruct Hin as [<-|[<-|[<-|[<-|[]]]]];
    unfold formula1, formula2, formula3, formula4, cadd;
    (destruct Hz as [Hz|Hz]; apply is_nan_eq in Hz; subst);
    repeat nan_simpl; reflexivity.
Qed.

Lemma hypotf_inf x y : is_inf x || is_inf y = true -> hypotf x y = S754_infinity false.
Proof. intros H; unfold hypotf; rewrite H; reflexivity. Qed.

Lemma hypotf_nan x y :
  is_inf x || is_inf y = false -> is_nan x || is_nan y = true ->
  hypotf x y = S754_nan.
Proof. intros H1 H2; unfold hypotf; rewrite H1, H2; reflexivity. Qed.

(** An iterate with an infinite component compares greater than 2. *)
Lemma escaped_of_inf z : has_inf z = true -> escaped z = true.
Proof.
  intros H; unfold escaped, cabs; cbn [hypot binary32_mag].
  rewrite (hypotf_inf _ _ H); reflexivity.
Qed.

(** An iterate with a NaN component and no infinite one does not. *)
Lemma escaped_of_nan z :
  has_nan z = true -> has_inf z = false -> escaped z = false.
Proof.
  intros Hn Hi; unfold escaped, cabs; cbn [hypot binary32_mag].
  rewrite (hypotf_nan _ _ Hi Hn); reflexivity.
Qed.

(** An iterate with a NaN component is within [1e-4] of no point. *)
Lemma near_of_nan z p : has_nan z = true -> near z p = false.
Proof.
  intros Hn; unfold near, cabs; cbn [hypot lt_1e_4 binary32_mag].
  assert (Hd : has_nan (csub z p) = true).
  { unfold has_nan in *; apply orb_true_iff in Hn; apply orb_true_iff.
    destruct z as [re im]; simpl in *.
    destruct Hn as [Hn|Hn]; apply is_nan_eq in Hn; subst; [left|right];
      reflexivity. }
  unfold hypotf; fold (has_inf (csub z p)); fold (has_nan (csub z p)).
  rewrite Hd; destruct (has_inf (csub z p)); reflexivity.
Qed.

(** *** Rounding never produces a NaN *)

Lemma shr_1_nonneg mrs : (0 <= shr_m mrs)%Z -> (0 <= shr_m (shr_1 mrs))%Z.
Proof.
  destruct mrs as [m r s]; cbn [shr_m]; intros H.
  destruct m as [|p|p]; [simpl; lia| |lia].
  destruct p; simpl; lia.
Qed.

Lemma iter_shr_1_nonneg p mrs :
  (0 <= shr_m mrs)%Z -> (0 <= shr_m (SpecFloat.iter_pos shr_1 p mrs))%Z.
Proof.
  revert mrs; induction p as [p IH|p IH|]; intros mrs H; simpl.
  - apply IH, IH, shr_1_nonneg, H.
  - apply IH, IH, H.
  - apply shr_1_nonneg, H.
Qed.

Lemma shr_fexp_nonneg prec emax m e l :
  (0 <= m)%Z -> (0 <= shr_m (fst (shr_fexp prec emax m e l)))%Z.
Proof.
  intros H; unfold shr_fexp, shr.
  assert (H0 : (0 <= shr_m (shr_record_of_loc m l))%Z)
    by (destruct l as [|[]]; exact H).
  destruct (fexp prec emax (Zdigits2 m + e) - e)%Z; cbn [fst]; auto.
  apply iter_shr_1_nonneg, H0.
Qed.

Lemma round_nearest_even_nonneg m l :
  (0 <= m)%Z -> (0 <= round_nearest_even m l)%Z.
Proof.
  intros H; destruct l as [|[]]; simpl; try lia.
  destruct (Z.even m); lia.
Qed.

(** The result of rounding a non-negative mantissa is a zero, a finite
    number or an infinity of the requested sign. *)
Lemma binary_round_aux_shape prec emax sx mx ex lx :
  (0 <= mx)%Z ->
  let r := binary_round_aux prec emax sx mx ex lx in
  r = S754_zero sx \/ r = S754_infinity sx \/
  exists m e, r = S754_finite sx m e.
Proof.
  intros H; unfold binary_round_aux.
  pose proof (shr_fexp_nonneg prec emax mx ex lx H) as H1.
  destruct (shr_fexp prec emax mx ex lx) as [mrs' e']; cbn [fst] in H1.
  pose proof (shr_fexp_nonneg prec emax
    (round_nearest_even (shr_m mrs') (loc_of_shr_record mrs')) e' loc_Exact
    (round_nearest_even_nonneg _ _ H1)) as H2.
  destruct (shr_fexp prec emax _ e' loc_Exact) as [mrs'' e'']; cbn [fst] in H2.
  destruct (shr_m mrs'') as [|p|p]; [left; reflexivity| |lia].
  destruct (e'' <=? emax - prec)%Z; right; [right|left]; eauto.
Qed.

Lemma binary_round_shape prec emax sx mx ex :
  let r := binary_round prec emax sx mx ex in
  r = S754_zero sx \/ r = S754_infinity sx \/
  exists m e, r = S754_finite sx m e.
Proof.
  unfold binary_round.
  destruct (shl_align mx ex _) as [mz ez].
  apply binary_round_aux_shape; lia.
Qed.

Lemma binary_normalize_not_nan prec emax m e szero :
  is_nan (binary_normalize prec emax m e szero) = false.
Proof.
  unfold binary_normalize; destruct m as [|p|p]; [reflexivity| |].
  - destruct (binary_round_shape prec emax false p e)
      as [->|[->|(m' & e' & ->)]]; reflexivity.
  - destruct (binary_round_shape prec emax true p e)
      as [->|[->|(m' & e' & ->)]]; reflexivity.
Qed.

Lemma of_float_not_nan x :
  is_nan x = false -> is_nan (Binary64.of_float x) = false.
Proof.
  destruct x; simpl; auto; intros _; apply binary_normalize_not_nan.
Qed.

Lemma of_double_not_nan x :
  is_nan x = false -> is_nan (Binary32.of_double x) = false.
Proof.
  destruct x; simpl; auto; intros _; apply binary_normalize_not_nan.
Qed.

Lemma sqrt_defined_not_nan x : sqrt_defined x = true -> is_nan x = false.
Proof. destruct x; simpl; congruence. Qed.

(** A square is a value [sqrt] is defined on. *)
Lemma square_sqrt_defined x :
  is_nan x = false -> sqrt_defined (Binary64.mul x x) = true.
Proof.
  destruct x as [s|s| |s m e]; cbn [is_nan]; try discriminate; intros _;
    unfold Binary64.mul; cbn [SFmul].
  - reflexivity.
  - destruct s; reflexivity.
  - destruct (binary_round_aux_shape Binary64.prec Binary64.emax (xorb s s)
                (Zpos (m * m)) (e + e) loc_Exact)
      as [H|[H|(m' & e' & H)]]; [lia| | |];
      cbv zeta in H; rewrite H; destruct s; reflexivity.
Qed.

(** So is the sum of two such values. *)
Lemma add_sqrt_defined a b :
  sqrt_defined a = true -> sqrt_defined b = true ->
  sqrt_defined (Binary64.add a b) = true.
Proof.
  destruct a as [sa|sa| |sa ma ea]; cbn [sqrt_defined]; try discriminate;
    destruct b as [sb|sb| |sb mb eb]; cbn [sqrt_defined]; try discriminate;
    intros Ha Hb; unfold Binary64.add; cbn [SFadd];
    destruct sa; try discriminate Ha; destruct sb; try discriminate Hb;
    try reflexivity.
  cbn [cond_Zopp Z.add binary_normalize].
  match goal with
  | |- sqrt_defined (binary_round ?p ?e ?s ?m ?x) = true =>
      destruct (binary_round_shape p e s m x) as [H|[H|(m' & e' & H)]];
        cbv zeta in H; rewrite H; reflexivity
  end.
Qed.

Lemma sqrtrem_nonneg n : (0 <= fst (Z.sqrtrem n))%Z.
Proof.
  destruct n as [|p|p]; simpl; try lia.
  destruct (Pos.sqrtrem p) as [s [|r|]]; simpl; lia.
Qed.

(** And the square root of such a value is not a NaN. *)
Lemma sqrt_not_nan x :
  sqrt_defined x = true -> is_nan (Binary64.sqrt x) = false.
Proof.
  destruct x as [s|s| |s m e]; cbn [sqrt_defined]; try discriminate;
    intros H; unfold Binary64.sqrt; cbn [SFsqrt].
  - reflexivity.
  - destruct s; [discriminate|reflexivity].
  - destruct s; [discriminate|].
    unfold SFsqrt_core_binary; cbv zeta.
    match goal with
    | |- context [Z.sqrtrem ?n] =>
        pose proof (sqrtrem_nonneg n) as Hq; destruct (Z.sqrtrem n) as [q r]
    end.
    cbn [fst] in Hq; cbv beta iota.
    match goal with
    | |- is_nan (binary_round_aux ?p ?em ?s ?mm ?ee ?l) = false =>
        destruct (binary_round_aux_shape p em s mm ee l Hq)
          as [H'|[H'|(m' & e' & H')]]; cbv zeta in H'; rewrite H'; reflexivity
    end.
Qed.

(** [hypotf] returns a NaN only for an argument that is one. *)
Lemma hypotf_nan_inv x y :
  is_nan (hypotf x y) = true -> is_nan x || is_nan y = true.
Proof.
  unfold hypotf.
  destruct (is_inf x || is_inf y); [discriminate|].
  destruct (is_nan x || is_nan y) eqn:E; [reflexivity|].
  apply orb_false_iff in E; destruct E as [Ex Ey].
  intros H; exfalso.
  rewrite of_double_not_nan in H; [discriminate|].
  apply sqrt_not_nan, add_sqrt_defined;
    apply square_sqrt_defined, of_float_not_nan; assumption.
Qed.

(** *** Comparisons *)

Lemma SFcompare_swap x y c :
  SFcompare x y = Some c -> SFcompare y x = Some (CompOpp c).
Proof.
  destruct x as [sx|sx| |sx mx ex], y as [sy|sy| |sy my ey];
    simpl; try discriminate; intros H; inversion H; clear H;
    try (destruct sx); try (destruct sy); try reflexivity;
    rewrite (Z.compare_antisym ex ey);
    destruct (ex ?= ey)%Z; simpl; try reflexivity;
    rewrite ?Pos.compare_cont_antisym; reflexivity.
Qed.

Lemma SFcompare_defined x y :
  is_nan x = false -> is_nan y = false -> exists c, SFcompare x y = Some c.
Proof.
  destruct x, y; simpl; try discriminate; intros _ _; eauto.
Qed.

(** For numbers, "not greater than" is "at most". *)
Lemma leb_of_not_ltb a b :
  is_nan a = false -> is_nan b = false ->
  Binary32.ltb a b = false -> Binary32.leb b a = true.
Proof.
  intros Ha Hb H; unfold Binary32.ltb, Binary32.leb, SFltb, SFleb in *.
  destruct (SFcompare_defined a b Ha Hb) as [c Hc].
  rewrite Hc in H; rewrite (SFcompare_swap _ _ _ Hc).
  destruct c; simpl; congruence.
Qed.

End Binary32Facts.

(** The step of the opposite sign, [offset += (before - after) * zoom'],
    is the one that keeps the point under the mouse. *)
Lemma opposite_step_keeps_point (W H mouse_x mouse_y : Z)
    (zoom zoom' : Q) (offset : Vector2f Q) :
  (0 < zoom)%Q -> (0 < zoom')%Q ->
  let before := screenToComplex mouse_x mouse_y zoom offset W H in
  let after := screenToComplex mouse_x mouse_y zoom' offset W H in
  let offset' := Vec2 (vx offset + (real before - real after) * zoom')%Q
                      (vy offset + (imag before - imag after) * zoom')%Q in
  let fixed := screenToComplex mouse_x mouse_y zoom' offset' W H in
  (real fixed == real before)%Q /\ (imag fixed == imag before)%Q.
Proof.
  intros Hz Hz'.
  assert (Hnz : ~ (zoom == 0)%Q) by (intros E; rewrite E in Hz; discriminate).
  assert (Hnz' : ~ (zoom' == 0)%Q) by (intros E; rewrite E in Hz'; discriminate).
  exact_arith; split; field; auto.
Qed.

(** ** Non-finite iterates in binary32 *)

Section NonFinite.
Variable f : complex spec_float -> complex spec_float -> complex spec_float.
Variables z cc : complex spec_float.
Hypothesis f_registered : In f formulas.

Local Abbreviation pt := (orbit_point f z cc).
Local Abbreviation NaNs := (Complex S754_nan S754_nan).

(** After a value with a NaN component every later value is [(NaN, NaN)]. *)
Lemma iterate_nan_forever (k : nat) :
  has_nan (iterate f cc k z) = true ->
  forall n, k < n -> iterate f cc n z = NaNs.
Proof.
  intros Hk n Hn; induction n as [|n IH]; [lia|].
  cbn [iterate]; apply Binary32Facts.formula_of_nan; [exact f_registered|].
  destruct (Nat.eq_dec k n) as [<-|Hne]; [exact Hk|].
  rewrite IH by lia; reflexivity.
Qed.

Lemma orbit_point_nan_forever (k : nat) :
  has_nan (pt k) = true -> forall n, k < n -> pt n = NaNs.
Proof.
  intros Hk n Hn; unfold orbit_point.
  apply (iterate_nan_forever (S k)); [exact Hk|lia].
Qed.

(** From a NaN magnitude on, no step escapes and none recurs. *)
Lemma no_stop_after_nan (k : nat) :
  has_nan (pt k) = true -> has_inf (pt k) = false ->
  forall n, k <= n ->
    escaped (pt n) = false /\ recurs f z cc n = false.
Proof.
  intros Hn Hi n Hkn.
  assert (Hnan : has_nan (pt n) = true /\ has_inf (pt n) = false).
  { destruct (Nat.eq_dec k n) as [<-|Hne]; [auto|].
    rewrite (orbit_point_nan_forever k Hn n) by lia; split; reflexivity. }
  destruct Hnan as [Hn' Hi']; split.
  - apply Binary32Facts.escaped_of_nan; assumption.
  - apply recurs_false; intros j _; apply Binary32Facts.near_of_nan, Hn'.
Qed.

(** A magnitude that is a NaN is never followed by an escape. *)
Lemma magnitude_before_escape (k n : nat) :
  k < n -> escaped (pt k) = false -> escaped (pt n) = true ->
  Binary32.leb (cabs (pt k)) (of_int 2) = true.
Proof.
  intros Hkn Hk Hesc.
  destruct (is_nan (cabs (pt k))) eqn:Hnan.
  - exfalso.
    apply Binary32Facts.hypotf_nan_inv in Hnan; fold (has_nan (pt k)) in Hnan.
    assert (Hn : pt n = NaNs) by (apply (orbit_point_nan_forever k Hnan); lia).
    rewrite Hn in Hesc; discriminate.
  - apply Binary32Facts.leb_of_not_ltb; [reflexivity|exact Hnan|exact Hk].
Qed.
End NonFinite.

(** ** The first stopping step decides the outcome *)

Section FirstStop.
Context {F : Type} {FA : FloatArith F} {FM : FloatMag F}.
Variable f : complex F -> complex F -> complex F.
Variables z cc : complex F.

Lemma traceOrbit_breaks_at (formulaIndex bound k : nat) :
  nth_error formulas formulaIndex = Some f -> k < bound ->
  (forall i, i < k -> stops f z cc i = false) -> stops f z cc k = true ->
  traceOrbit z cc formulaIndex bound = Some (Broke (orbit_break f z cc k)).
Proof.
  intros Hf Hk Hpre Hstop.
  destruct (traceOrbit_outcome z cc formulaIndex bound f Hf)
    as [(n & Hn & Hfirst & Hstop' & Heq)|(Hnone & _)].
  - destruct (lt_eq_lt_dec n k) as [[Hlt| ->]|Hgt]; [|exact Heq|].
    + rewrite (Hpre n Hlt) in Hstop'; discriminate.
    + rewrite (Hfirst k Hgt) in Hstop; discriminate.
  - rewrite (Hnone k Hk) in Hstop; discriminate.
Qed.

Lemma traceOrbit_exhausts (formulaIndex bound : nat) :
  nth_error formulas formulaIndex = Some f ->
  (forall i, i < bound -> stops f z cc i = false) ->
  traceOrbit z cc formulaIndex bound
  = Some (GuardFailed (orbit_entry f z cc bound)).
Proof.
  intros Hf Hnone.
  destruct (traceOrbit_outcome z cc formulaIndex bound f Hf)
    as [(n & Hn & _ & Hstop & _)|(_ & Heq)]; [|exact Heq].
  rewrite (Hnone n Hn) in Hstop; discriminate.
Qed.

Lemma escape_loop_breaks_at (bound k : nat) :
  k < bound ->
  (forall i, i < k -> escaped (orbit_point f z cc i) = false) ->
  escaped (orbit_point f z cc k) = true ->
  escape_loop bound f z cc = Some (Broke (pixel_break f z cc k)).
Proof.
  intros Hk Hpre Hesc.
  destruct (escape_loop_outcome bound f z cc)
    as [(n & Hn & Hfirst & Hesc' & Heq)|(Hnone & _)].
  - destruct (lt_eq_lt_dec n k) as [[Hlt| ->]|Hgt]; [|exact Heq|].
    + rewrite (Hpre n Hlt) in Hesc'; discriminate.
    + rewrite (Hfirst k Hgt) in Hesc; discriminate.
  - rewrite (Hnone k Hk) in Hesc; discriminate.
Qed.

Lemma escape_loop_exhausts (bound : nat) :
  (forall i, i < bound -> escaped (orbit_point f z cc i) = false) ->
  escape_loop bound f z cc = Some (GuardFailed (pixel_entry f z cc bound)).
Proof.
  intros Hnone.
  destruct (escape_loop_outcome bound f z cc)
    as [(n & Hn & _ & Hesc & _)|(_ & Heq)]; [|exact Heq].
  rewrite (Hnone n Hn) in Hesc; discriminate.
Qed.
End FirstStop.

(** ** Escapes in binary32 *)

(** C6.  When the trace ends in [Escaped] at step [k]: the magnitude of
    the k-th visited point is greater than 2, the magnitude of every
    earlier one is at most 2 (and so not a NaN), and no visited point up
    to step [k] lies within [1e-4] of an earlier one. *)
Theorem escaped_step_is_first_escape
    (z cc : complex spec_float) (formulaIndex maxOrbit : nat)
    (e : loop_exit OrbitState) (k : nat) :
  traceOrbit z cc formulaIndex maxOrbit = Some e ->
  classify e = Escaped ->
  mousePeriod e = k ->
  exists f, nth_error formulas formulaIndex = Some f /\
    Binary32.ltb (f32 2) (cabs (orbit_point f z cc k)) = true /\
    (forall i, i < k ->
       Binary32.leb (cabs (orbit_point f z cc i)) (f32 2) = true) /\
    (forall i j, i <= k -> j < i ->
       near (orbit_point f z cc i) (orbit_point f z cc j) = false).
Proof.
  intros Hrun Hcls Hk.
  destruct (nth_error formulas formulaIndex) as [f|] eqn:Hf;
    [|unfold traceOrbit in Hrun; rewrite Hf in Hrun; discriminate].
  exists f; split; [reflexivity|].
  destruct (traceOrbit_outcome z cc formulaIndex maxOrbit f Hf)
    as [(n & Hn & Hfirst & Hstop & Heq)|(_ & Heq)];
    rewrite Heq in Hrun; inversion Hrun; subst e; clear Hrun;
    cbn [classify orbit_break found period] in Hcls; [|discriminate].
  unfold mousePeriod in Hk; cbn [exit_state orbit_break period] in Hk.
  subst n.
  destruct (recurs f z cc k) eqn:Hrec; [discriminate|].
  assert (Hesc : escaped (orbit_point f z cc k) = true).
  { unfold stops in Hstop; rewrite Hrec in Hstop; exact Hstop. }
  split; [exact Hesc|].
  split.
  - intros i Hi.
    apply (magnitude_before_escape f z cc (nth_error_In _ _ Hf) i k Hi);
      [|exact Hesc].
    apply stops_false, Hfirst, Hi.
  - intros i j Hi Hj.
    apply (proj1 (recurs_false f z cc i)); [|exact Hj].
    destruct (Nat.eq_dec i k) as [->|Hne]; [exact Hrec|].
    apply stops_false, Hfirst; lia.
Qed.

(** C2, as the program has it.  Take the first step [k] whose iterate is
    not finite.  If a component is infinite, the magnitude is [+inf], the
    comparison with 2 holds and both loops break at step [k].  If not (a
    component is a NaN and none is infinite), the magnitude is a NaN, the
    comparison fails at this and at every later step, no step recurs, and
    both loops run to their bound: the pixel gets the count of a pixel that
    never escaped, the trace is exhausted. *)
Theorem nonfinite_iterate_outcome
    (z cc : complex spec_float) (formulaIndex bound k : nat)
    (f : complex spec_float -> complex spec_float -> complex spec_float) :
  nth_error formulas formulaIndex = Some f ->
  k < bound ->
  has_inf (orbit_point f z cc k) || has_nan (orbit_point f z cc k) = true ->
  ((forall i, i < k -> escaped (orbit_point f z cc i) = false) ->
   escape_loop bound f z cc
   = Some (if has_inf (orbit_point f z cc k)
           then Broke (pixel_break f z cc k)
           else GuardFailed (pixel_entry f z cc bound)))
  /\
  ((forall i, i < k -> stops f z cc i = false) ->
   traceOrbit z cc formulaIndex bound
   = Some (if has_inf (orbit_point f z cc k)
           then Broke (orbit_break f z cc k)
           else GuardFailed (orbit_entry f z cc bound))).
Proof.
  intros Hf Hk Hnonfin.
  pose proof (nth_error_In _ _ Hf) as Hin.
  destruct (has_inf (orbit_point f z cc k)) eqn:Hinf.
  - pose proof (Binary32Facts.escaped_of_inf _ Hinf) as Hesc.
    split; intros Hpre.
    + apply escape_loop_breaks_at; assumption.
    + apply traceOrbit_breaks_at; try assumption.
      unfold stops; rewrite Hesc; apply orb_true_r.
  - simpl in Hnonfin.
    pose proof (no_stop_after_nan f z cc Hin k Hnonfin Hinf) as Hafter.
    split; intros Hpre.
    + apply escape_loop_exhausts; intros i Hi.
      destruct (Nat.lt_ge_cases i k) as [Hlt|Hge];
        [apply Hpre, Hlt|apply Hafter, Hge].
    + apply traceOrbit_exhausts; [exact Hf|]; intros i Hi.
      destruct (Nat.lt_ge_cases i k) as [Hlt|Hge]; [apply Hpre, Hlt|].
      apply stops_false; destruct (Hafter i Hge); auto.
Qed.

(** ** Concrete runs *)

(** C1.  One notch of wheel-up at the initial view with the mouse at
    [(500, 400)].  The point under the mouse is [(2/5, 2/5)] before the
    event; after it the handler has moved [offset] to [(-20, -20)] and
    the point under the mouse is [(4/15, 4/15)].  It would have stayed at
    [(2/5, 2/5)] with [offset = (20, 20)], the step of the opposite sign.
    In binary32 the real part goes from [13421773 * 2^-25] (about 0.4) to
    [8947849 * 2^-25] (about 0.267). *)
Theorem wheel_zoom_moves_point_under_mouse :
  let origin := Vec2 0%Q 0%Q in
  let view' := onMouseWheelScrolled zoomFactor width height 500 400 1%Q
                 (250 # 1)%Q origin in
  let before := screenToComplex 500 400 (250 # 1)%Q origin width height in
  let moved := screenToComplex 500 400 (fst view') (snd view') width height in
  let fixed := screenToComplex 500 400 (fst view') (Vec2 (20 # 1) (20 # 1))%Q
                 width height in
  ((fst view' == 300 # 1)%Q /\
   (vx (snd view') == - (20 # 1))%Q /\ (vy (snd view') == - (20 # 1))%Q /\
   (real before == 2 # 5)%Q /\ (imag before == 2 # 5)%Q /\
   (real moved == 4 # 15)%Q /\ (imag moved == 4 # 15)%Q /\
   ~ (real moved == real before)%Q /\ ~ (imag moved == imag before)%Q /\
   (real fixed == real before)%Q /\ (imag fixed == imag before)%Q)
  /\
  let origin32 := Vec2 (f32 0) (f32 0) in
  let view32 := onMouseWheelScrolled zoomFactor width height 500 400 (f32 1)
                  (f32 250) origin32 in
  real (screenToComplex 500 400 (f32 250) origin32 width height)
  = S754_finite false 13421773 (-25) /\
  real (screenToComplex 500 400 (fst view32) (snd view32) width height)
  = S754_finite false 8947849 (-25).
Proof.
  split; [|split; vm_compute; reflexivity].
  repeat split; try (vm_compute; reflexivity); vm_compute; discriminate.
Qed.

(** C2 fails for NaNs.  With the smallest positive [zoom], pixel
    [(500, 400)] maps to [(+inf, +inf)]; under formula 3 its first
    iterate is [(NaN, NaN)]; the pixel is given the count [maxIter] and
    the orbit trace runs all [maxOrbit] steps. *)
Lemma nan_iterate_runs_to_the_bound :
  let origin := Vec2 (f32 0) (f32 0) in
  let c := screenToComplex 500 400 min_subnormal origin width height in
  flt (f32 0) min_subnormal = true /\
  c = Complex (S754_infinity false) (S754_infinity false) /\
  orbit_point formula3 c c 0 = Complex S754_nan S754_nan /\
  pixelIter maxIter width height min_subnormal origin false c 2 500 400
  = Some maxIter /\
  option_map (fun e => (classify e, mousePeriod e)) (traceOrbit c c 2 maxOrbit)
  = Some (Exhausted, maxOrbit).
Proof. repeat split; vm_compute; reflexivity. Qed.

(** The view in which every pixel maps to [(NaN, NaN)] is reached from
    the initial one by turning the wheel down 268 notches with the mouse
    at [(500, 400)]: [zoom] is still positive, [offset] is [(NaN, NaN)],
    and under the default formula every pixel, here the centre, is given
    [maxIter] and the trace under the mouse runs [maxOrbit] steps. *)
Lemma nan_view_is_reached_by_scrolling :
  let view := wheelEvents 268 zoomFactor width height 500 400
                (fneg (f32 1)) (f32 250, Vec2 (f32 0) (f32 0)) in
  flt (f32 0) (fst view) = true /\
  snd view = Vec2 S754_nan S754_nan /\
  pixelIter maxIter width height (fst view) (snd view) false (c32 0 0) 0
    400 300 = Some maxIter /\
  option_map fst
    (mouseQuery maxOrbit width height 500 400 (fst view) (snd view) false
       (c32 0 0) 0)
  = Some (Z.of_nat maxOrbit).
Proof. repeat split; vm_compute; reflexivity. Qed.

(** C10 fails for [Exhausted]: no exhausted trace shares its step count
    with a trace that ended otherwise. *)
Lemma exhausted_is_told_by_the_count :
  ~ (exists (z1 cc1 z2 cc2 : complex spec_float) (i1 i2 : nat)
            (e1 e2 : loop_exit OrbitState),
       i1 < 4 /\ i2 < 4 /\
       traceOrbit z1 cc1 i1 maxOrbit = Some e1 /\
       traceOrbit z2 cc2 i2 maxOrbit = Some e2 /\
       classify e1 = Exhausted /\ classify e2 <> Exhausted /\
       mousePeriod e1 = mousePeriod e2).
Proof.
  intros (z1 & cc1 & z2 & cc2 & i1 & i2 & e1 & e2 &
          Hi1 & Hi2 & H1 & H2 & Hc1 & Hc2 & Heq).
  destruct (mousePeriod_by_class z1 cc1 i1 maxOrbit Hi1)
    as (f1 & e1' & _ & H1' & _ & Hex1 & _).
  destruct (mousePeriod_by_class z2 cc2 i2 maxOrbit Hi2)
    as (f2 & e2' & _ & H2' & _ & Hex2 & _).
  rewrite H1 in H1'; inversion H1'; subst e1'.
  rewrite H2 in H2'; inversion H2'; subst e2'.
  apply Hc2, Hex2; rewrite <- Heq; apply Hex1, Hc1.
Qed.

(** C10, as the program has it.  The step count is in [0, maxOrbit]; it
    is [maxOrbit] exactly for an exhausted trace; it is the step of the
    escape for an escaped one and the step of the recurrence for a
    recurring one.  So the count does not tell an escape from a
    recurrence: from the seeds [0] and [1] under formula 1 the count is 1,
    once for a recurrence and once for an escape.  The program keeps the
    visited points next to the count, and those differ. *)
Theorem step_count_tells_only_exhaustion :
  (forall (F : Type) (FA : FloatArith F) (FM : FloatMag F)
          (z cc : complex F) (formulaIndex bound : nat),
     formulaIndex < 4 ->
     exists f e,
       nth_error formulas formulaIndex = Some f /\
       traceOrbit z cc formulaIndex bound = Some e /\
       0 <= mousePeriod e <= bound /\
       (classify e = Exhausted <-> mousePeriod e = bound) /\
       (classify e = Escaped ->
        recurs f z cc (mousePeriod e) = false /\
        escaped (orbit_point f z cc (mousePeriod e)) = true) /\
       (forall k, classify e = PeriodFound k ->
        mousePeriod e = k /\ recurs f z cc k = true))
  /\
  (exists e1 e2,
     traceOrbit (c32 0 0) (c32 0 0) 0 maxOrbit = Some e1 /\
     traceOrbit (c32 1 0) (c32 1 0) 0 maxOrbit = Some e2 /\
     classify e1 = PeriodFound 1 /\ classify e2 = Escaped /\
     mousePeriod e1 = 1 /\ mousePeriod e2 = 1 /\
     mouseOrbit e1 = [c32 0 0; c32 0 0] /\
     mouseOrbit e2 = [c32 2 0; c32 5 0]).
Proof.
  split.
  - intros F FA FM z cc formulaIndex bound H.
    apply mousePeriod_by_class, H.
  - exists (Broke (orbit_break formula1 (c32 0 0) (c32 0 0) 1)),
           (Broke (orbit_break formula1 (c32 1 0) (c32 1 0) 1)).
    repeat split; vm_compute; reflexivity.
Qed.

(** ** The theorems at concrete inputs *)

Lemma registry_matches_specification_witness :
  1 <= 3 <= 4 /\
  exists formulaIndex,
    selectFormula 3 = Some formulaIndex /\
    evaluate formulaIndex (c32 2 1) (c32 2 1)
    = Some (spec_formula 3 (c32 2 1) (c32 2 1)).
Proof.
  split; [lia|].
  apply (registry_matches_specification 3 (c32 2 1) (c32 2 1)); lia.
Defined.

Lemma period_found_is_first_recurrence_witness :
  let e := Broke (orbit_break formula1 (c32 0 0) (c32 0 0) 1) in
  traceOrbit (c32 0 0) (c32 0 0) 0 maxOrbit = Some e /\
  classify e = PeriodFound 1 /\
  exists f, nth_error formulas 0 = Some f /\
    (exists j, j < 1 /\
       near (orbit_point f (c32 0 0) (c32 0 0) 1)
            (orbit_point f (c32 0 0) (c32 0 0) j) = true) /\
    (forall i j, i < 1 -> j < i ->
       near (orbit_point f (c32 0 0) (c32 0 0) i)
            (orbit_point f (c32 0 0) (c32 0 0) j) = false) /\
    mouseOrbit e = map (orbit_point f (c32 0 0) (c32 0 0)) (seq 0 2) /\
    length (mouseOrbit e) = 2 /\
    mousePeriod e = 1 /\ 1 < maxOrbit.
Proof.
  intros e.
  assert (Hrun : traceOrbit (c32 0 0) (c32 0 0) 0 maxOrbit = Some e)
    by (vm_compute; reflexivity).
  assert (Hcls : classify e = PeriodFound 1) by (vm_compute; reflexivity).
  split; [exact Hrun|split; [exact Hcls|]].
  exact (period_found_is_first_recurrence (c32 0 0) (c32 0 0) 0 maxOrbit e 1
           Hrun Hcls).
Defined.

Lemma traceOrbit_terminates_witness :
  0 < 4 /\
  exists e, traceOrbit (c32 1 0) (c32 1 0) 0 maxOrbit = Some e /\
    length (mouseOrbit e) <= maxOrbit /\
    mousePeriod e <= maxOrbit /\
    ((classify e = Escaped /\ mousePeriod e < maxOrbit /\
      length (mouseOrbit e) = S (mousePeriod e))
     \/ (classify e = PeriodFound (mousePeriod e) /\
         mousePeriod e < maxOrbit /\
         length (mouseOrbit e) = S (mousePeriod e))
     \/ (classify e = Exhausted /\ mousePeriod e = maxOrbit /\
         length (mouseOrbit e) = maxOrbit)).
Proof.
  split; [lia|].
  apply (traceOrbit_terminates (c32 1 0) (c32 1 0) 0 maxOrbit); lia.
Defined.

Lemma escaped_step_is_first_escape_witness :
  let e := Broke (orbit_break formula1 (c32 1 0) (c32 1 0) 1) in
  traceOrbit (c32 1 0) (c32 1 0) 0 maxOrbit = Some e /\
  classify e = Escaped /\
  mousePeriod e = 1 /\
  exists f, nth_error formulas 0 = Some f /\
    Binary32.ltb (f32 2) (cabs (orbit_point f (c32 1 0) (c32 1 0) 1)) = true /\
    (forall i, i < 1 ->
       Binary32.leb (cabs (orbit_point f (c32 1 0) (c32 1 0) i)) (f32 2)
       = true) /\
    (forall i j, i <= 1 -> j < i ->
       near (orbit_point f (c32 1 0) (c32 1 0) i)
            (orbit_point f (c32 1 0) (c32 1 0) j) = false).
Proof.
  intros e.
  assert (Hrun : traceOrbit (c32 1 0) (c32 1 0) 0 maxOrbit = Some e)
    by (vm_compute; reflexivity).
  assert (Hcls : classify e = Escaped) by (vm_compute; reflexivity).
  assert (Hk : mousePeriod e = 1) by (vm_compute; reflexivity).
  split; [exact Hrun|split; [exact Hcls|split; [exact Hk|]]].
  exact (escaped_step_is_first_escape (c32 1 0) (c32 1 0) 0 maxOrbit e 1
           Hrun Hcls Hk).
Defined.

Lemma nonfinite_iterate_outcome_witness :
  let c := Complex (S754_infinity false) (S754_infinity false) in
  nth_error (formulas (F := spec_float)) 2 = Some formula3 /\
  0 < maxOrbit /\
  has_inf (orbit_point formula3 c c 0) || has_nan (orbit_point formula3 c c 0)
  = true /\
  ((forall i, i < 0 -> escaped (orbit_point formula3 c c i) = false) ->
   escape_loop maxOrbit formula3 c c
   = Some (if has_inf (orbit_point formula3 c c 0)
           then Broke (pixel_break formula3 c c 0)
           else GuardFailed (pixel_entry formula3 c c maxOrbit)))
  /\
  ((forall i, i < 0 -> stops formula3 c c i = false) ->
   traceOrbit c c 2 maxOrbit
   = Some (if has_inf (orbit_point formula3 c c 0)
           then Broke (orbit_break formula3 c c 0)
           else GuardFailed (orbit_entry formula3 c c maxOrbit))).
Proof.
  intros c.
  assert (Hf : nth_error (formulas (F := spec_float)) 2 = Some formula3)
    by reflexivity.
  assert (Hk : 0 < maxOrbit) by (unfold maxOrbit; lia).
  assert (Hnf : has_inf (orbit_point formula3 c c 0)
                || has_nan (orbit_point formula3 c c 0) = true)
    by (vm_compute; reflexivity).
  split; [exact Hf|split; [exact Hk|split; [exact Hnf|]]].
  exact (nonfinite_iterate_outcome c c 2 maxOrbit 0 formula3 Hf Hk Hnf).
Defined.

Lemma field_values_in_range_witness :
  0 < 4 /\
  exists f field,
    nth_error formulas 0 = Some f /\
    fractalField maxIter width height (f32 250) (Vec2 (f32 0) (f32 0)) false
      (c32 0 0) 0 = Some field /\
    length field = Z.to_nat width /\
    forall px col, nth_error field px = Some col ->
      length col = Z.to_nat height /\
      forall py n, nth_error col py = Some n ->
        let c := screenToComplex (Z.of_nat px) (Z.of_nat py) (f32 250)
                   (Vec2 (f32 0) (f32 0)) width height in
        let cc := if false then c32 0 0 else c in
        0 <= n <= maxIter /\
        (n = maxIter <->
         forall i, i < maxIter -> escaped (orbit_point f c cc i) = false).
Proof.
  split; [lia|].
  apply (field_values_in_range maxIter width height (f32 250)
           (Vec2 (f32 0) (f32 0)) false (c32 0 0) 0); lia.
Defined.

Lemma step_count_tells_only_exhaustion_witness :
  0 < 4 /\
  exists f e,
    nth_error formulas 0 = Some f /\
    traceOrbit (c32 1 0) (c32 1 0) 0 maxOrbit = Some e /\
    0 <= mousePeriod e <= maxOrbit /\
    (classify e = Exhausted <-> mousePeriod e = maxOrbit) /\
    (classify e = Escaped ->
     recurs f (c32 1 0) (c32 1 0) (mousePeriod e) = false /\
     escaped (orbit_point f (c32 1 0) (c32 1 0) (mousePeriod e)) = true) /\
    (forall k, classify e = PeriodFound k ->
     mousePeriod e = k /\ recurs f (c32 1 0) (c32 1 0) k = true).
Proof.
  split; [lia|].
  apply (proj1 step_count_tells_only_exhaustion spec_float _ _
           (c32 1 0) (c32 1 0) 0 maxOrbit); lia.
Defined.

(** * Further properties of the program *)

(** ** Grey levels *)

Lemma pixelColor_exact (maxIter it : nat) :
  0 < maxIter -> it <= maxIter ->
  pixelColor maxIter it = (255 * Z.of_nat it / Z.of_nat maxIter)%Z /\
  (0 <= pixelColor maxIter it <= 255)%Z.
Proof.
  intros Hm Hit; unfold pixelColor.
  assert (H : (0 <= 255 * Z.of_nat it / Z.of_nat maxIter <= 255)%Z).
  { split; [apply Z.div_pos; lia|].
    apply Z.div_le_upper_bound; nia. }
  rewrite Z.mod_small by lia; split; [reflexivity|exact H].
Qed.

Lemma pixelColor_white (maxIter it : nat) :
  0 < maxIter -> it <= maxIter ->
  (pixelColor maxIter it = 255%Z <-> it = maxIter).
Proof.
  intros Hm Hit; rewrite (proj1 (pixelColor_exact maxIter it Hm Hit)); split.
  - intros H.
    destruct (Nat.eq_dec it maxIter) as [|Hne]; [assumption|exfalso].
    assert (Hlt : (255 * Z.of_nat it / Z.of_nat maxIter < 255)%Z)
      by (apply Z.div_lt_upper_bound; nia).
    lia.
  - intros ->; rewrite Z.div_mul by lia; reflexivity.
Qed.

Lemma pixelColor_black (maxIter it : nat) :
  0 < maxIter <= 255 -> it <= maxIter ->
  (pixelColor maxIter it = 0%Z <-> it = 0).
Proof.
  intros [Hm Hle] Hit; rewrite (proj1 (pixelColor_exact maxIter it Hm Hit)).
  split.
  - intros H; destruct it as [|it]; [reflexivity|exfalso].
    assert (H1 : (1 <= 255 * Z.of_nat (S it) / Z.of_nat maxIter)%Z)
      by (apply Z.div_le_lower_bound; nia).
    lia.
  - intros ->; reflexivity.
Qed.

(** X2.  With at most 255 iterations the grey level tells the iteration
    count: a pixel that leaves the loop later is strictly brighter. *)
Theorem later_escape_is_brighter (maxIter a b : nat) :
  0 < maxIter <= 255 -> a < b <= maxIter ->
  (pixelColor maxIter a < pixelColor maxIter b)%Z.
Proof.
  intros [Hm Hle] [Hab Hb].
  rewrite (proj1 (pixelColor_exact maxIter a Hm ltac:(lia))).
  rewrite (proj1 (pixelColor_exact maxIter b Hm Hb)).
  assert (H : (255 * Z.of_nat a / Z.of_nat maxIter + 1
               <= 255 * Z.of_nat b / Z.of_nat maxIter)%Z).
  { replace (255 * Z.of_nat a / Z.of_nat maxIter + 1)%Z
      with ((255 * Z.of_nat a + 1 * Z.of_nat maxIter) / Z.of_nat maxIter)%Z
      by (rewrite Z.div_add by lia; reflexivity).
    apply Z.div_le_mono; lia. }
  lia.
Qed.

Lemma later_escape_is_brighter_witness :
  0 < maxIter <= 255 /\ 3 < 4 <= maxIter /\
  (pixelColor maxIter 3 < pixelColor maxIter 4)%Z.
Proof.
  assert (H1 : 0 < maxIter <= 255) by (unfold maxIter; lia).
  assert (H2 : 3 < 4 <= maxIter) by (unfold maxIter; lia).
  split; [exact H1|split; [exact H2|]].
  exact (later_escape_is_brighter maxIter 3 4 H1 H2).
Defined.

Section ImageFacts.
Context {F : Type} {FA : FloatArith F} {FM : FloatMag F}.

(** The grid of counts, cell by cell. *)
Lemma fractalField_cells (maxIter : nat) (width height : Z) (zoom : F)
    (offset : Vector2f F) (juliaMode : bool) (juliaC : complex F)
    (formulaIndex : nat) :
  formulaIndex < 4 ->
  exists field,
    fractalField maxIter width height zoom offset juliaMode juliaC
      formulaIndex = Some field /\
    length field = Z.to_nat width /\
    forall px col, nth_error field px = Some col ->
      length col = Z.to_nat height /\
      forall py n, nth_error col py = Some n ->
        pixelIter maxIter width height zoom offset juliaMode juliaC
          formulaIndex (Z.of_nat px) (Z.of_nat py) = Some n.
Proof.
  intros Hidx; destruct (formulas_lookup formulaIndex Hidx) as [f Hf].
  destruct (mapM_total
    (fun px => mapM (fun py =>
       pixelIter maxIter width height zoom offset juliaMode juliaC
         formulaIndex px py) (int_range height)) (int_range width))
    as [field Hfield].
  { intros px _; apply mapM_total; intros py _.
    destruct (pixelIter_outcome maxIter width height zoom offset juliaMode
                juliaC formulaIndex f px py Hf) as (n & Hn & _).
    exists n; exact Hn. }
  exists field; split; [exact Hfield|].
  destruct (mapM_int_range _ _ _ Hfield) as [Hlen Hcols].
  split; [exact Hlen|].
  intros px col Hcol.
  destruct (mapM_int_range _ _ _ (Hcols px col Hcol)) as [Hlen' Hcells].
  split; [exact Hlen'|exact Hcells].
Qed.

(** X1.  The image [computeFractal] writes has [width] columns of
    [height] grey levels, each in [0, 255] (the cast to [sf::Uint8] never
    wraps); a pixel is white (255) exactly when none of its [maxIter]
    iterates compared greater than 2, and, with at most 255 iterations,
    black (0) exactly when its first iterate did. *)
Theorem computeFractal_image (maxIter : nat) (width height : Z) (zoom : F)
    (offset : Vector2f F) (juliaMode : bool) (juliaC : complex F)
    (formulaIndex : nat) :
  formulaIndex < 4 -> 0 < maxIter <= 255 ->
  exists f image,
    nth_error formulas formulaIndex = Some f /\
    computeFractal maxIter width height zoom offset juliaMode juliaC
      formulaIndex = Some image /\
    length image = Z.to_nat width /\
    forall px col, nth_error image px = Some col ->
      length col = Z.to_nat height /\
      forall py g, nth_error col py = Some g ->
        let c := screenToComplex (Z.of_nat px) (Z.of_nat py) zoom offset
                   width height in
        let cc := if juliaMode then juliaC else c in
        (0 <= g <= 255)%Z /\
        (g = 255%Z <->
         forall i, i < maxIter -> escaped (orbit_point f c cc i) = false) /\
        (g = 0%Z <-> escaped (orbit_point f c cc 0) = true).
Proof.
  intros Hidx [Hm H255].
  destruct (formulas_lookup formulaIndex Hidx) as [f Hf].
  destruct (fractalField_cells maxIter width height zoom offset juliaMode
              juliaC formulaIndex Hidx) as (field & Hfield & Hlen & Hcols).
  exists f, (map (map (pixelColor maxIter)) field).
  split; [exact Hf|].
  split; [unfold computeFractal; rewrite Hfield; reflexivity|].
  split; [rewrite length_map; exact Hlen|].
  intros px col Hcol.
  rewrite nth_error_map in Hcol.
  destruct (nth_error field px) as [ncol|] eqn:Hncol; [|discriminate].
  inversion Hcol; subst col; clear Hcol.
  destruct (Hcols px ncol Hncol) as [Hlen' Hcells].
  split; [rewrite length_map; exact Hlen'|].
  intros py g Hg c cc.
  rewrite nth_error_map in Hg.
  destruct (nth_error ncol py) as [n|] eqn:Hn; [|discriminate].
  inversion Hg; subst g; clear Hg.
  pose proof (Hcells py n Hn) as Hpix.
  unfold pixelIter in Hpix; rewrite Hf in Hpix; cbn [bind] in Hpix.
  replace (if juliaMode
           then screenToComplex (Z.of_nat px) (Z.of_nat py) zoom offset
                  width height
           else screenToComplex (Z.of_nat px) (Z.of_nat py) zoom offset
                  width height)
    with c in Hpix by (destruct juliaMode; reflexivity).
  fold c in Hpix; fold cc in Hpix.
  destruct (escape_loop_outcome maxIter f c cc)
    as [(k & Hk & Hfirst & Hesc & Heq)|(Hnone & Heq)];
    rewrite Heq in Hpix; cbn [bind exit_state pixel_break pixel_entry iter] in Hpix;
    inversion Hpix; subst n; clear Hpix.
  - split; [apply pixelColor_exact; lia|].
    split.
    + rewrite pixelColor_white by lia; split; [lia|].
      intros Hall; rewrite (Hall k Hk) in Hesc; discriminate.
    + rewrite pixelColor_black by lia; split.
      * intros ->; exact Hesc.
      * intros H0; destruct k as [|k]; [reflexivity|].
        rewrite (Hfirst 0) in H0 by lia; discriminate.
  - split; [apply pixelColor_exact; lia|].
    split.
    + rewrite pixelColor_white by lia; split; auto.
    + rewrite pixelColor_black by lia; split; [lia|].
      intros H0; rewrite (Hnone 0 Hm) in H0; discriminate.
Qed.
End ImageFacts.

Lemma computeFractal_image_witness :
  0 < 4 /\ 0 < maxIter <= 255 /\
  exists f image,
    nth_error formulas 0 = Some f /\
    computeFractal maxIter width height (f32 250) (Vec2 (f32 0) (f32 0))
      false (c32 0 0) 0 = Some image /\
    length image = Z.to_nat width /\
    forall px col, nth_error image px = Some col ->
      length col = Z.to_nat height /\
      forall py g, nth_error col py = Some g ->
        let c := screenToComplex (Z.of_nat px) (Z.of_nat py) (f32 250)
                   (Vec2 (f32 0) (f32 0)) width height in
        let cc := if false then c32 0 0 else c in
        (0 <= g <= 255)%Z /\
        (g = 255%Z <->
         forall i, i < maxIter -> escaped (orbit_point f c cc i) = false) /\
        (g = 0%Z <-> escaped (orbit_point f c cc 0) = true).
Proof.
  assert (H1 : 0 < 4) by lia.
  assert (H2 : 0 < maxIter <= 255) by (unfold maxIter; lia).
  split; [exact H1|split; [exact H2|]].
  exact (computeFractal_image maxIter width height (f32 250)
           (Vec2 (f32 0) (f32 0)) false (c32 0 0) 0 H1 H2).
Defined.

(** ** The pixel under the mouse and the orbit under the mouse *)

Section PixelAndOrbit.
Context {F : Type} {FA : FloatArith F} {FM : FloatMag F}.

(** X3.  The escape loop of a pixel and the orbit loop started from the
    same pixel run through the same iterates.  A pixel that escaped at
    iteration [n] stops the trace at step [n] at the latest; a trace that
    ends in an escape at a step below [maxIter] gives the pixel exactly
    that count; and a pixel that never escaped has no escaping trace
    within [maxIter] steps. *)
Theorem pixel_and_orbit_agree (maxIter maxOrbit : nat) (width height : Z)
    (zoom : F) (offset : Vector2f F) (juliaMode : bool) (juliaC : complex F)
    (formulaIndex : nat) (px py : Z) :
  formulaIndex < 4 ->
  let c := screenToComplex px py zoom offset width height in
  let cc := if juliaMode then juliaC else c in
  exists n t,
    pixelIter maxIter width height zoom offset juliaMode juliaC formulaIndex
      px py = Some n /\
    traceOrbit c cc formulaIndex maxOrbit = Some t /\
    (n < maxIter -> n < maxOrbit -> mousePeriod t <= n) /\
    (classify t = Escaped -> mousePeriod t < maxIter -> n = mousePeriod t) /\
    (n = maxIter -> classify t = Escaped -> maxIter <= mousePeriod t).
Proof.
  intros Hidx c cc; destruct (formulas_lookup formulaIndex Hidx) as [f Hf].
  assert (Hpix : exists e,
             escape_loop maxIter f c cc = Some e /\
             pixelIter maxIter width height zoom offset juliaMode juliaC
               formulaIndex px py = Some (iter (exit_state e))).
  { unfold pixelIter; rewrite Hf; cbn [bind].
    replace (if juliaMode then screenToComplex px py zoom offset width height
             else screenToComplex px py zoom offset width height)
      with c by (destruct juliaMode; reflexivity).
    fold c; fold cc.
    destruct (escape_loop_outcome maxIter f c cc)
      as [(k & _ & _ & _ & Heq)|(_ & Heq)]; rewrite Heq; eexists;
      split; reflexivity. }
  destruct Hpix as (e & He & Hpix).
  destruct (escape_loop_outcome maxIter f c cc)
    as [(n & Hn & Hfirst & Hesc & Heq)|(Hnone & Heq)];
    rewrite Heq in He; inversion He; subst e; clear He;
    cbn [exit_state pixel_break pixel_entry iter] in Hpix;
    (destruct (traceOrbit_outcome c cc formulaIndex maxOrbit f Hf)
      as [(k & Hk & Hkfirst & Hkstop & Hkeq)|(Hknone & Hkeq)]);
    eexists; eexists; (split; [exact Hpix|]); (split; [exact Hkeq|]);
    unfold mousePeriod;
    cbn [exit_state classify orbit_break orbit_entry period found].
  - (* pixel escaped at n, trace broke at k *)
    assert (Hkn : k <= n).
    { destruct (Nat.le_gt_cases k n) as [|Hgt]; [assumption|exfalso].
      pose proof (Hkfirst n Hgt) as H; apply stops_false in H.
      destruct H as [_ H]; rewrite H in Hesc; discriminate. }
    split; [intros _ _; exact Hkn|].
    split; [|intros; lia].
    destruct (recurs f c cc k) eqn:Hrec; [discriminate|].
    intros _ _.
    unfold stops in Hkstop; rewrite Hrec in Hkstop; simpl in Hkstop.
    destruct (Nat.eq_dec k n) as [->|Hne]; [reflexivity|exfalso].
    rewrite (Hfirst k) in Hkstop by lia; discriminate.
  - (* pixel escaped at n, trace exhausted *)
    split.
    + intros _ Hlt; exfalso.
      pose proof (Hknone n Hlt) as H; apply stops_false in H.
      destruct H as [_ H]; rewrite H in Hesc; discriminate.
    + split; [discriminate|intros; lia].
  - (* pixel never escaped, trace broke at k *)
    split; [intros; lia|].
    destruct (recurs f c cc k) eqn:Hrec; [split; discriminate|].
    unfold stops in Hkstop; rewrite Hrec in Hkstop; simpl in Hkstop.
    split.
    + intros _ Hlt; rewrite (Hnone k Hlt) in Hkstop; discriminate.
    + intros _ _.
      destruct (Nat.le_gt_cases maxIter k) as [|Hlt]; [assumption|].
      rewrite (Hnone k Hlt) in Hkstop; discriminate.
  - split; [intros; lia|split; discriminate].
Qed.

(** The orbit query of a frame, by the position of the mouse. *)
Lemma mouseQuery_outcome (maxOrbit : nat) (width height : Z)
    (m : Vector2i) (zoom : F) (offset : Vector2f F) (juliaMode : bool)
    (juliaC : complex F) (formulaIndex : nat) :
  formulaIndex < 4 ->
  exists p orb,
    mouseQuery maxOrbit width height (ix m) (iy m) zoom offset juliaMode
      juliaC formulaIndex = Some (p, orb) /\
    (insideWindow width height m = false -> p = (-1)%Z /\ orb = []) /\
    (insideWindow width height m = true ->
     (0 <= p <= Z.of_nat maxOrbit)%Z /\
     length orb = Nat.min (S (Z.to_nat p)) maxOrbit) /\
    (p = (-1)%Z <-> insideWindow width height m = false).
Proof.
  intros Hidx; unfold mouseQuery.
  change ((0 <=? ix m)%Z && (ix m <? width)%Z && (0 <=? iy m)%Z
          && (iy m <? height)%Z) with (insideWindow width height m).
  destruct (insideWindow width height m) eqn:Hin.
  - set (c := screenToComplex (ix m) (iy m) zoom offset width height).
    set (cc := if juliaMode then juliaC else c).
    destruct (formulas_lookup formulaIndex Hidx) as [f Hf].
    destruct (traceOrbit_outcome c cc formulaIndex maxOrbit f Hf)
      as [(k & Hk & _ & _ & Heq)|(_ & Heq)];
      rewrite Heq; cbn [bind]; eexists; eexists; (split; [reflexivity|]);
      unfold mousePeriod, mouseOrbit;
      cbn [exit_state orbit_break orbit_entry period orbit];
      rewrite visited_before_length, Nat2Z.id;
      (split; [discriminate|]); (split; [intros _; split; lia|]);
      split; [lia|discriminate|lia|discriminate].
  - exists (-1)%Z, []; split; [reflexivity|].
    split; [auto|split; [discriminate|tauto]].
Qed.

(** X4.  The orbit query of a frame.  With the mouse outside the window
    nothing is traced: the period is [-1] and the orbit is empty.  Inside,
    the period is a count in [0, maxOrbit] and the orbit holds one point
    per step taken: [period + 1] points after a [break], [maxOrbit]
    otherwise.  So the period is [-1] exactly when the mouse is outside,
    and the orbit is empty exactly when it is outside or no step is
    allowed. *)
Theorem mouseQuery_gate (maxOrbit : nat) (width height : Z)
    (m : Vector2i) (zoom : F) (offset : Vector2f F) (juliaMode : bool)
    (juliaC : complex F) (formulaIndex : nat) :
  formulaIndex < 4 ->
  exists p orb,
    mouseQuery maxOrbit width height (ix m) (iy m) zoom offset juliaMode
      juliaC formulaIndex = Some (p, orb) /\
    (insideWindow width height m = false -> p = (-1)%Z /\ orb = []) /\
    (insideWindow width height m = true ->
     (0 <= p <= Z.of_nat maxOrbit)%Z /\
     length orb = Nat.min (S (Z.to_nat p)) maxOrbit) /\
    (p = (-1)%Z <-> insideWindow width height m = false) /\
    (orb = [] <-> insideWindow width height m = false \/ maxOrbit = 0).
Proof.
  intros Hidx.
  destruct (mouseQuery_outcome maxOrbit width height m zoom offset juliaMode
              juliaC formulaIndex Hidx) as (p & orb & Hq & Hout & Hin & Hp).
  exists p, orb; repeat (split; [assumption|]).
  destruct (insideWindow width height m) eqn:E.
  - destruct (Hin eq_refl) as [Hb Hlen]; split.
    + intros ->; right; cbn [length] in Hlen; lia.
    + intros [Hd| ->]; [discriminate|].
      rewrite Nat.min_0_r in Hlen; destruct orb; [reflexivity|discriminate].
  - destruct (Hout eq_refl) as [_ ->]; split; auto.
Qed.

(** X5.  No recurrence is reported at step 0, where there is no earlier
    point to compare with: a trace that ends in [PeriodFound k] has
    [k >= 1], and a step count of 0 from a loop of at least one step always
    stands for an escape of the first iterate. *)
Theorem count_zero_is_an_escape (z cc : complex F)
    (formulaIndex maxOrbit : nat) (t : loop_exit OrbitState) :
  traceOrbit z cc formulaIndex maxOrbit = Some t ->
  (forall k, classify t = PeriodFound k -> 1 <= k) /\
  (0 < maxOrbit -> mousePeriod t = 0 ->
   classify t = Escaped /\
   exists f, nth_error formulas formulaIndex = Some f /\
             escaped (f z cc) = true /\ mouseOrbit t = [f z cc]).
Proof.
  intros Hrun.
  destruct (nth_error formulas formulaIndex) as [f|] eqn:Hf;
    [|unfold traceOrbit in Hrun; rewrite Hf in Hrun; discriminate].
  destruct (traceOrbit_outcome z cc formulaIndex maxOrbit f Hf)
    as [(n & Hn & Hfirst & Hstop & Heq)|(_ & Heq)];
    rewrite Heq in Hrun; inversion Hrun; subst t; clear Hrun;
    unfold mousePeriod, mouseOrbit;
    cbn [classify exit_state orbit_break orbit_entry period found orbit].
  - assert (H0 : recurs f z cc 0 = false) by reflexivity.
    split.
    + intros k Hk; destruct (recurs f z cc n) eqn:Hrec; [|discriminate].
      inversion Hk; subst k.
      destruct n; [rewrite H0 in Hrec; discriminate|lia].
    + intros _ ->; rewrite H0; split; [reflexivity|].
      exists f; split; [reflexivity|].
      unfold stops in Hstop; rewrite H0 in Hstop.
      split; [exact Hstop|reflexivity].
  - split; [discriminate|intros; lia].
Qed.

(** X6.  In an exhausted trace the orbit holds all [maxOrbit] iterates,
    none of them compared greater than 2 and none lies within [1e-4] of an
    earlier one. *)
Theorem exhausted_trace_is_separated (z cc : complex F)
    (formulaIndex maxOrbit : nat) (t : loop_exit OrbitState) :
  traceOrbit z cc formulaIndex maxOrbit = Some t ->
  classify t = Exhausted ->
  exists f, nth_error formulas formulaIndex = Some f /\
    mouseOrbit t = map (orbit_point f z cc) (seq 0 maxOrbit) /\
    forall i, i < maxOrbit ->
      escaped (orbit_point f z cc i) = false /\
      forall j, j < i ->
        near (orbit_point f z cc i) (orbit_point f z cc j) = false.
Proof.
  intros Hrun Hcls.
  destruct (nth_error formulas formulaIndex) as [f|] eqn:Hf;
    [|unfold traceOrbit in Hrun; rewrite Hf in Hrun; discriminate].
  exists f; split; [reflexivity|].
  destruct (traceOrbit_outcome z cc formulaIndex maxOrbit f Hf)
    as [(n & Hn & Hfirst & Hstop & Heq)|(Hnone & Heq)];
    rewrite Heq in Hrun; inversion Hrun; subst t; clear Hrun.
  - cbn [classify orbit_break found] in Hcls.
    destruct (recurs f z cc n); discriminate.
  - split; [reflexivity|].
    intros i Hi; pose proof (Hnone i Hi) as H; apply stops_false in H.
    destruct H as [Hrec Hesc]; split; [exact Hesc|].
    apply recurs_false, Hrec.
Qed.
End PixelAndOrbit.

(** ** Symmetry of the formulas *)

Section EvenFormula.
Context {F : Type} {FA : FloatArith F} {FM : FloatMag F}.
Variable f : complex F -> complex F -> complex F.
Hypothesis f_even : forall z c, f (cneg z) c = f z c.
Variables z cc : complex F.

Lemma even_orbit_point i :
  orbit_point f (cneg z) cc i = orbit_point f z cc i.
Proof.
  unfold orbit_point; induction i as [|i IH]; cbn [iterate] in *.
  - apply f_even.
  - rewrite IH; reflexivity.
Qed.

Lemma even_visited_before k :
  visited_before f (cneg z) cc k = visited_before f z cc k.
Proof. apply map_ext; intros i; apply even_orbit_point. Qed.

Lemma even_stops k : stops f (cneg z) cc k = stops f z cc k.
Proof.
  unfold stops, recurs; rewrite even_visited_before, even_orbit_point.
  reflexivity.
Qed.

Lemma even_trace (formulaIndex maxOrbit : nat) :
  nth_error formulas formulaIndex = Some f ->
  exists t t',
    traceOrbit (cneg z) cc formulaIndex maxOrbit = Some t /\
    traceOrbit z cc formulaIndex maxOrbit = Some t' /\
    classify t = classify t' /\ mousePeriod t = mousePeriod t' /\
    mouseOrbit t = mouseOrbit t'.
Proof.
  intros Hf.
  destruct (traceOrbit_outcome z cc formulaIndex maxOrbit f Hf)
    as [(n & Hn & Hfirst & Hstop & Heq)|(Hnone & Heq)].
  - exists (Broke (orbit_break f (cneg z) cc n)),
           (Broke (orbit_break f z cc n)).
    split.
    { apply traceOrbit_breaks_at; [exact Hf|exact Hn| |].
      - intros i Hi; rewrite even_stops; apply Hfirst, Hi.
      - rewrite even_stops; exact Hstop. }
    split; [exact Heq|].
    unfold mousePeriod, mouseOrbit;
      cbn [classify exit_state orbit_break period found orbit].
    unfold recurs; rewrite !even_visited_before, even_orbit_point.
    repeat split; reflexivity.
  - exists (GuardFailed (orbit_entry f (cneg z) cc maxOrbit)),
           (GuardFailed (orbit_entry f z cc maxOrbit)).
    split.
    { apply traceOrbit_exhausts; [exact Hf|].
      intros i Hi; rewrite even_stops; apply Hnone, Hi. }
    split; [exact Heq|].
    unfold mousePeriod, mouseOrbit;
      cbn [classify exit_state orbit_entry period orbit].
    rewrite even_visited_before; repeat split; reflexivity.
Qed.

Lemma even_escape_loop (maxIter : nat) :
  exists e e',
    escape_loop maxIter f (cneg z) cc = Some e /\
    escape_loop maxIter f z cc = Some e' /\
    iter (exit_state e) = iter (exit_state e').
Proof.
  destruct (escape_loop_outcome maxIter f z cc)
    as [(n & Hn & Hfirst & Hesc & Heq)|(Hnone & Heq)].
  - exists (Broke (pixel_break f (cneg z) cc n)),
           (Broke (pixel_break f z cc n)).
    split; [|split; [exact Heq|reflexivity]].
    apply escape_loop_breaks_at; [exact Hn| |].
    + intros i Hi; rewrite even_orbit_point; apply Hfirst, Hi.
    + rewrite even_orbit_point; exact Hesc.
  - exists (GuardFailed (pixel_entry f (cneg z) cc maxIter)),
           (GuardFailed (pixel_entry f z cc maxIter)).
    split; [|split; [exact Heq|reflexivity]].
    apply escape_loop_exhausts.
    intros i Hi; rewrite even_orbit_point; apply Hnone, Hi.
Qed.
End EvenFormula.

Module Binary32Symmetry.

Lemma binary_round_aux_opp prec emax s m e l :
  SFopp (binary_round_aux prec emax s m e l)
  = binary_round_aux prec emax (negb s) m e l.
Proof.
  unfold binary_round_aux.
  destruct (shr_fexp prec emax m e l) as [mrs' e'].
  destruct (shr_fexp prec emax _ e' loc_Exact) as [mrs'' e''].
  destruct (shr_m mrs''); [reflexivity| |reflexivity].
  destruct (e'' <=? emax - prec)%Z; reflexivity.
Qed.

Lemma mul_opp_l x y :
  Binary32.mul (Binary32.neg x) y = Binary32.neg (Binary32.mul x y).
Proof.
  unfold Binary32.mul, Binary32.neg.
  destruct x as [sx|sx| |sx mx ex], y as [sy|sy| |sy my ey];
    cbn [SFmul SFopp]; try reflexivity;
    try (destruct sx, sy; reflexivity).
  rewrite binary_round_aux_opp; destruct sx, sy; reflexivity.
Qed.

Lemma mul_opp_r x y :
  Binary32.mul x (Binary32.neg y) = Binary32.neg (Binary32.mul x y).
Proof.
  unfold Binary32.mul, Binary32.neg.
  destruct x as [sx|sx| |sx mx ex], y as [sy|sy| |sy my ey];
    cbn [SFmul SFopp]; try reflexivity;
    try (destruct sx, sy; reflexivity).
  rewrite binary_round_aux_opp; destruct sx, sy; reflexivity.
Qed.

Lemma neg_involutive x : Binary32.neg (Binary32.neg x) = x.
Proof. destruct x as [s|s| |s m e]; simpl; try destruct s; reflexivity. Qed.

Lemma mul_opp_opp x y :
  Binary32.mul (Binary32.neg x) (Binary32.neg y) = Binary32.mul x y.
Proof. rewrite mul_opp_l, mul_opp_r; apply neg_involutive. Qed.

(** The squaring formulas see [z] and [-z] alike, bit for bit. *)
Lemma squaring_formula_even
    (f : complex spec_float -> complex spec_float -> complex spec_float)
    (formulaIndex : nat) (z c : complex spec_float) :
  formulaIndex < 3 -> nth_error formulas formulaIndex = Some f ->
  f (cneg z) c = f z c.
Proof.
  intros Hidx Hf.
  destruct formulaIndex as [|[|[|n]]]; [| | |lia];
    inversion Hf; subst f; clear Hf;
    unfold formula1, formula2, formula3, cneg;
    cbn [real imag fmul fneg binary32_arith];
    rewrite !mul_opp_opp, (mul_opp_r (of_int 2) (real z)), mul_opp_opp;
    reflexivity.
Qed.

End Binary32Symmetry.

(** X7.  Formulas 1, 2 and 3 square [z], so in binary32 they return the
    same bits for [z] and [-z].  A trace and a pixel started at [-z]
    therefore end like the ones started at [z]: same class, same step
    count, same visited points, same iteration count.  In Julia mode the
    picture of these formulas is symmetric under [z -> -z]. *)
Theorem squaring_formulas_are_even (z c cc : complex spec_float)
    (formulaIndex maxOrbit maxIter : nat) :
  formulaIndex < 3 ->
  exists f, nth_error formulas formulaIndex = Some f /\
    f (cneg z) c = f z c /\
    (exists t t',
       traceOrbit (cneg z) cc formulaIndex maxOrbit = Some t /\
       traceOrbit z cc formulaIndex maxOrbit = Some t' /\
       classify t = classify t' /\ mousePeriod t = mousePeriod t' /\
       mouseOrbit t = mouseOrbit t') /\
    (exists e e',
       escape_loop maxIter f (cneg z) cc = Some e /\
       escape_loop maxIter f z cc = Some e' /\
       iter (exit_state e) = iter (exit_state e')).
Proof.
  intros Hidx.
  destruct (formulas_lookup (F := spec_float) formulaIndex) as [f Hf]; [lia|].
  pose proof (fun z c =>
    Binary32Symmetry.squaring_formula_even f formulaIndex z c Hidx Hf)
    as Heven.
  exists f; split; [exact Hf|split; [apply Heven|split]].
  - exact (even_trace f Heven z cc formulaIndex maxOrbit Hf).
  - exact (even_escape_loop f Heven z cc maxIter).
Qed.

Lemma squaring_formulas_are_even_witness :
  2 < 3 /\
  exists f, nth_error formulas 2 = Some f /\
    f (cneg (c32 1 2)) (c32 0 1) = f (c32 1 2) (c32 0 1) /\
    (exists t t',
       traceOrbit (cneg (c32 1 2)) (c32 0 0) 2 maxOrbit = Some t /\
       traceOrbit (c32 1 2) (c32 0 0) 2 maxOrbit = Some t' /\
       classify t = classify t' /\ mousePeriod t = mousePeriod t' /\
       mouseOrbit t = mouseOrbit t') /\
    (exists e e',
       escape_loop maxIter f (cneg (c32 1 2)) (c32 0 0) = Some e /\
       escape_loop maxIter f (c32 1 2) (c32 0 0) = Some e' /\
       iter (exit_state e) = iter (exit_state e')).
Proof.
  assert (H : 2 < 3) by lia.
  split; [exact H|].
  exact (squaring_formulas_are_even (c32 1 2) (c32 0 1) (c32 0 0) 2
           maxOrbit maxIter H).
Defined.

(** Formula 4 is not even: it multiplies [re z] by its absolute value. *)
Remark formula4_is_not_even :
  formula4 (cneg (c32 1 0)) (c32 0 0) = c32 1 0 /\
  formula4 (c32 1 0) (c32 0 0) = c32 1 0 /\
  formula4 (cneg (c32 1 1)) (c32 0 0) = Complex (S754_zero false) (f32 2) /\
  formula4 (c32 1 1) (c32 0 0) = c32 2 2.
Proof. repeat split; vm_compute; reflexivity. Qed.

(** ** The view in binary32: drag and tone *)

Lemma sub_zero_r (x : spec_float) : Binary32.sub x (f32 0) = x.
Proof. destruct x as [[|]|[|]| |s m e]; reflexivity. Qed.

(** X12.  Alt-drag in binary32: the offset during a drag is computed
    from the offset at the press and the mouse displacement alone, so
    dragging anywhere and back to the position of the press restores the
    offset bit for bit, whatever its value (NaN and infinities
    included). *)
Theorem drag_back_restores_offset (zoomFactor : spec_float) (W H : Z)
    (d0 d1 d2 : Devices) (s : App) :
  altPressed d0 = true -> altPressed d1 = true -> altPressed d2 = true ->
  mouse d2 = mouse d0 ->
  let pressed := fst (handleEvent zoomFactor W H
                        (MouseButtonPressed LeftButton) d0 s) in
  st_offset (dragStep d2 (dragStep d1 pressed)) = st_offset s.
Proof.
  intros H0 H1 H2 Hm; cbn [handleEvent]; rewrite H0; cbn [fst].
  unfold dragStep; cbn [setDrag st_dragging andb]; rewrite H1.
  cbn [setView st_dragging andb]; rewrite H2.
  cbn [setView setDrag st_offset st_lastMousePos st_dragStartOffset ix iy].
  rewrite Hm, !Z.sub_diag.
  cbn [fsub of_int binary32_arith].
  change (Binary32.of_Z 0) with (f32 0); rewrite !sub_zero_r.
  destruct (st_offset s); reflexivity.
Qed.

Lemma drag_back_restores_offset_witness :
  let d0 := {| mouse := Vec2i 500 400; altPressed := true;
               jPressed := false; leftPressed := true |} in
  let d1 := {| mouse := Vec2i 430 380; altPressed := true;
               jPressed := false; leftPressed := true |} in
  let s := {| st_open := true; st_zoom := f32 250;
              st_offset := Vec2 S754_nan (S754_infinity true);
              st_fractalImage := []; st_juliaMode := false;
              st_juliaC := c32 0 0; st_formulaIndex := 0;
              st_lastPeriod := (-1)%Z; st_needsUpdate := false;
              st_dragging := false; st_lastMousePos := Vec2i 0 0;
              st_dragStartOffset := Vec2 (f32 0) (f32 0);
              st_mousePeriod := (-1)%Z; st_mouseOrbit := [] |} in
  altPressed d0 = true /\ altPressed d1 = true /\ altPressed d0 = true /\
  mouse d0 = mouse d0 /\
  let pressed := fst (handleEvent zoomFactor width height
                        (MouseButtonPressed LeftButton) d0 s) in
  st_offset (dragStep d0 (dragStep d1 pressed)) = st_offset s.
Proof.
  intros d0 d1 s.
  assert (H0 : altPressed d0 = true) by reflexivity.
  assert (H1 : altPressed d1 = true) by reflexivity.
  split; [exact H0|split; [exact H1|split; [exact H0|split; [reflexivity|]]]].
  exact (drag_back_restores_offset zoomFactor width height d0 d1 d0 s
           H0 H1 H0 eq_refl).
Defined.

Lemma toneFrequency_small (n : nat) :
  n < 40 ->
  toneFrequency (Z.of_nat n) = f32 (220 + 10 * Z.of_nat n).
Proof.
  intros Hn.
  do 40 (destruct n as [|n]; [vm_compute; reflexivity|]).
  lia.
Qed.

Lemma toneFrequency_rem (p : Z) :
  toneFrequency (F := spec_float) p = toneFrequency (Z.rem p 40).
Proof. unfold toneFrequency; rewrite Z.rem_rem by lia; reflexivity. Qed.

(** X13.  The tone of a step count [p >= 0] in binary32 is exactly
    [220 + 10 * (p mod 40)] Hz, computed without rounding: one of forty
    pitches from 220 to 610 Hz.  Counts that differ by 40 sound alike; the
    count [maxOrbit] of an exhausted trace sounds like the count 0 of an
    escape at the first step. *)
Theorem tone_of_step_count (p : Z) :
  (0 <= p)%Z ->
  toneFrequency p = f32 (220 + 10 * (p mod 40)) /\
  (220 <= 220 + 10 * (p mod 40) <= 610)%Z /\
  toneFrequency (F := spec_float) (p + 40) = toneFrequency p /\
  toneFrequency (Z.of_nat maxOrbit) = toneFrequency (F := spec_float) 0.
Proof.
  intros Hp.
  assert (Hmod : forall q, (0 <= q)%Z ->
            toneFrequency q = f32 (220 + 10 * (q mod 40))).
  { intros q Hq; rewrite toneFrequency_rem, Z.rem_mod_nonneg by lia.
    pose proof (Z.mod_pos_bound q 40 ltac:(lia)) as Hb.
    rewrite <- (Z2Nat.id (q mod 40)) by lia.
    apply toneFrequency_small; lia. }
  split; [apply Hmod, Hp|].
  split; [pose proof (Z.mod_pos_bound p 40 ltac:(lia)); lia|].
  split; [|vm_compute; reflexivity].
  rewrite (Hmod (p + 40)%Z), (Hmod p) by lia.
  replace (p + 40)%Z with (p + 1 * 40)%Z by lia.
  rewrite Z.mod_add by lia; reflexivity.
Qed.

Lemma tone_of_step_count_witness :
  (0 <= 67)%Z /\
  toneFrequency 67 = f32 (220 + 10 * (67 mod 40)) /\
  (220 <= 220 + 10 * (67 mod 40) <= 610)%Z /\
  toneFrequency (F := spec_float) (67 + 40) = toneFrequency 67 /\
  toneFrequency (Z.of_nat maxOrbit) = toneFrequency (F := spec_float) 0.
Proof.
  assert (H : (0 <= 67)%Z) by lia.
  split; [exact H|exact (tone_of_step_count 67 H)].
Defined.

(** ** The event loop *)

Section FrameFacts.
Context {F : Type} {FA : FloatArith F} {FM : FloatMag F}.
Variable zoomFactor : F.
Variables width height : Z.
Variables maxIter maxOrbit : nat.

Local Abbreviation sameView s s' :=
  (st_zoom s' = st_zoom s /\ st_offset s' = st_offset s /\
   st_juliaC s' = st_juliaC s /\ st_formulaIndex s' = st_formulaIndex s /\
   st_fractalImage s' = st_fractalImage s).

Lemma onKeyPressed_index code (s : @App F) :
  st_formulaIndex s < 4 -> st_formulaIndex (fst (onKeyPressed code s)) < 4.
Proof. intros H; destruct code; cbn; lia. Qed.

Lemma handleEvent_index ev d (s : @App F) :
  st_formulaIndex s < 4 ->
  st_formulaIndex (fst (handleEvent zoomFactor width height ev d s)) < 4.
Proof.
  intros H; destruct ev as [| | [|] | [|] | | code |]; cbn [handleEvent];
    try exact H; try (apply onKeyPressed_index; exact H).
  destruct (altPressed d); exact H.
Qed.

Lemma pollEvents_index evs (s : @App F) :
  st_formulaIndex s < 4 ->
  st_formulaIndex (fst (pollEvents zoomFactor width height evs s)) < 4.
Proof.
  revert s; induction evs as [|[ev d] evs IH]; intros s H; cbn [pollEvents].
  - exact H.
  - pose proof (handleEvent_index ev d s H) as H1.
    destruct (handleEvent zoomFactor width height ev d s) as [s1 out1].
    pose proof (IH s1 H1) as H2.
    destruct (pollEvents zoomFactor width height evs s1) as [s2 out2].
    exact H2.
Qed.

(** An event that leaves [needsUpdate] clear has changed nothing the
    image depends on. *)
Lemma handleEvent_settled ev d (s : @App F) :
  let s' := fst (handleEvent zoomFactor width height ev d s) in
  st_needsUpdate s' = false ->
  st_needsUpdate s = false /\ st_juliaMode s' = st_juliaMode s /\
  sameView s s'.
Proof.
  destruct ev as [| | [|] | [|] | | code |]; cbn [handleEvent fst];
    try (intros H; repeat split; (exact H || reflexivity)).
  - discriminate.
  - destruct (altPressed d); intros H; repeat split;
      (exact H || reflexivity).
  - destruct code; cbn; intros H; repeat split;
      (exact H || reflexivity || discriminate).
Qed.

Lemma pollEvents_settled evs (s : @App F) :
  let s' := fst (pollEvents zoomFactor width height evs s) in
  st_needsUpdate s' = false ->
  st_needsUpdate s = false /\ st_juliaMode s' = st_juliaMode s /\
  sameView s s'.
Proof.
  revert s; induction evs as [|[ev d] evs IH]; intros s; cbn [pollEvents].
  - cbn [fst]; intros H; repeat split; (exact H || reflexivity).
  - pose proof (handleEvent_settled ev d s) as H1.
    destruct (handleEvent zoomFactor width height ev d s) as [s1 out1].
    pose proof (IH s1) as H2.
    destruct (pollEvents zoomFactor width height evs s1) as [s2 out2].
    cbn [fst] in *; intros H.
    destruct (H2 H) as (Hn1 & Hj2 & Hz2 & Ho2 & Hc2 & Hi2 & Hm2).
    destruct (H1 Hn1) as (Hn & Hj1 & Hz1 & Ho1 & Hc1 & Hi1 & Hm1).
    repeat split; congruence.
Qed.

Lemma dragStep_settled d (s : @App F) :
  st_needsUpdate (dragStep d s) = false -> dragStep d s = s.
Proof.
  unfold dragStep; destruct (st_dragging s && altPressed d);
    [discriminate|reflexivity].
Qed.

Lemma juliaStep_settled d (s : @App F) :
  let s' := juliaStep width height d s in
  st_needsUpdate s' = false ->
  st_needsUpdate s = false /\ jPressed d = false /\
  st_juliaMode s' = false /\ sameView s s'.
Proof.
  unfold juliaStep; cbn; destruct (jPressed d); [discriminate|].
  intros H; repeat split; (exact H || reflexivity).
Qed.

Lemma computeFractal_total (zoom : F) (offset : Vector2f F)
    (juliaMode : bool) (juliaC : complex F) (formulaIndex : nat) :
  formulaIndex < 4 ->
  exists image,
    computeFractal maxIter width height zoom offset juliaMode juliaC
      formulaIndex = Some image.
Proof.
  intros Hidx.
  destruct (fractalField_cells maxIter width height zoom offset juliaMode
              juliaC formulaIndex Hidx) as (field & Hfield & _).
  unfold computeFractal; rewrite Hfield; cbn [bind]; eauto.
Qed.

(** One frame, step by step: the states after the events, the drag, the
    Julia step, the orbit query and the update, and what is drawn. *)
Lemma frame_steps (i : FrameInput) (s : @App F) :
  st_formulaIndex s < 4 ->
  let s1 := fst (pollEvents zoomFactor width height (events i) s) in
  let out := snd (pollEvents zoomFactor width height (events i) s) in
  let s2 := dragStep (atDrag i) s1 in
  let s3 := juliaStep width height (atJulia i) s2 in
  exists s4 s5,
    orbitStep width height maxOrbit (atOrbit i) s3 = Some s4 /\
    updateStep width height maxIter s4 = Some s5 /\
    st_formulaIndex s3 < 4 /\
    frame zoomFactor width height maxIter maxOrbit i s
    = Some (fst (drawStep width height (mouse (atOrbit i)) (atTone i) s5),
            {| console :=
                 out ++ console (snd (drawStep width height
                                        (mouse (atOrbit i)) (atTone i) s5));
               juliaMarker :=
                 juliaMarker (snd (drawStep width height
                                     (mouse (atOrbit i)) (atTone i) s5));
               mouseMarker :=
                 mouseMarker (snd (drawStep width height
                                     (mouse (atOrbit i)) (atTone i) s5));
               orbitLine :=
                 orbitLine (snd (drawStep width height
                                   (mouse (atOrbit i)) (atTone i) s5));
               tone :=
                 tone (snd (drawStep width height
                              (mouse (atOrbit i)) (atTone i) s5)) |}).
Proof.
  intros Hidx s1 out s2 s3.
  assert (H3 : st_formulaIndex s3 < 4).
  { unfold s3, juliaStep; cbn [st_formulaIndex].
    unfold s2, dragStep; destruct (st_dragging s1 && altPressed (atDrag i));
      cbn [setView st_formulaIndex]; apply pollEvents_index, Hidx. }
  destruct (mouseQuery_outcome maxOrbit width height (mouse (atOrbit i))
              (st_zoom s3) (st_offset s3) (st_juliaMode s3) (st_juliaC s3)
              (st_formulaIndex s3) H3) as (p & orb & Hq & _).
  assert (H4 : exists s4,
             orbitStep width height maxOrbit (atOrbit i) s3 = Some s4 /\
             st_formulaIndex s4 = st_formulaIndex s3).
  { unfold orbitStep; rewrite Hq; cbn [bind]; eexists; split; reflexivity. }
  destruct H4 as (s4 & Hs4 & Hidx4).
  assert (H5 : exists s5, updateStep width height maxIter s4 = Some s5).
  { unfold updateStep; destruct (st_needsUpdate s4); [|eauto].
    destruct (computeFractal_total (st_zoom s4) (st_offset s4)
                (st_juliaMode s4) (st_juliaC s4) (st_formulaIndex s4))
      as [image Himg]; [lia|].
    rewrite Himg; cbn [bind]; eauto. }
  destruct H5 as (s5 & Hs5).
  exists s4, s5; split; [exact Hs4|split; [exact Hs5|split; [exact H3|]]].
  unfold frame.
  fold s1 out.
  destruct (pollEvents zoomFactor width height (events i) s) as [s1' out'].
  cbn [fst snd] in s1, out; subst s1 out; fold s2; fold s3.
  rewrite Hs4; cbn [bind]; rewrite Hs5; cbn [bind].
  destruct (drawStep width height (mouse (atOrbit i)) (atTone i) s5);
    reflexivity.
Qed.
End FrameFacts.

Section FrameInvariants.
Context {F : Type} {FA : FloatArith F} {FM : FloatMag F}.
Variable zoomFactor : F.
Variables width height : Z.
Variables maxIter maxOrbit : nat.

Local Abbreviation frame' := (frame zoomFactor width height maxIter maxOrbit).
Local Abbreviation shows m s := (imageShows width height maxIter m s).

(** What the loop keeps true of its state: the formula index is in the
    registry, no update is pending, and the image is the field of the
    current view, formula and [juliaC], in Julia mode whenever the
    program is. *)
Local Abbreviation settled s :=
  (st_formulaIndex s < 4 /\ st_needsUpdate s = false /\
   exists m, (st_juliaMode s = true -> m = true) /\ shows m s).

Lemma drawStep_state (m : Vector2i) (d : Devices) (s : @App F) :
  exists p, fst (drawStep width height m d s) = setLastPeriod p s.
Proof.
  unfold drawStep; destruct (insideWindow width height m); cbn [fst]; eauto.
Qed.

Lemma orbitStep_state (d : Devices) (s s' : @App F) :
  orbitStep width height maxOrbit d s = Some s' ->
  mouseQuery maxOrbit width height (ix (mouse d)) (iy (mouse d))
    (st_zoom s) (st_offset s) (st_juliaMode s) (st_juliaC s)
    (st_formulaIndex s) = Some (st_mousePeriod s', st_mouseOrbit s') /\
  st_zoom s' = st_zoom s /\ st_offset s' = st_offset s /\
  st_juliaC s' = st_juliaC s /\ st_formulaIndex s' = st_formulaIndex s /\
  st_fractalImage s' = st_fractalImage s /\
  st_juliaMode s' = st_juliaMode s /\
  st_needsUpdate s' = st_needsUpdate s /\
  st_lastPeriod s' = st_lastPeriod s.
Proof.
  unfold orbitStep.
  destruct (mouseQuery _ _ _ _ _ _ _ _ _ _) as [[p orb]|]; [|discriminate].
  cbn [bind]; intros H; inversion H; subst s'; cbn.
  repeat split; reflexivity.
Qed.

Lemma frame_settled (i : FrameInput) (s : @App F) :
  settled s ->
  exists s' r, frame' i s = Some (s', r) /\ settled s'.
Proof.
  intros (Hidx & Hnu & m & Hm & Hshow).
  destruct (frame_steps zoomFactor width height maxIter maxOrbit i s Hidx)
    as (s4 & s5 & Hs4 & Hs5 & Hidx3 & Hframe).
  rewrite Hframe; eexists; eexists; split; [reflexivity|].
  destruct (drawStep_state (mouse (atOrbit i)) (atTone i) s5) as [p ->].
  cbn [setLastPeriod st_formulaIndex st_needsUpdate st_juliaMode].
  apply orbitStep_state in Hs4.
  destruct Hs4 as (_ & Hz4 & Ho4 & Hc4 & Hi4 & Him4 & Hj4 & Hn4 & _).
  unfold updateStep in Hs5.
  destruct (st_needsUpdate s4) eqn:Hnu4.
  - destruct (computeFractal maxIter width height (st_zoom s4)
                (st_offset s4) (st_juliaMode s4) (st_juliaC s4)
                (st_formulaIndex s4)) as [image|] eqn:Himg; [|discriminate].
    cbn [bind] in Hs5; inversion Hs5; subst s5; clear Hs5.
    cbn [st_formulaIndex st_needsUpdate st_juliaMode].
    split; [lia|split; [reflexivity|]].
    exists (st_juliaMode s4); split; [auto|exact Himg].
  - inversion Hs5; subst s5; clear Hs5.
    split; [lia|split; [exact Hnu4|]].
    symmetry in Hn4.
    destruct (juliaStep_settled width height (atJulia i) _ Hn4)
      as (Hnu2 & _ & Hj3 & Hz3 & Ho3 & Hc3 & Hi3 & Him3).
    pose proof (dragStep_settled _ _ Hnu2) as Hd2.
    rewrite Hd2 in *.
    destruct (pollEvents_settled zoomFactor width height (events i) s Hnu2)
      as (_ & _ & Hz1 & Ho1 & Hc1 & Hi1 & Him1).
    exists m; split; [rewrite Hj4, Hj3; discriminate|].
    unfold imageShows in *; cbn [setLastPeriod st_zoom st_offset st_juliaC
      st_formulaIndex st_fractalImage].
    rewrite Hz4, Ho4, Hc4, Hi4, Him4, Hz3, Ho3, Hc3, Hi3, Him3,
      Hz1, Ho1, Hc1, Hi1, Him1.
    exact Hshow.
Qed.

Lemma mainLoop_settled (inputs : list FrameInput) (s0 : @App F) :
  settled s0 ->
  exists s rs,
    mainLoop zoomFactor width height maxIter maxOrbit inputs s0
    = Some (s, rs) /\
    settled s /\ length rs <= length inputs.
Proof.
  revert s0; induction inputs as [|i inputs IH]; intros s0 H0;
    cbn [mainLoop].
  - exists s0, []; split; [reflexivity|split; [exact H0|reflexivity]].
  - destruct (st_open s0).
    + destruct (frame_settled i s0 H0) as (s1 & r & Hf & H1).
      rewrite Hf; cbn [bind fst snd].
      destruct (IH s1 H1) as (s & rs & Hl & Hs & Hlen).
      rewrite Hl; cbn [bind fst snd].
      exists s, (r :: rs); split; [reflexivity|split; [exact Hs|]].
      cbn [length]; lia.
    + exists s0, []; split; [reflexivity|split; [exact H0|cbn [length]; lia]].
Qed.

Lemma initialApp_settled :
  exists s0, initialApp width height maxIter = Some s0 /\ settled s0.
Proof.
  unfold initialApp.
  destruct (computeFractal_total width height maxIter (of_int 250)
              (Vec2 (of_int 0) (of_int 0)) false
              (Complex (of_int 0) (of_int 0)) 0) as [image Himg]; [lia|].
  rewrite Himg; cbn [bind]; eexists; split; [reflexivity|].
  cbn [st_formulaIndex st_needsUpdate st_juliaMode].
  split; [lia|split; [reflexivity|]].
  exists false; split; [discriminate|exact Himg].
Qed.

(** X14.  The program never indexes [formulas] out of range: from the
    initial state, whatever the events, the mouse and the keys of each
    frame, every frame returns, the formula index stays below 4 and no
    recomputation is left pending. *)
Theorem mainLoop_never_fails (inputs : list FrameInput) :
  exists s0 s rs,
    initialApp width height maxIter = Some s0 /\
    mainLoop zoomFactor width height maxIter maxOrbit inputs s0
    = Some (s, rs) /\
    st_formulaIndex s < 4 /\ st_needsUpdate s = false /\
    length rs <= length inputs.
Proof.
  destruct initialApp_settled as (s0 & H0 & Hs0).
  destruct (mainLoop_settled inputs s0 Hs0)
    as (s & rs & Hl & (Hidx & Hnu & _) & Hlen).
  exists s0, s, rs; auto.
Qed.

(** X15.  After every frame the image is the one [computeFractal] gives
    for the current zoom, offset, formula and [juliaC].  While the program
    is in Julia mode it is the Julia image; in self-map mode it is the
    self-map image or, after [J] was released, still the Julia image. *)
Theorem image_follows_the_view (inputs : list FrameInput)
    (s0 s : @App F) (rs : list Rendered) :
  initialApp width height maxIter = Some s0 ->
  mainLoop zoomFactor width height maxIter maxOrbit inputs s0
  = Some (s, rs) ->
  exists m, (st_juliaMode s = true -> m = true) /\
    computeFractal maxIter width height (st_zoom s) (st_offset s) m
      (st_juliaC s) (st_formulaIndex s) = Some (st_fractalImage s).
Proof.
  intros H0 Hl.
  destruct initialApp_settled as (s0' & H0' & Hs0).
  rewrite H0 in H0'; inversion H0'; subst s0'.
  destruct (mainLoop_settled inputs s0 Hs0) as (s' & rs' & Hl' & Hs & _).
  rewrite Hl in Hl'; inversion Hl'; subst s' rs'.
  destruct Hs as (_ & _ & m & Hm & Hshow); exists m; split; assumption.
Qed.

(** X16.  Releasing [J] does not redraw.  In a frame without events and
    without a drag, entered in Julia mode with [J] no longer pressed, the
    program leaves Julia mode, traces the orbit under the mouse in
    self-map mode, draws no Julia marker, and keeps the Julia image. *)
Theorem releasing_J_keeps_the_julia_image (i : FrameInput) (s : @App F) :
  st_formulaIndex s < 4 -> st_needsUpdate s = false ->
  st_juliaMode s = true -> shows true s ->
  events i = [] -> jPressed (atJulia i) = false ->
  st_dragging s && altPressed (atDrag i) = false ->
  exists s' r,
    frame' i s = Some (s', r) /\
    st_juliaMode s' = false /\ juliaMarker r = None /\
    st_fractalImage s' = st_fractalImage s /\ shows true s' /\
    mouseQuery maxOrbit width height (ix (mouse (atOrbit i)))
      (iy (mouse (atOrbit i))) (st_zoom s) (st_offset s) false
      (st_juliaC s) (st_formulaIndex s)
    = Some (st_mousePeriod s', st_mouseOrbit s').
Proof.
  intros Hidx Hnu Hjm Hshow Hev Hj Hdrag.
  destruct (frame_steps zoomFactor width height maxIter maxOrbit i s Hidx)
    as (s4 & s5 & Hs4 & Hs5 & _ & Hframe).
  rewrite Hframe; eexists; eexists; split; [reflexivity|].
  rewrite Hev in Hs4; cbn [pollEvents fst] in Hs4.
  unfold dragStep in Hs4; rewrite Hdrag in Hs4.
  apply orbitStep_state in Hs4; unfold juliaStep in Hs4; rewrite Hj in Hs4.
  cbn [st_zoom st_offset st_juliaMode st_juliaC st_formulaIndex
       st_fractalImage st_needsUpdate st_lastPeriod] in Hs4.
  destruct Hs4 as (Hq & Hz4 & Ho4 & Hc4 & Hi4 & Him4 & Hj4 & Hn4 & _).
  unfold updateStep in Hs5; rewrite Hn4, Hnu in Hs5.
  inversion Hs5; subst s5; clear Hs5.
  unfold drawStep; rewrite Hj4.
  destruct (insideWindow width height (mouse (atOrbit i)));
    cbn [fst snd juliaMarker setLastPeriod st_juliaMode st_fractalImage
         st_mousePeriod st_mouseOrbit];
    (split; [exact Hj4|split; [reflexivity|split; [exact Him4|]]]);
    (split; [|exact Hq]);
    unfold imageShows in *;
    cbn [setLastPeriod st_zoom st_offset st_juliaC st_formulaIndex
         st_fractalImage];
    rewrite Hz4, Ho4, Hc4, Hi4, Him4; exact Hshow.
Qed.
End FrameInvariants.

Lemma image_follows_the_view_witness :
  let idle := {| mouse := Vec2i 0 0; altPressed := false;
                 jPressed := false; leftPressed := false |} in
  let holdJ := {| mouse := Vec2i 0 0; altPressed := false;
                  jPressed := true; leftPressed := false |} in
  let input := {| events := [(KeyPressed Num3, idle)]; atDrag := idle;
                  atJulia := holdJ; atOrbit := holdJ; atTone := holdJ |} in
  exists s0 s rs,
    initialApp (F := spec_float) 1 1 2 = Some s0 /\
    mainLoop zoomFactor 1 1 2 3 [input] s0 = Some (s, rs) /\
    exists m, (st_juliaMode s = true -> m = true) /\
      computeFractal 2 1 1 (st_zoom s) (st_offset s) m (st_juliaC s)
        (st_formulaIndex s) = Some (st_fractalImage s).
Proof.
  intros idle holdJ input.
  eexists; eexists; eexists.
  match goal with
  | |- ?A /\ ?B /\ _ =>
      assert (H0 : A) by (vm_compute; reflexivity);
      assert (Hl : B) by (vm_compute; reflexivity)
  end.
  split; [exact H0|split; [exact Hl|]].
  exact (image_follows_the_view zoomFactor 1 1 2 3 [input] _ _ _ H0 Hl).
Defined.

Lemma releasing_J_keeps_the_julia_image_witness :
  let idle := {| mouse := Vec2i 0 0; altPressed := false;
                 jPressed := false; leftPressed := false |} in
  let input := {| events := []; atDrag := idle; atJulia := idle;
                  atOrbit := idle; atTone := idle |} in
  let s := {| st_open := true; st_zoom := f32 250;
              st_offset := Vec2 (f32 0) (f32 0);
              st_fractalImage := [[255%Z]]; st_juliaMode := true;
              st_juliaC := c32 0 0; st_formulaIndex := 0;
              st_lastPeriod := (-1)%Z; st_needsUpdate := false;
              st_dragging := false; st_lastMousePos := Vec2i 0 0;
              st_dragStartOffset := Vec2 (f32 0) (f32 0);
              st_mousePeriod := (-1)%Z; st_mouseOrbit := [] |} in
  st_formulaIndex s < 4 /\ st_needsUpdate s = false /\
  st_juliaMode s = true /\ imageShows 1 1 2 true s /\
  events input = [] /\ jPressed (atJulia input) = false /\
  st_dragging s && altPressed (atDrag input) = false /\
  exists s' r,
    frame zoomFactor 1 1 2 3 input s = Some (s', r) /\
    st_juliaMode s' = false /\ juliaMarker r = None /\
    st_fractalImage s' = st_fractalImage s /\ imageShows 1 1 2 true s' /\
    mouseQuery 3 1 1 (ix (mouse (atOrbit input)))
      (iy (mouse (atOrbit input))) (st_zoom s) (st_offset s) false
      (st_juliaC s) (st_formulaIndex s)
    = Some (st_mousePeriod s', st_mouseOrbit s').
Proof.
  intros idle input s.
  assert (H1 : st_formulaIndex s < 4) by (cbn; lia).
  assert (H2 : st_needsUpdate s = false) by reflexivity.
  assert (H3 : st_juliaMode s = true) by reflexivity.
  assert (H4 : imageShows 1 1 2 true s) by (vm_compute; reflexivity).
  assert (H5 : events input = []) by reflexivity.
  assert (H6 : jPressed (atJulia input) = false) by reflexivity.
  assert (H7 : st_dragging s && altPressed (atDrag input) = false)
    by reflexivity.
  repeat (split; [assumption|]).
  exact (releasing_J_keeps_the_julia_image zoomFactor 1 1 2 3 input s
           H1 H2 H3 H4 H5 H6 H7).
Defined.

Section FrameOutputs.
Context {F : Type} {FA : FloatArith F} {FM : FloatMag F}.
Variable zoomFactor : F.
Variables width height : Z.
Variables maxIter maxOrbit : nat.

Local Abbreviation frame' := (frame zoomFactor width height maxIter maxOrbit).
Local Abbreviation polled i s :=
  (pollEvents zoomFactor width height (events i) s).

Lemma handleEvent_lastPeriod ev d (s : @App F) :
  st_lastPeriod (fst (handleEvent zoomFactor width height ev d s))
  = st_lastPeriod s.
Proof.
  destruct ev as [| | [|] | [|] | | code |]; cbn [handleEvent fst];
    try reflexivity.
  - destruct (altPressed d); reflexivity.
  - destruct code; reflexivity.
Qed.

Lemma pollEvents_lastPeriod evs (s : @App F) :
  st_lastPeriod (fst (pollEvents zoomFactor width height evs s))
  = st_lastPeriod s.
Proof.
  revert s; induction evs as [|[ev d] evs IH]; intros s; cbn [pollEvents].
  - reflexivity.
  - pose proof (handleEvent_lastPeriod ev d s) as H1.
    destruct (handleEvent zoomFactor width height ev d s) as [s1 out1].
    pose proof (IH s1) as H2.
    destruct (pollEvents zoomFactor width height evs s1) as [s2 out2].
    cbn [fst] in *; congruence.
Qed.

(** The state and the period with which a frame reaches its drawing. *)
Lemma frame_reaches_draw (i : FrameInput) (s : @App F) :
  st_formulaIndex s < 4 ->
  exists s5 s' r,
    frame' i s = Some (s', r) /\
    s' = fst (drawStep width height (mouse (atOrbit i)) (atTone i) s5) /\
    console r
    = snd (polled i s)
      ++ console (snd (drawStep width height (mouse (atOrbit i))
                         (atTone i) s5)) /\
    orbitLine r
    = orbitLine (snd (drawStep width height (mouse (atOrbit i))
                        (atTone i) s5)) /\
    tone r
    = tone (snd (drawStep width height (mouse (atOrbit i)) (atTone i) s5)) /\
    mouseMarker r
    = mouseMarker (snd (drawStep width height (mouse (atOrbit i))
                          (atTone i) s5)) /\
    st_lastPeriod s5 = st_lastPeriod s /\
    (insideWindow width height (mouse (atOrbit i)) = false ->
     st_mousePeriod s5 = (-1)%Z /\ st_mouseOrbit s5 = []) /\
    (insideWindow width height (mouse (atOrbit i)) = true ->
     (0 <= st_mousePeriod s5 <= Z.of_nat maxOrbit)%Z /\
     length (st_mouseOrbit s5)
     = Nat.min (S (Z.to_nat (st_mousePeriod s5))) maxOrbit).
Proof.
  intros Hidx.
  destruct (frame_steps zoomFactor width height maxIter maxOrbit i s Hidx)
    as (s4 & s5 & Hs4 & Hs5 & Hidx3 & Hframe).
  exists s5; eexists; eexists; split; [exact Hframe|].
  split; [reflexivity|].
  cbn [console orbitLine tone mouseMarker].
  do 4 (split; [reflexivity|]).
  pose proof (orbitStep_state width height maxOrbit _ _ _ Hs4)
    as (Hq & _ & _ & _ & _ & _ & _ & _ & Hl4).
  assert (H45 : st_lastPeriod s5 = st_lastPeriod s4 /\
                st_mousePeriod s5 = st_mousePeriod s4 /\
                st_mouseOrbit s5 = st_mouseOrbit s4).
  { unfold updateStep in Hs5; destruct (st_needsUpdate s4).
    - destruct (computeFractal _ _ _ _ _ _ _ _); [|discriminate].
      cbn [bind] in Hs5; inversion Hs5; subst s5; repeat split; reflexivity.
    - inversion Hs5; subst s5; repeat split; reflexivity. }
  destruct H45 as (Hl5 & Hp5 & Ho5).
  split.
  { rewrite Hl5, Hl4; unfold juliaStep; cbn [st_lastPeriod].
    unfold dragStep.
    destruct (st_dragging _ && altPressed (atDrag i));
      cbn [setView st_lastPeriod]; apply pollEvents_lastPeriod. }
  set (s3 := juliaStep width height (atJulia i)
               (dragStep (atDrag i) (fst (polled i s)))) in *.
  destruct (mouseQuery_outcome maxOrbit width height (mouse (atOrbit i))
              (st_zoom s3) (st_offset s3) (st_juliaMode s3) (st_juliaC s3)
              (st_formulaIndex s3) Hidx3) as (p & orb & Hq' & Hout & Hin & _).
  rewrite Hq in Hq'; inversion Hq'; subst p orb.
  rewrite Hp5, Ho5; split; assumption.
Qed.

(** X17.  The period line.  With the mouse outside the window a frame
    prints no period, plays and draws nothing at the mouse, and resets
    [lastPeriod] to [-1].  With the mouse inside, [lastPeriod] becomes the
    step count of this frame, and a period line is printed exactly when
    that count differs from the previous [lastPeriod]; so the first frame
    after the mouse comes back in always prints one. *)
Theorem period_line_is_printed_on_change (i : FrameInput) (s : @App F) :
  st_formulaIndex s < 4 ->
  exists s' r,
    frame' i s = Some (s', r) /\
    (insideWindow width height (mouse (atOrbit i)) = false ->
     st_lastPeriod s' = (-1)%Z /\ st_mousePeriod s' = (-1)%Z /\
     console r = snd (polled i s) /\
     tone r = None /\ orbitLine r = None /\ mouseMarker r = None) /\
    (insideWindow width height (mouse (atOrbit i)) = true ->
     (0 <= st_mousePeriod s')%Z /\
     st_lastPeriod s' = st_mousePeriod s' /\
     (st_mousePeriod s' = st_lastPeriod s ->
      console r = snd (polled i s)) /\
     (st_mousePeriod s' <> st_lastPeriod s ->
      exists line, console r = snd (polled i s) ++ [line]) /\
     (st_lastPeriod s = (-1)%Z ->
      exists line, console r = snd (polled i s) ++ [line])).
Proof.
  intros Hidx.
  destruct (frame_reaches_draw i s Hidx)
    as (s5 & s' & r & Hf & Hs' & Hc & Hline & Htone & Hmark & Hlast &
        Hout & Hin).
  exists s', r; split; [exact Hf|].
  rewrite Hc, Hline, Htone, Hmark, Hs'; unfold drawStep.
  destruct (insideWindow width height (mouse (atOrbit i))) eqn:E.
  - split; [discriminate|intros _].
    destruct (Hin eq_refl) as [Hp _].
    cbn [fst snd console setLastPeriod st_lastPeriod st_mousePeriod].
    rewrite Hlast.
    split; [lia|split; [reflexivity|]].
    destruct (Z.eqb_spec (st_mousePeriod s5) (st_lastPeriod s)) as [He|Hne].
    + split; [intros _; apply app_nil_r|].
      split; [intros Hn; contradiction|].
      intros Hm1; lia.
    + assert (Hex : exists line,
                (if st_juliaMode s5
                 then [JuliaOrbitPeriod (st_juliaC s5)
                         (st_formulaIndex s5 + 1) (st_mousePeriod s5)]
                 else [OrbitPeriod (F := F) (st_formulaIndex s5 + 1)
                         (st_mousePeriod s5)])
                = [line])
        by (destruct (st_juliaMode s5); eauto).
      destruct Hex as [line Hex]; rewrite Hex.
      split; [intros He; contradiction|].
      split; intros _; exists line; reflexivity.
  - split; [intros _|discriminate].
    destruct (Hout eq_refl) as [Hp _].
    cbn [fst snd console tone orbitLine mouseMarker setLastPeriod
         st_lastPeriod st_mousePeriod].
    repeat split; try reflexivity; [exact Hp|apply app_nil_r].
Qed.

(** X18.  The orbit path.  With the mouse inside the window and a loop
    of at least two steps, the path is drawn exactly when the trace went
    past its first step: a count of 0 draws nothing, a count [p > 0]
    draws one vertex per visited point, [p + 1] of them after a [break]
    and [maxOrbit] for an exhausted trace. *)
Theorem orbit_path_needs_two_points (i : FrameInput) (s : @App F) :
  st_formulaIndex s < 4 -> 2 <= maxOrbit ->
  insideWindow width height (mouse (atOrbit i)) = true ->
  exists s' r,
    frame' i s = Some (s', r) /\
    (st_mousePeriod s' = 0%Z -> orbitLine r = None) /\
    ((0 < st_mousePeriod s')%Z ->
     exists path,
       orbitLine r = Some path /\
       length path = length (st_mouseOrbit s') /\
       length path = Nat.min (S (Z.to_nat (st_mousePeriod s'))) maxOrbit).
Proof.
  intros Hidx Hmax Hinside.
  destruct (frame_reaches_draw i s Hidx)
    as (s5 & s' & r & Hf & Hs' & _ & Hline & _ & _ & _ & _ & Hin).
  exists s', r; split; [exact Hf|].
  destruct (Hin Hinside) as [Hp Hlen].
  rewrite Hline, Hs'; unfold drawStep; rewrite Hinside.
  cbn [fst snd orbitLine setLastPeriod st_mousePeriod st_mouseOrbit].
  split.
  - intros H0; rewrite H0 in Hlen; cbn [Z.to_nat] in Hlen.
    replace (Nat.min 1 maxOrbit) with 1 in Hlen by lia.
    rewrite Hlen; reflexivity.
  - intros Hpos.
    assert (H2 : 2 <= length (st_mouseOrbit s5)) by lia.
    destruct (1 <? length (st_mouseOrbit s5)) eqn:E;
      [|apply Nat.ltb_ge in E; lia].
    eexists; split; [reflexivity|].
    rewrite length_map; split; [reflexivity|exact Hlen].
Qed.

Lemma handleEvent_view ev d (s : @App F) :
  (forall delta, ev <> MouseWheelScrolled delta) ->
  let s' := fst (handleEvent zoomFactor width height ev d s) in
  st_zoom s' = st_zoom s /\ st_offset s' = st_offset s.
Proof.
  intros Hev; destruct ev as [|delta| [|] | [|] | | code |];
    cbn [handleEvent fst]; try (split; reflexivity).
  - exfalso; apply (Hev delta); reflexivity.
  - destruct (altPressed d); split; reflexivity.
  - destruct code; split; reflexivity.
Qed.

Lemma pollEvents_view evs (s : @App F) :
  (forall ev d delta, In (ev, d) evs -> ev <> MouseWheelScrolled delta) ->
  let s' := fst (pollEvents zoomFactor width height evs s) in
  st_zoom s' = st_zoom s /\ st_offset s' = st_offset s.
Proof.
  revert s; induction evs as [|[ev d] evs IH]; intros s Hevs;
    cbn [pollEvents].
  - split; reflexivity.
  - pose proof (handleEvent_view ev d s
                  (fun delta => Hevs ev d delta (or_introl eq_refl))) as H1.
    destruct (handleEvent zoomFactor width height ev d s) as [s1 out1].
    pose proof (IH s1 (fun ev' d' delta H =>
                         Hevs ev' d' delta (or_intror H))) as H2.
    destruct (pollEvents zoomFactor width height evs s1) as [s2 out2].
    cbn [fst] in *; destruct H1, H2; split; congruence.
Qed.

(** X19.  Only the wheel changes the zoom, and only the wheel and an
    Alt-drag change the offset: a frame without wheel events keeps
    [zoom], and it keeps [offset] too unless a drag is in progress after
    its events and Alt is held.  Keys, [J], focus and clicks never move
    the view. *)
Theorem only_wheel_and_drag_move_the_view (i : FrameInput) (s s' : @App F)
    (r : Rendered) :
  (forall ev d delta,
     In (ev, d) (events i) -> ev <> MouseWheelScrolled delta) ->
  frame' i s = Some (s', r) ->
  st_zoom s' = st_zoom s /\
  (st_dragging (fst (polled i s)) && altPressed (atDrag i) = false ->
   st_offset s' = st_offset s).
Proof.
  intros Hevs Hf.
  destruct (pollEvents_view (events i) s Hevs) as [Hz1 Ho1].
  unfold frame in Hf.
  destruct (pollEvents zoomFactor width height (events i) s) as [s1 out].
  cbn [fst] in *.
  destruct (orbitStep width height maxOrbit (atOrbit i)
              (juliaStep width height (atJulia i) (dragStep (atDrag i) s1)))
    as [s4|] eqn:Hs4; [|discriminate].
  cbn [bind] in Hf.
  destruct (updateStep width height maxIter s4) as [s5|] eqn:Hs5;
    [|discriminate].
  cbn [bind] in Hf.
  destruct (drawStep_state width height (mouse (atOrbit i)) (atTone i) s5)
    as [p Hd].
  destruct (drawStep width height (mouse (atOrbit i)) (atTone i) s5)
    as [s6 r6].
  cbn [fst] in Hd; inversion Hf; subst s' r; subst s6.
  cbn [setLastPeriod st_zoom st_offset].
  apply orbitStep_state in Hs4.
  destruct Hs4 as (_ & Hz4 & Ho4 & _).
  assert (H45 : st_zoom s5 = st_zoom s4 /\ st_offset s5 = st_offset s4).
  { unfold updateStep in Hs5; destruct (st_needsUpdate s4).
    - destruct (computeFractal _ _ _ _ _ _ _ _); [|discriminate].
      cbn [bind] in Hs5; inversion Hs5; subst s5; split; reflexivity.
    - inversion Hs5; subst s5; split; reflexivity. }
  destruct H45 as [Hz5 Ho5].
  rewrite Hz5, Ho5, Hz4, Ho4; unfold juliaStep; cbn [st_zoom st_offset].
  unfold dragStep.
  destruct (st_dragging s1 && altPressed (atDrag i));
    cbn [setView st_zoom st_offset]; split; try assumption.
  - discriminate.
  - intros _; exact Ho1.
Qed.
End FrameOutputs.

Lemma period_line_is_printed_on_change_witness :
  let here := {| mouse := Vec2i 0 0; altPressed := false;
                 jPressed := false; leftPressed := false |} in
  let input := {| events := []; atDrag := here; atJulia := here;
                  atOrbit := here; atTone := here |} in
  let s := {| st_open := true; st_zoom := f32 250;
              st_offset := Vec2 (f32 0) (f32 0);
              st_fractalImage := [[255%Z]]; st_juliaMode := false;
              st_juliaC := c32 0 0; st_formulaIndex := 0;
              st_lastPeriod := (-1)%Z; st_needsUpdate := false;
              st_dragging := false; st_lastMousePos := Vec2i 0 0;
              st_dragStartOffset := Vec2 (f32 0) (f32 0);
              st_mousePeriod := (-1)%Z; st_mouseOrbit := [] |} in
  st_formulaIndex s < 4 /\
  exists s' r,
    frame zoomFactor 1 1 2 3 input s = Some (s', r) /\
    (insideWindow 1 1 (mouse (atOrbit input)) = false ->
     st_lastPeriod s' = (-1)%Z /\ st_mousePeriod s' = (-1)%Z /\
     console r = snd (pollEvents zoomFactor 1 1 (events input) s) /\
     tone r = None /\ orbitLine r = None /\ mouseMarker r = None) /\
    (insideWindow 1 1 (mouse (atOrbit input)) = true ->
     (0 <= st_mousePeriod s')%Z /\
     st_lastPeriod s' = st_mousePeriod s' /\
     (st_mousePeriod s' = st_lastPeriod s ->
      console r = snd (pollEvents zoomFactor 1 1 (events input) s)) /\
     (st_mousePeriod s' <> st_lastPeriod s ->
      exists line,
        console r
        = snd (pollEvents zoomFactor 1 1 (events input) s) ++ [line]) /\
     (st_lastPeriod s = (-1)%Z ->
      exists line,
        console r
        = snd (pollEvents zoomFactor 1 1 (events input) s) ++ [line])).
Proof.
  intros here input s.
  assert (H : st_formulaIndex s < 4) by (cbn; lia).
  split; [exact H|].
  exact (period_line_is_printed_on_change zoomFactor 1 1 2 3 input s H).
Defined.

Lemma orbit_path_needs_two_points_witness :
  let here := {| mouse := Vec2i 0 0; altPressed := false;
                 jPressed := false; leftPressed := false |} in
  let input := {| events := []; atDrag := here; atJulia := here;
                  atOrbit := here; atTone := here |} in
  let s := {| st_open := true; st_zoom := f32 250;
              st_offset := Vec2 (f32 0) (f32 0);
              st_fractalImage := [[255%Z]]; st_juliaMode := false;
              st_juliaC := c32 0 0; st_formulaIndex := 0;
              st_lastPeriod := (-1)%Z; st_needsUpdate := false;
              st_dragging := false; st_lastMousePos := Vec2i 0 0;
              st_dragStartOffset := Vec2 (f32 0) (f32 0);
              st_mousePeriod := (-1)%Z; st_mouseOrbit := [] |} in
  st_formulaIndex s < 4 /\ 2 <= 3 /\
  insideWindow 1 1 (mouse (atOrbit input)) = true /\
  exists s' r,
    frame zoomFactor 1 1 2 3 input s = Some (s', r) /\
    (st_mousePeriod s' = 0%Z -> orbitLine r = None) /\
    ((0 < st_mousePeriod s')%Z ->
     exists path,
       orbitLine r = Some path /\
       length path = length (st_mouseOrbit s') /\
       length path = Nat.min (S (Z.to_nat (st_mousePeriod s'))) 3).
Proof.
  intros here input s.
  assert (H1 : st_formulaIndex s < 4) by (cbn; lia).
  assert (H2 : 2 <= 3) by lia.
  assert (H3 : insideWindow 1 1 (mouse (atOrbit input)) = true)
    by reflexivity.
  split; [exact H1|split; [exact H2|split; [exact H3|]]].
  exact (orbit_path_needs_two_points zoomFactor 1 1 2 3 input s H1 H2 H3).
Defined.

Lemma only_wheel_and_drag_move_the_view_witness :
  let here := {| mouse := Vec2i 0 0; altPressed := true;
                 jPressed := true; leftPressed := true |} in
  let input := {| events := [(KeyPressed Num2, here); (LostFocus, here)];
                  atDrag := here; atJulia := here;
                  atOrbit := here; atTone := here |} in
  let s := {| st_open := true; st_zoom := f32 250;
              st_offset := Vec2 (f32 3) (f32 4);
              st_fractalImage := [[255%Z]]; st_juliaMode := false;
              st_juliaC := c32 0 0; st_formulaIndex := 0;
              st_lastPeriod := (-1)%Z; st_needsUpdate := false;
              st_dragging := true; st_lastMousePos := Vec2i 7 7;
              st_dragStartOffset := Vec2 (f32 0) (f32 0);
              st_mousePeriod := (-1)%Z; st_mouseOrbit := [] |} in
  exists s' r,
    (forall ev d delta,
       In (ev, d) (events input) -> ev <> MouseWheelScrolled delta) /\
    frame zoomFactor 1 1 2 3 input s = Some (s', r) /\
    st_zoom s' = st_zoom s /\
    (st_dragging (fst (pollEvents zoomFactor 1 1 (events input) s))
     && altPressed (atDrag input) = false ->
     st_offset s' = st_offset s).
Proof.
  intros here input s.
  eexists; eexists.
  assert (H1 : forall ev d (delta : spec_float),
             In (ev, d) (events input) -> ev <> MouseWheelScrolled delta).
  { intros ev d delta [H|[H|[]]]; inversion H; discriminate. }
  match goal with
  | |- _ /\ ?B /\ _ => assert (H2 : B) by (vm_compute; reflexivity)
  end.
  split; [exact H1|split; [exact H2|]].
  exact (only_wheel_and_drag_move_the_view zoomFactor 1 1 2 3 input s _ _
           H1 H2).
Defined.

Lemma pixel_and_orbit_agree_witness :
  0 < 4 /\
  let c := screenToComplex 650 300 (f32 250) (Vec2 (f32 0) (f32 0))
             width height in
  let cc := if false then c32 0 0 else c in
  exists n t,
    pixelIter maxIter width height (f32 250) (Vec2 (f32 0) (f32 0)) false
      (c32 0 0) 0 650 300 = Some n /\
    traceOrbit c cc 0 maxOrbit = Some t /\
    (n < maxIter -> n < maxOrbit -> mousePeriod t <= n) /\
    (classify t = Escaped -> mousePeriod t < maxIter -> n = mousePeriod t) /\
    (n = maxIter -> classify t = Escaped -> maxIter <= mousePeriod t).
Proof.
  assert (H : 0 < 4) by lia.
  split; [exact H|].
  exact (pixel_and_orbit_agree maxIter maxOrbit width height (f32 250)
           (Vec2 (f32 0) (f32 0)) false (c32 0 0) 0 650 300 H).
Defined.

Lemma mouseQuery_gate_witness :
  0 < 4 /\
  exists p orb,
    mouseQuery maxOrbit width height (ix (Vec2i 800 300)) (iy (Vec2i 800 300))
      (f32 250) (Vec2 (f32 0) (f32 0)) false (c32 0 0) 0 = Some (p, orb) /\
    (insideWindow width height (Vec2i 800 300) = false ->
     p = (-1)%Z /\ orb = []) /\
    (insideWindow width height (Vec2i 800 300) = true ->
     (0 <= p <= Z.of_nat maxOrbit)%Z /\
     length orb = Nat.min (S (Z.to_nat p)) maxOrbit) /\
    (p = (-1)%Z <-> insideWindow width height (Vec2i 800 300) = false) /\
    (orb = [] <->
     insideWindow width height (Vec2i 800 300) = false \/ maxOrbit = 0).
Proof.
  assert (H : 0 < 4) by lia.
  split; [exact H|].
  exact (mouseQuery_gate maxOrbit width height (Vec2i 800 300) (f32 250)
           (Vec2 (f32 0) (f32 0)) false (c32 0 0) 0 H).
Defined.

Lemma count_zero_is_an_escape_witness :
  let t := Broke (orbit_break formula1 (c32 2 0) (c32 2 0) 0) in
  traceOrbit (c32 2 0) (c32 2 0) 0 maxOrbit = Some t /\
  (forall k, classify t = PeriodFound k -> 1 <= k) /\
  (0 < maxOrbit -> mousePeriod t = 0 ->
   classify t = Escaped /\
   exists f, nth_error formulas 0 = Some f /\
             escaped (f (c32 2 0) (c32 2 0)) = true /\
             mouseOrbit t = [f (c32 2 0) (c32 2 0)]).
Proof.
  intros t.
  assert (H : traceOrbit (c32 2 0) (c32 2 0) 0 maxOrbit = Some t)
    by (vm_compute; reflexivity).
  split; [exact H|].
  exact (count_zero_is_an_escape (c32 2 0) (c32 2 0) 0 maxOrbit t H).
Defined.

(** ** The zoom in binary32 *)

Module Binary32Zoom.

(** [+inf], or a positive finite value whose exponent is at least the
    one of the subnormal numbers. *)
Local Abbreviation positive32 x :=
  (x = S754_infinity false \/
   exists m e, x = S754_finite false m e /\ (-149 <= e)%Z).

Lemma positive32_ltb (x : spec_float) :
  positive32 x -> Binary32.ltb (f32 0) x = true.
Proof. intros [->|(m & e & -> & _)]; reflexivity. Qed.

Lemma digits2_pos_lower (p : positive) :
  (2 ^ (Zpos (digits2_pos p) - 1) <= Zpos p)%Z.
Proof.
  induction p as [p IH|p IH|]; cbn [digits2_pos].
  - rewrite Pos2Z.inj_succ.
    replace (Z.succ (Zpos (digits2_pos p)) - 1)%Z
      with (1 + (Zpos (digits2_pos p) - 1))%Z by lia.
    rewrite Z.pow_add_r by lia; change (2 ^ 1)%Z with 2%Z; lia.
  - rewrite Pos2Z.inj_succ.
    replace (Z.succ (Zpos (digits2_pos p)) - 1)%Z
      with (1 + (Zpos (digits2_pos p) - 1))%Z by lia.
    rewrite Z.pow_add_r by lia; change (2 ^ 1)%Z with 2%Z; lia.
  - cbn; lia.
Qed.

Lemma Zdigits2_lower (m : Z) : (1 <= m)%Z -> (2 ^ (Zdigits2 m - 1) <= m)%Z.
Proof.
  destruct m as [|p|p]; try lia; intros _; apply digits2_pos_lower.
Qed.

(** One shift to the right halves the mantissa. *)
Lemma shr_1_m (mrs : shr_record) :
  (0 <= shr_m mrs)%Z -> shr_m (shr_1 mrs) = (shr_m mrs / 2)%Z.
Proof.
  destruct mrs as [[|[p|p|]|p] r s]; cbn [shr_1 shr_m]; intros H;
    try lia; rewrite <- Z.div2_div; reflexivity.
Qed.

Lemma iter_shr_1_m (p : positive) (mrs : shr_record) :
  (0 <= shr_m mrs)%Z ->
  shr_m (SpecFloat.iter_pos shr_1 p mrs) = (shr_m mrs / 2 ^ Zpos p)%Z.
Proof.
  revert mrs; induction p as [p IH|p IH|]; intros mrs H;
    cbn [SpecFloat.iter_pos].
  - rewrite IH by (apply Binary32Facts.iter_shr_1_nonneg,
                     Binary32Facts.shr_1_nonneg, H).
    rewrite IH by (apply Binary32Facts.shr_1_nonneg, H).
    rewrite shr_1_m by exact H.
    assert (Hp : (0 < 2 ^ Zpos p)%Z) by (apply Z.pow_pos_nonneg; lia).
    rewrite !Z.div_div by lia.
    f_equal.
    replace (Zpos p~1) with (1 + Zpos p + Zpos p)%Z by lia.
    rewrite !Z.pow_add_r by lia; change (2 ^ 1)%Z with 2%Z; ring.
  - rewrite IH by (apply Binary32Facts.iter_shr_1_nonneg, H).
    rewrite IH by exact H.
    assert (Hp : (0 < 2 ^ Zpos p)%Z) by (apply Z.pow_pos_nonneg; lia).
    rewrite !Z.div_div by lia.
    f_equal.
    replace (Zpos p~0) with (Zpos p + Zpos p)%Z by lia.
    rewrite !Z.pow_add_r by lia; ring.
  - rewrite shr_1_m by exact H; reflexivity.
Qed.

(** A mantissa that stands for at least [2^-149] is not shifted away. *)
Lemma shr_fexp_pos (m e : Z) (l : location) :
  (1 <= m)%Z -> (e < -149 -> 2 ^ (-149 - e) <= m)%Z ->
  (1 <= shr_m (fst (shr_fexp Binary32.prec Binary32.emax m e l)))%Z /\
  (-149 <= snd (shr_fexp Binary32.prec Binary32.emax m e l))%Z.
Proof.
  intros Hm He; unfold shr_fexp, shr.
  assert (Hrec : shr_m (shr_record_of_loc m l) = m)
    by (destruct l as [|[]]; reflexivity).
  pose proof (Zdigits2_lower m Hm) as Hd.
  assert (Hf : fexp Binary32.prec Binary32.emax (Zdigits2 m + e)
               = Z.max (Zdigits2 m + e - 24) (-149)) by reflexivity.
  destruct (fexp Binary32.prec Binary32.emax (Zdigits2 m + e) - e)%Z
    as [|p|p] eqn:Hn; cbn [fst snd].
  - rewrite Hrec; lia.
  - rewrite iter_shr_1_m by (rewrite Hrec; lia).
    rewrite Hrec; split; [|lia].
    apply Z.div_le_lower_bound; [apply Z.pow_pos_nonneg; lia|].
    rewrite Z.mul_1_r.
    destruct (Z.max_spec (Zdigits2 m + e - 24) (-149)) as [[_ Hx]|[_ Hx]].
    + replace (Zpos p) with (-149 - e)%Z by lia; apply He; lia.
    + apply Z.le_trans with (2 ^ (Zdigits2 m - 1))%Z; [|exact Hd].
      apply Z.pow_le_mono_r; lia.
  - rewrite Hrec; lia.
Qed.

Lemma round_nearest_even_ge (m : Z) (l : location) :
  (m <= round_nearest_even m l)%Z.
Proof.
  destruct l as [|[]]; cbn [round_nearest_even]; try lia.
  destruct (Z.even m); lia.
Qed.

(** Rounding a positive value of at least [2^-149] gives a positive
    number. *)
Lemma binary_round_aux_pos (m e : Z) (l : location) :
  (1 <= m)%Z -> (e < -149 -> 2 ^ (-149 - e) <= m)%Z ->
  positive32 (binary_round_aux Binary32.prec Binary32.emax false m e l).
Proof.
  intros Hm He; unfold binary_round_aux.
  destruct (shr_fexp_pos m e l Hm He) as [H1 H2].
  destruct (shr_fexp Binary32.prec Binary32.emax m e l) as [mrs' e'].
  cbn [fst snd] in H1, H2.
  pose proof (round_nearest_even_ge (shr_m mrs') (loc_of_shr_record mrs'))
    as Hr.
  destruct (shr_fexp_pos
              (round_nearest_even (shr_m mrs') (loc_of_shr_record mrs'))
              e' loc_Exact) as [H3 H4]; [lia|lia|].
  destruct (shr_fexp Binary32.prec Binary32.emax
              (round_nearest_even (shr_m mrs') (loc_of_shr_record mrs'))
              e' loc_Exact) as [mrs'' e''].
  cbn [fst snd] in H3, H4.
  destruct (shr_m mrs'') as [|q|q]; try lia.
  destruct (e'' <=? Binary32.emax - Binary32.prec)%Z; [right|left]; eauto.
Qed.

(** A value above half of [2^-149] is rounded up to [2^-149]. *)
Lemma binary_round_aux_above_half (e : Z) :
  (-149 <= e)%Z ->
  positive32 (binary_round_aux Binary32.prec Binary32.emax false 0 e
                (loc_Inexact Gt)).
Proof.
  intros He; unfold binary_round_aux.
  assert (H0 : shr_fexp Binary32.prec Binary32.emax 0 e (loc_Inexact Gt)
               = ({| shr_m := 0; shr_r := true; shr_s := true |}, e)).
  { unfold shr_fexp, shr.
    assert (Hf : fexp Binary32.prec Binary32.emax (Zdigits2 0 + e)
                 = Z.max (e - 24) (-149)) by reflexivity.
    destruct (fexp Binary32.prec Binary32.emax (Zdigits2 0 + e) - e)%Z
      eqn:Hn; try reflexivity; lia. }
  rewrite H0; cbn [shr_m loc_of_shr_record round_nearest_even Z.add].
  destruct (shr_fexp_pos 1 e loc_Exact) as [H3 H4]; [lia|lia|].
  destruct (shr_fexp Binary32.prec Binary32.emax 1 e loc_Exact)
    as [mrs'' e''].
  cbn [fst snd] in H3, H4.
  destruct (shr_m mrs'') as [|q|q]; try lia.
  destruct (e'' <=? Binary32.emax - Binary32.prec)%Z; [right|left]; eauto.
Qed.

(** [zoom *= zoomFactor] keeps a positive zoom positive. *)
Lemma mul_zoomFactor_pos (x : spec_float) :
  positive32 x -> positive32 (Binary32.mul x zoomFactor).
Proof.
  intros [->|(m & e & -> & He)]; [left; reflexivity|].
  change (zoomFactor (F := spec_float))
    with (S754_finite false 10066330 (-23)).
  unfold Binary32.mul; cbn [SFmul xorb].
  apply binary_round_aux_pos; [lia|].
  intros _.
  apply Z.le_trans with (2 ^ 23)%Z; [apply Z.pow_le_mono_r; lia|].
  change (2 ^ 23)%Z with 8388608%Z; lia.
Qed.

(** The quotient [zoom / zoomFactor] before rounding: at least 1 unit, or
    more than half a unit, of an exponent in range. *)
Lemma div_core_zoomFactor (m : positive) (e : Z) :
  (-149 <= e)%Z ->
  let '(q, e', l) :=
    SFdiv_core_binary Binary32.prec Binary32.emax (Zpos m) e 10066330 (-23)
  in
  (-149 <= e')%Z /\ ((1 <= q)%Z \/ q = 0%Z /\ l = loc_Inexact Gt).
Proof.
  intros He; unfold SFdiv_core_binary; cbv zeta.
  change (Zdigits2 10066330) with 24%Z.
  pose proof (Zdigits2_lower (Zpos m) ltac:(lia)) as Hd.
  assert (Hd1 : (1 <= Zdigits2 (Zpos m))%Z) by (cbn [Zdigits2]; lia).
  assert (Hf : fexp Binary32.prec Binary32.emax
                 (Zdigits2 (Zpos m) + e - (24 + -23))
               = Z.max (Zdigits2 (Zpos m) + e - (24 + -23) - 24) (-149))
    by reflexivity.
  rewrite Hf; clear Hf.
  set (d1 := Zdigits2 (Zpos m)) in *.
  set (e' := Z.min (Z.max (d1 + e - (24 + -23) - 24) (-149)) (e - -23)).
  assert (He' : (-149 <= e' /\ e' <= e + 23 /\ e' <= d1 + e - 1)%Z)
    by (unfold e'; lia).
  set (m' := match (e - -23 - e')%Z with
             | 0%Z => Zpos m
             | Zpos _ => Z.shiftl (Zpos m) (e - -23 - e')
             | Zneg _ => 0%Z
             end).
  assert (Hm' : (8388608 <= m')%Z).
  { change 8388608%Z with (2 ^ 23)%Z; unfold m'.
    destruct (e - -23 - e')%Z as [|s|s] eqn:Hs; [| |lia].
    - apply Z.le_trans with (2 ^ (d1 - 1))%Z; [|exact Hd].
      apply Z.pow_le_mono_r; lia.
    - rewrite Z.shiftl_mul_pow2 by lia.
      apply Z.le_trans with (2 ^ (d1 - 1) * 2 ^ Zpos s)%Z.
      + rewrite <- Z.pow_add_r by lia; apply Z.pow_le_mono_r; lia.
      + apply Z.mul_le_mono_nonneg_r; [apply Z.pow_nonneg; lia|exact Hd]. }
  clearbody m'.
  pose proof (Z_div_mod m' 10066330 ltac:(lia)) as Hdiv.
  destruct (Z.div_eucl m' 10066330) as [q r].
  destruct Hdiv as [Hq Hr].
  split; [lia|].
  destruct (Z_le_gt_dec 1 q) as [H1|H1]; [left; exact H1|right].
  assert (q = 0%Z) by lia; subst q.
  split; [reflexivity|].
  unfold new_location; change (Z.even 10066330) with true; cbv iota.
  unfold new_location_even.
  destruct (Z.eqb_spec r 0); [lia|].
  replace (2 * r ?= 10066330)%Z with Gt; [reflexivity|].
  symmetry; apply Z.compare_gt_iff; lia.
Qed.

(** [zoom /= zoomFactor] keeps a positive zoom positive: the smallest
    positive number divided by 1.2 rounds back to itself. *)
Lemma div_zoomFactor_pos (x : spec_float) :
  positive32 x -> positive32 (Binary32.div x zoomFactor).
Proof.
  intros [->|(m & e & -> & He)]; [left; reflexivity|].
  change (zoomFactor (F := spec_float))
    with (S754_finite false 10066330 (-23)).
  unfold Binary32.div; cbn [SFdiv xorb].
  pose proof (div_core_zoomFactor m e He) as Hc.
  change (SFdiv_core_binary 24 128 (Zpos m) e 10066330 (-23))
    with (SFdiv_core_binary Binary32.prec Binary32.emax (Zpos m) e
            10066330 (-23)).
  destruct (SFdiv_core_binary Binary32.prec Binary32.emax (Zpos m) e
              10066330 (-23)) as [[q e'] l].
  destruct Hc as [He' [Hq|[-> ->]]].
  - apply binary_round_aux_pos; [exact Hq|lia].
  - apply binary_round_aux_above_half, He'.
Qed.

(** The wheel handler keeps a positive zoom positive. *)
Lemma wheel_zoom_pos (W H mouse_x mouse_y : Z)
    (delta zoom : spec_float) (offset : Vector2f spec_float) :
  positive32 zoom ->
  positive32 (fst (onMouseWheelScrolled zoomFactor W H mouse_x mouse_y
                     delta zoom offset)).
Proof.
  intros Hz; unfold onMouseWheelScrolled; cbn [fst].
  destruct (flt (of_int 0) delta); [apply mul_zoomFactor_pos, Hz|].
  destruct (flt delta (of_int 0)); [apply div_zoomFactor_pos, Hz|exact Hz].
Qed.

End Binary32Zoom.

Section ZoomInvariant.
Variables width height : Z.
Variables maxIter maxOrbit : nat.

Local Abbreviation positive32 x :=
  (x = S754_infinity false \/
   exists m e, x = S754_finite false m e /\ (-149 <= e)%Z).

Lemma handleEvent_zoom_pos ev d (s : @App spec_float) :
  positive32 (st_zoom s) ->
  positive32 (st_zoom (fst (handleEvent zoomFactor width height ev d s))).
Proof.
  intros H; destruct ev as [|delta| [|] | [|] | | code |];
    cbn [handleEvent fst setOpen setView setDrag st_zoom]; try exact H.
  - apply Binary32Zoom.wheel_zoom_pos, H.
  - destruct (altPressed d); exact H.
  - destruct code; exact H.
Qed.

Lemma pollEvents_zoom_pos evs (s : @App spec_float) :
  positive32 (st_zoom s) ->
  positive32 (st_zoom (fst (pollEvents zoomFactor width height evs s))).
Proof.
  revert s; induction evs as [|[ev d] evs IH]; intros s H; cbn [pollEvents].
  - exact H.
  - pose proof (handleEvent_zoom_pos ev d s H) as H1.
    destruct (handleEvent zoomFactor width height ev d s) as [s1 out1].
    pose proof (IH s1 H1) as H2.
    destruct (pollEvents zoomFactor width height evs s1) as [s2 out2].
    exact H2.
Qed.

Lemma frame_zoom (factor : spec_float) (i : FrameInput)
    (s s' : @App spec_float) (r : Rendered) :
  frame factor width height maxIter maxOrbit i s = Some (s', r) ->
  st_zoom s'
  = st_zoom (fst (pollEvents factor width height (events i) s)).
Proof.
  intros Hf; unfold frame in Hf.
  destruct (pollEvents factor width height (events i) s) as [s1 out].
  cbn [fst].
  destruct (orbitStep width height maxOrbit (atOrbit i)
              (juliaStep width height (atJulia i) (dragStep (atDrag i) s1)))
    as [s4|] eqn:Hs4; [|discriminate].
  cbn [bind] in Hf.
  destruct (updateStep width height maxIter s4) as [s5|] eqn:Hs5;
    [|discriminate].
  cbn [bind] in Hf.
  destruct (drawStep_state width height (mouse (atOrbit i)) (atTone i) s5)
    as [p Hd].
  destruct (drawStep width height (mouse (atOrbit i)) (atTone i) s5)
    as [s6 r6].
  cbn [fst] in Hd; inversion Hf; subst s' r; subst s6.
  cbn [setLastPeriod st_zoom].
  apply orbitStep_state in Hs4; destruct Hs4 as (_ & Hz4 & _).
  assert (Hz5 : st_zoom s5 = st_zoom s4).
  { unfold updateStep in Hs5; destruct (st_needsUpdate s4).
    - destruct (computeFractal _ _ _ _ _ _ _ _); [|discriminate].
      cbn [bind] in Hs5; inversion Hs5; subst s5; reflexivity.
    - inversion Hs5; subst s5; reflexivity. }
  rewrite Hz5, Hz4; unfold juliaStep; cbn [st_zoom].
  unfold dragStep; destruct (st_dragging s1 && altPressed (atDrag i));
    reflexivity.
Qed.

Lemma mainLoop_zoom_pos (inputs : list FrameInput)
    (s0 s : @App spec_float) (rs : list Rendered) :
  positive32 (st_zoom s0) ->
  mainLoop zoomFactor width height maxIter maxOrbit inputs s0
  = Some (s, rs) ->
  positive32 (st_zoom s).
Proof.
  revert s0 rs; induction inputs as [|i inputs IH]; intros s0 rs H0 Hl;
    cbn [mainLoop] in Hl.
  - inversion Hl; subst; exact H0.
  - destruct (st_open s0); [|inversion Hl; subst; exact H0].
    destruct (frame zoomFactor width height maxIter maxOrbit i s0)
      as [[s1 r]|] eqn:Hf; [|discriminate].
    cbn [bind fst snd] in Hl.
    destruct (mainLoop zoomFactor width height maxIter maxOrbit inputs s1)
      as [[s2 rs2]|] eqn:Hl2; [|discriminate].
    cbn [bind fst snd] in Hl; inversion Hl; subst s rs.
    apply (IH s1 rs2); [|exact Hl2].
    rewrite (frame_zoom zoomFactor i s0 s1 r Hf).
    apply pollEvents_zoom_pos, H0.
Qed.
End ZoomInvariant.

(** X20.  In binary32, whatever the events, the mouse and the keys, the
    zoom of the running program stays greater than zero: it is [+inf] or a
    positive finite number, never zero, negative or a NaN, even when the
    offset has become a NaN.  Zooming out cannot reach zero, since the
    quotient by 1.2 of the smallest positive [float] rounds back to it; so
    [screenToComplex] never divides by zero. *)
Theorem zoom_stays_positive (W H : Z) (maxIter maxOrbit : nat)
    (inputs : list FrameInput) (s0 s : @App spec_float)
    (rs : list Rendered) :
  initialApp W H maxIter = Some s0 ->
  mainLoop zoomFactor W H maxIter maxOrbit inputs s0 = Some (s, rs) ->
  flt (of_int 0) (st_zoom s) = true /\
  Binary32.leb min_subnormal (st_zoom s) = true.
Proof.
  intros H0 Hl.
  assert (Hz0 : st_zoom s0 = S754_infinity false \/
                exists m e, st_zoom s0 = S754_finite false m e /\
                            (-149 <= e)%Z).
  { unfold initialApp in H0.
    destruct (computeFractal _ _ _ _ _ _ _ _); [|discriminate].
    cbn [bind] in H0; inversion H0; subst s0; cbn [st_zoom].
    right; exists 16384000%positive, (-16)%Z; split; [reflexivity|lia]. }
  pose proof (mainLoop_zoom_pos W H maxIter maxOrbit inputs s0 s rs Hz0 Hl)
    as [->|(m & e & -> & He)]; [split; reflexivity|].
  split; [reflexivity|].
  unfold Binary32.leb, SFleb, min_subnormal; cbn [SFcompare].
  destruct (Z.compare_spec (-149) e) as [<-|_|Hlt]; [|reflexivity|lia].
  destruct m; reflexivity.
Qed.

Lemma zoom_stays_positive_witness :
  let here := {| mouse := Vec2i 0 0; altPressed := false;
                 jPressed := false; leftPressed := false |} in
  let input := {| events := [(MouseWheelScrolled (fneg (f32 1)), here)];
                  atDrag := here; atJulia := here;
                  atOrbit := here; atTone := here |} in
  exists s0 s rs,
    initialApp (F := spec_float) 1 1 2 = Some s0 /\
    mainLoop zoomFactor 1 1 2 3 [input; input] s0 = Some (s, rs) /\
    flt (of_int 0) (st_zoom s) = true /\
    Binary32.leb min_subnormal (st_zoom s) = true.
Proof.
  intros here input.
  eexists; eexists; eexists.
  match goal with
  | |- ?A /\ ?B /\ _ =>
      assert (H0 : A) by (vm_compute; reflexivity);
      assert (Hl : B) by (vm_compute; reflexivity)
  end.
  split; [exact H0|split; [exact Hl|]].
  exact (zoom_stays_positive 1 1 2 3 [input; input] _ _ _ H0 Hl).
Defined.

(** ** Julia mode and closing *)

Section FrameModes.
Context {F : Type} {FA : FloatArith F} {FM : FloatMag F}.
Variable zoomFactor : F.
Variables width height : Z.
Variables maxIter maxOrbit : nat.

Local Abbreviation frame' := (frame zoomFactor width height maxIter maxOrbit).
Local Abbreviation polled i s :=
  (pollEvents zoomFactor width height (events i) s).
Local Abbreviation shows m s := (imageShows width height maxIter m s).

Lemma handleEvent_juliaC ev d (s : @App F) :
  st_juliaC (fst (handleEvent zoomFactor width height ev d s)) = st_juliaC s.
Proof.
  destruct ev as [| | [|] | [|] | | code |]; cbn [handleEvent fst];
    try reflexivity.
  - destruct (altPressed d); reflexivity.
  - destruct code; reflexivity.
Qed.

Lemma pollEvents_juliaC evs (s : @App F) :
  st_juliaC (fst (pollEvents zoomFactor width height evs s)) = st_juliaC s.
Proof.
  revert s; induction evs as [|[ev d] evs IH]; intros s; cbn [pollEvents].
  - reflexivity.
  - pose proof (handleEvent_juliaC ev d s) as H1.
    destruct (handleEvent zoomFactor width height ev d s) as [s1 out1].
    pose proof (IH s1) as H2.
    destruct (pollEvents zoomFactor width height evs s1) as [s2 out2].
    cbn [fst] in *; congruence.
Qed.

(** X21.  Julia mode follows the [J] key frame by frame.  In a frame in
    which [J] is pressed the program is in Julia mode, [juliaC] is the
    point under the mouse in the view of this frame, the image is
    recomputed as the Julia image of that point, and the marker is drawn
    where the view puts [juliaC].  In a frame in which [J] is not pressed
    the program is in self-map mode, [juliaC] keeps its value and no
    marker is drawn. *)
Theorem julia_point_follows_the_mouse (i : FrameInput) (s : @App F) :
  st_formulaIndex s < 4 ->
  exists s' r,
    frame' i s = Some (s', r) /\
    (jPressed (atJulia i) = true ->
     st_juliaMode s' = true /\
     st_juliaC s'
     = screenToComplex (ix (mouse (atJulia i))) (iy (mouse (atJulia i)))
         (st_zoom s') (st_offset s') width height /\
     shows true s' /\
     juliaMarker r
     = Some (orbitVertex (st_juliaC s') (st_zoom s') (st_offset s')
               width height)) /\
    (jPressed (atJulia i) = false ->
     st_juliaMode s' = false /\ st_juliaC s' = st_juliaC s /\
     juliaMarker r = None).
Proof.
  intros Hidx.
  destruct (frame_steps zoomFactor width height maxIter maxOrbit i s Hidx)
    as (s4 & s5 & Hs4 & Hs5 & Hidx3 & Hframe).
  rewrite Hframe; eexists; eexists; split; [reflexivity|].
  cbn [juliaMarker].
  set (s2 := dragStep (atDrag i) (fst (polled i s))) in *.
  apply orbitStep_state in Hs4.
  destruct Hs4 as (_ & Hz4 & Ho4 & Hc4 & Hi4 & _ & Hj4 & Hn4 & _).
  assert (Hc2 : st_juliaC s2 = st_juliaC s).
  { unfold s2, dragStep.
    destruct (st_dragging _ && altPressed (atDrag i));
      cbn [setView st_juliaC]; apply pollEvents_juliaC. }
  assert (Hmark : forall t : @App F,
            juliaMarker (snd (drawStep width height (mouse (atOrbit i))
                                (atTone i) t))
            = if st_juliaMode t
              then Some (orbitVertex (st_juliaC t) (st_zoom t) (st_offset t)
                           width height)
              else None).
  { intros t; unfold drawStep.
    destruct (insideWindow width height (mouse (atOrbit i))); reflexivity. }
  destruct (drawStep_state width height (mouse (atOrbit i)) (atTone i) s5)
    as [p Hd].
  rewrite Hd, Hmark.
  cbn [setLastPeriod st_juliaMode st_juliaC st_zoom st_offset].
  unfold imageShows;
    cbn [setLastPeriod st_juliaC st_zoom st_offset st_formulaIndex
         st_fractalImage].
  unfold juliaStep in Hz4, Ho4, Hc4, Hj4, Hn4, Hi4;
    cbn [st_zoom st_offset st_juliaC st_juliaMode st_needsUpdate
         st_formulaIndex] in Hz4, Ho4, Hc4, Hj4, Hn4, Hi4.
  unfold updateStep in Hs5.
  split; intros Hj; rewrite Hj in *.
  - rewrite Hn4 in Hs5.
    destruct (computeFractal maxIter width height (st_zoom s4)
                (st_offset s4) (st_juliaMode s4) (st_juliaC s4)
                (st_formulaIndex s4)) as [image|] eqn:Himg; [|discriminate].
    cbn [bind] in Hs5; inversion Hs5; subst s5; clear Hs5.
    cbn [st_juliaMode st_juliaC st_zoom st_offset st_formulaIndex
         st_fractalImage].
    rewrite Hj4.
    split; [reflexivity|].
    split; [rewrite Hc4, Hz4, Ho4; reflexivity|].
    split; [rewrite Hj4 in Himg; exact Himg|reflexivity].
  - assert (H5 : st_juliaMode s5 = false /\ st_juliaC s5 = st_juliaC s4).
    { destruct (st_needsUpdate s4).
      - destruct (computeFractal _ _ _ _ _ _ _ _); [|discriminate].
        cbn [bind] in Hs5; inversion Hs5; subst s5; cbn; auto.
      - inversion Hs5; subst s5; auto. }
    destruct H5 as [Hj5 Hc5]; rewrite Hj5, Hc5, Hc4.
    split; [reflexivity|split; [exact Hc2|reflexivity]].
Qed.

Lemma handleEvent_open ev d (s : @App F) :
  st_open (fst (handleEvent zoomFactor width height ev d s))
  = match ev with Closed => false | _ => st_open s end.
Proof.
  destruct ev as [| | [|] | [|] | | code |]; cbn [handleEvent fst];
    try reflexivity.
  - destruct (altPressed d); reflexivity.
  - destruct code; reflexivity.
Qed.

Lemma pollEvents_stays_closed evs (s : @App F) :
  st_open s = false ->
  st_open (fst (pollEvents zoomFactor width height evs s)) = false.
Proof.
  revert s; induction evs as [|[ev d] evs IH]; intros s H; cbn [pollEvents].
  - exact H.
  - pose proof (handleEvent_open ev d s) as H1.
    destruct (handleEvent zoomFactor width height ev d s) as [s1 out1].
    cbn [fst] in H1.
    assert (H1' : st_open s1 = false) by (rewrite H1; destruct ev; auto).
    pose proof (IH s1 H1') as H2.
    destruct (pollEvents zoomFactor width height evs s1) as [s2 out2].
    exact H2.
Qed.

Lemma pollEvents_closes evs d (s : @App F) :
  In (Closed, d) evs ->
  st_open (fst (pollEvents zoomFactor width height evs s)) = false.
Proof.
  revert s; induction evs as [|[ev d'] evs IH]; intros s Hin;
    [destruct Hin|].
  cbn [pollEvents].
  pose proof (handleEvent_open ev d' s) as H1.
  destruct (handleEvent zoomFactor width height ev d' s) as [s1 out1].
  cbn [fst] in H1.
  destruct Hin as [E|Hin].
  - inversion E; subst ev d'.
    pose proof (pollEvents_stays_closed evs s1 H1) as H2.
    destruct (pollEvents zoomFactor width height evs s1) as [s2 out2].
    exact H2.
  - pose proof (IH s1 Hin) as H2.
    destruct (pollEvents zoomFactor width height evs s1) as [s2 out2].
    exact H2.
Qed.

Lemma pollEvents_stays_open evs (s : @App F) :
  (forall d, ~ In (Closed, d) evs) ->
  st_open (fst (pollEvents zoomFactor width height evs s)) = st_open s.
Proof.
  revert s; induction evs as [|[ev d'] evs IH]; intros s Hno;
    cbn [pollEvents]; [reflexivity|].
  pose proof (handleEvent_open ev d' s) as H1.
  destruct (handleEvent zoomFactor width height ev d' s) as [s1 out1].
  cbn [fst] in H1.
  assert (H1' : st_open s1 = st_open s).
  { rewrite H1; destruct ev; try reflexivity.
    exfalso; apply (Hno d'); left; reflexivity. }
  assert (Hno' : forall d, ~ In (Closed, d) evs)
    by (intros d Hin; apply (Hno d); right; exact Hin).
  pose proof (IH s1 Hno') as H2.
  destruct (pollEvents zoomFactor width height evs s1) as [s2 out2].
  cbn [fst] in *; congruence.
Qed.

Lemma frame_open (i : FrameInput) (s s' : @App F) (r : Rendered) :
  frame' i s = Some (s', r) -> st_open s' = st_open (fst (polled i s)).
Proof.
  intros Hf; unfold frame in Hf.
  destruct (polled i s) as [s1 out].
  cbn [fst].
  destruct (orbitStep width height maxOrbit (atOrbit i)
              (juliaStep width height (atJulia i) (dragStep (atDrag i) s1)))
    as [s4|] eqn:Hs4; [|discriminate].
  cbn [bind] in Hf.
  destruct (updateStep width height maxIter s4) as [s5|] eqn:Hs5;
    [|discriminate].
  cbn [bind] in Hf.
  destruct (drawStep_state width height (mouse (atOrbit i)) (atTone i) s5)
    as [p Hd].
  destruct (drawStep width height (mouse (atOrbit i)) (atTone i) s5)
    as [s6 r6].
  cbn [fst] in Hd; inversion Hf; subst s' r; subst s6.
  cbn [setLastPeriod st_open].
  assert (H4 : st_open s4 = st_open (dragStep (atDrag i) s1)).
  { unfold orbitStep in Hs4.
    destruct (mouseQuery _ _ _ _ _ _ _ _ _ _); [|discriminate].
    cbn [bind] in Hs4; inversion Hs4; reflexivity. }
  assert (H5 : st_open s5 = st_open s4).
  { unfold updateStep in Hs5; destruct (st_needsUpdate s4).
    - destruct (computeFractal _ _ _ _ _ _ _ _); [|discriminate].
      cbn [bind] in Hs5; inversion Hs5; subst s5; reflexivity.
    - inversion Hs5; subst s5; reflexivity. }
  rewrite H5, H4; unfold dragStep.
  destruct (st_dragging s1 && altPressed (atDrag i)); reflexivity.
Qed.

Lemma mainLoop_until_closed (pre post : list FrameInput) (i : FrameInput)
    (s0 : @App F) :
  st_formulaIndex s0 < 4 -> st_open s0 = true ->
  (forall j d, In j pre -> ~ In (Closed, d) (events j)) ->
  (exists d, In (Closed, d) (events i)) ->
  exists s rs,
    mainLoop zoomFactor width height maxIter maxOrbit (pre ++ i :: post) s0
    = Some (s, rs) /\
    length rs = S (length pre) /\ st_open s = false.
Proof.
  revert s0; induction pre as [|j pre IH]; intros s0 Hidx Hopen Hpre [d Hi];
    cbn [app mainLoop]; rewrite Hopen.
  - destruct (frame_steps zoomFactor width height maxIter maxOrbit i s0 Hidx)
      as (s4 & s5 & _ & _ & _ & Hframe).
    pose proof (frame_open i s0 _ _ Hframe) as Ho.
    rewrite (pollEvents_closes (events i) d s0 Hi) in Ho.
    rewrite Hframe; cbn [bind fst snd].
    destruct post as [|k post]; cbn [mainLoop]; [|rewrite Ho];
      cbn [bind fst snd]; eexists; eexists;
      (split; [reflexivity|split; [reflexivity|exact Ho]]).
  - destruct (frame_steps zoomFactor width height maxIter maxOrbit j s0 Hidx)
      as (s4 & s5 & Hs4 & Hs5 & Hidx3 & Hframe).
    pose proof (frame_open j s0 _ _ Hframe) as Ho.
    rewrite pollEvents_stays_open in Ho
      by (intros d'; apply Hpre; left; reflexivity).
    rewrite Hframe; cbn [bind fst snd].
    match goal with
    | |- context [mainLoop _ _ _ _ _ _ ?s1] =>
        destruct (IH s1) as (s & rs & Hl & Hlen & Hcl)
    end.
    + destruct (drawStep_state width height (mouse (atOrbit j)) (atTone j)
                  s5) as [p ->].
      cbn [setLastPeriod st_formulaIndex].
      apply orbitStep_state in Hs4.
      destruct Hs4 as (_ & _ & _ & _ & Hi4 & _).
      assert (Hi5 : st_formulaIndex s5 = st_formulaIndex s4).
      { unfold updateStep in Hs5; destruct (st_needsUpdate s4).
        - destruct (computeFractal _ _ _ _ _ _ _ _); [|discriminate].
          cbn [bind] in Hs5; inversion Hs5; subst s5; reflexivity.
        - inversion Hs5; subst s5; reflexivity. }
      lia.
    + rewrite Ho; exact Hopen.
    + intros k d' Hk; apply Hpre; right; exact Hk.
    + exists d; exact Hi.
    + rewrite Hl; cbn [bind fst snd].
      eexists; eexists; split; [reflexivity|].
      split; [cbn [length app]; rewrite Hlen; reflexivity|exact Hcl].
Qed.

(** X22.  Closing the window.  From the initial state, when the frames
    before frame [i] receive no [Closed] event and frame [i] receives one,
    the program runs frame [i] to its end, as the last one: it renders one
    frame for each of the frames up to [i] and none of those after it. *)
Theorem closing_ends_after_the_frame (pre post : list FrameInput)
    (i : FrameInput) :
  (forall j d, In j pre -> ~ In (Closed, d) (events j)) ->
  (exists d, In (Closed, d) (events i)) ->
  exists s0 s rs,
    initialApp width height maxIter = Some s0 /\
    mainLoop zoomFactor width height maxIter maxOrbit (pre ++ i :: post) s0
    = Some (s, rs) /\
    length rs = S (length pre) /\ st_open s = false.
Proof.
  intros Hpre Hi.
  assert (H0 : exists s0 : @App F,
             initialApp width height maxIter = Some s0 /\
             st_formulaIndex s0 < 4 /\ st_open s0 = true).
  { unfold initialApp.
    destruct (computeFractal_total width height maxIter (of_int 250)
                (Vec2 (of_int 0) (of_int 0)) false
                (Complex (of_int 0) (of_int 0)) 0) as [image Himg]; [lia|].
    rewrite Himg; cbn [bind]; eexists; split; [reflexivity|].
    cbn [st_formulaIndex st_open]; split; [lia|reflexivity]. }
  destruct H0 as (s0 & H0 & Hidx & Hopen).
  destruct (mainLoop_until_closed pre post i s0 Hidx Hopen Hpre Hi)
    as (s & rs & Hl & Hlen & Hcl).
  exists s0, s, rs; auto.
Qed.
End FrameModes.

Lemma julia_point_follows_the_mouse_witness :
  let s := {| st_open := true; st_zoom := f32 250;
              st_offset := Vec2 (f32 0) (f32 0);
              st_fractalImage := [[255%Z]]; st_juliaMode := false;
              st_juliaC := c32 0 0; st_formulaIndex := 0;
              st_lastPeriod := (-1)%Z; st_needsUpdate := false;
              st_dragging := false; st_lastMousePos := Vec2i 0 0;
              st_dragStartOffset := Vec2 (f32 0) (f32 0);
              st_mousePeriod := (-1)%Z; st_mouseOrbit := [] |} in
  let here := {| mouse := Vec2i 0 0; altPressed := false;
                 jPressed := true; leftPressed := false |} in
  let i := {| events := []; atDrag := here; atJulia := here;
              atOrbit := here; atTone := here |} in
  st_formulaIndex s < 4 /\
  exists s' r,
    frame zoomFactor 1 1 2 3 i s = Some (s', r) /\
    (jPressed (atJulia i) = true ->
     st_juliaMode s' = true /\
     st_juliaC s'
     = screenToComplex (ix (mouse (atJulia i))) (iy (mouse (atJulia i)))
         (st_zoom s') (st_offset s') 1 1 /\
     imageShows 1 1 2 true s' /\
     juliaMarker r
     = Some (orbitVertex (st_juliaC s') (st_zoom s') (st_offset s') 1 1)) /\
    (jPressed (atJulia i) = false ->
     st_juliaMode s' = false /\ st_juliaC s' = st_juliaC s /\
     juliaMarker r = None).
Proof.
  intros s here i.
  assert (H : st_formulaIndex s < 4) by (cbn; lia).
  split; [exact H|].
  exact (julia_point_follows_the_mouse zoomFactor 1 1 2 3 i s H).
Defined.

Lemma closing_ends_after_the_frame_witness :
  let here := {| mouse := Vec2i 0 0; altPressed := false;
                 jPressed := false; leftPressed := false |} in
  let idle := {| events := [(KeyPressed Num2, here)]; atDrag := here;
                 atJulia := here; atOrbit := here; atTone := here |} in
  let closing := {| events := [(KeyPressed Num3, here); (Closed, here)];
                    atDrag := here; atJulia := here;
                    atOrbit := here; atTone := here |} in
  (forall j d, In j [idle] -> ~ In (Closed, d) (events j)) /\
  (exists d, In (Closed, d) (events closing)) /\
  exists s0 s rs,
    initialApp (F := spec_float) 1 1 2 = Some s0 /\
    mainLoop zoomFactor 1 1 2 3 ([idle] ++ closing :: [idle; idle]) s0
    = Some (s, rs) /\
    length rs = 2 /\ st_open s = false.
Proof.
  intros here idle closing.
  assert (H1 : forall j d, In j [idle] -> ~ In (Closed, d) (events j)).
  { intros j d [<-|[]] [E|[]]; discriminate E. }
  assert (H2 : exists d, In (Closed (F := spec_float), d) (events closing))
    by (exists here; right; left; reflexivity).
  split; [exact H1|split; [exact H2|]].
  exact (closing_ends_after_the_frame zoomFactor 1 1 2 3 [idle] [idle; idle]
           closing H1 H2).
Defined.
(** ** Rounding error of the binary32 operations *)

Module Binary32Error.

Local Open Scope Q_scope.

Lemma pow2_pos (e : Z) : 0 < 2 ^ e.
Proof. apply Qpower_0_lt; reflexivity. Qed.

Lemma pow2_add (a b : Z) : 2 ^ (a + b) == 2 ^ a * 2 ^ b.
Proof. apply Qpower_plus; discriminate. Qed.

Lemma pow2_le (a b : Z) : (a <= b)%Z -> 2 ^ a <= 2 ^ b.
Proof. intros H; apply Qpower_le_compat_l; [exact H|discriminate]. Qed.

Lemma pow2_le_inv (a b : Z) : 2 ^ a <= 2 ^ b -> (a <= b)%Z.
Proof. intros H; apply (Qpower_le_compat_l_inv 2); [exact H|reflexivity]. Qed.

Lemma pow2_lt_inv (a b : Z) : 2 ^ a < 2 ^ b -> (a < b)%Z.
Proof. intros H; apply (Qpower_lt_compat_l_inv 2); [exact H|reflexivity]. Qed.

Lemma pow2_Z (n : Z) : (0 <= n)%Z -> inject_Z (2 ^ n) == 2 ^ n.
Proof. intros H; rewrite Zpower_Qpower by exact H; reflexivity. Qed.

Lemma pow2_succ (a : Z) : 2 ^ (a + 1) == 2 * 2 ^ a.
Proof. rewrite pow2_add; change (2 ^ 1) with 2; ring. Qed.

(** Dropping [n] low bits of a mantissa: the value goes down by less than
    one unit of the new exponent. *)
Lemma shift_floor (m e n : Z) :
  (0 <= m)%Z -> (0 <= n)%Z ->
  inject_Z (m / 2 ^ n) * 2 ^ (e + n) <= inject_Z m * 2 ^ e /\
  inject_Z (m + 1) * 2 ^ e <= inject_Z (m / 2 ^ n + 1) * 2 ^ (e + n).
Proof.
  intros Hm Hn.
  assert (Hp : (0 < 2 ^ n)%Z) by (apply Z.pow_pos_nonneg; lia).
  pose proof (Z.mul_div_le m (2 ^ n) Hp) as Hlo.
  pose proof (Z.mul_succ_div_gt m (2 ^ n) Hp) as Hhi.
  rewrite (Z.add_comm e n), pow2_add, <- pow2_Z by exact Hn.
  pose proof (pow2_pos e) as He.
  split.
  - rewrite Qmult_assoc, <- inject_Z_mult.
    apply Qmult_le_compat_r; [|apply Qlt_le_weak, He].
    rewrite <- Zle_Qle; lia.
  - rewrite Qmult_assoc, <- inject_Z_mult.
    apply Qmult_le_compat_r; [|apply Qlt_le_weak, He].
    rewrite <- Zle_Qle; lia.
Qed.

Lemma digits_lower (m : Z) (e : Z) :
  (1 <= m)%Z -> 2 ^ (Zdigits2 m - 1 + e) <= inject_Z m * 2 ^ e.
Proof.
  intros Hm.
  pose proof (Binary32Zoom.Zdigits2_lower m Hm) as Hd.
  assert (H1 : (1 <= Zdigits2 m)%Z) by (destruct m; cbn; lia).
  rewrite pow2_add, <- pow2_Z by lia.
  apply Qmult_le_compat_r; [|apply Qlt_le_weak, pow2_pos].
  rewrite <- Zle_Qle; exact Hd.
Qed.

(** The two steps of [binary_round_aux] on a mantissa [m >= 0]: shift to
    the exponent [E1] of the format, round to [m1] or [m1 + 1], shift
    again to [E3] if the rounding carried. *)
Lemma binary_round_aux_steps (sx : bool) (m e : Z) (l : location) :
  (0 <= m)%Z ->
  exists m1 m2 m3 E1 E3 : Z,
    E1 = Z.max e (fexp 24 128 (Zdigits2 m + e)) /\
    m1 = (m / 2 ^ (E1 - e))%Z /\
    (m2 = m1 \/ m2 = (m1 + 1)%Z) /\
    (l = loc_Exact -> E1 = e -> m2 = m1) /\
    E3 = Z.max E1 (fexp 24 128 (Zdigits2 m2 + E1)) /\
    m3 = (m2 / 2 ^ (E3 - E1))%Z /\
    binary_round_aux 24 128 sx m e l
    = match m3 with
      | Z0 => S754_zero sx
      | Zpos p => if (E3 <=? 128 - 24)%Z then S754_finite sx p E3
                  else S754_infinity sx
      | Zneg _ => S754_nan
      end.
Proof.
  intros Hm.
  assert (Hshift : forall (x : Z) (ex : Z) (lx : location), (0 <= x)%Z ->
            let E := Z.max ex (fexp 24 128 (Zdigits2 x + ex)) in
            shr_m (fst (shr_fexp 24 128 x ex lx)) = (x / 2 ^ (E - ex))%Z /\
            snd (shr_fexp 24 128 x ex lx) = E /\
            (E = ex -> fst (shr_fexp 24 128 x ex lx)
                       = shr_record_of_loc x lx)).
  { intros x ex lx Hx E; unfold shr_fexp, shr.
    assert (Hrec : shr_m (shr_record_of_loc x lx) = x)
      by (destruct lx as [|[]]; reflexivity).
    destruct (fexp 24 128 (Zdigits2 x + ex) - ex)%Z as [|p|p] eqn:Hn;
      cbn [fst snd].
    - replace E with ex by (unfold E; lia).
      rewrite Z.sub_diag, Z.div_1_r; auto.
    - rewrite Binary32Zoom.iter_shr_1_m by (rewrite Hrec; exact Hx).
      replace (E - ex)%Z with (Zpos p) by (unfold E; lia).
      rewrite Hrec; split; [reflexivity|].
      split; [unfold E; lia|unfold E; lia].
    - replace E with ex by (unfold E; lia).
      rewrite Z.sub_diag, Z.div_1_r; auto. }
  unfold binary_round_aux.
  destruct (Hshift m e l Hm) as (H1 & H2 & H2').
  destruct (shr_fexp 24 128 m e l) as [mrs' e'].
  cbn [fst snd] in H1, H2, H2'.
  set (m2 := round_nearest_even (shr_m mrs') (loc_of_shr_record mrs')).
  assert (Hm1 : (0 <= shr_m mrs')%Z)
    by (rewrite H1; apply Z.div_pos; [exact Hm|apply Z.pow_pos_nonneg; lia]).
  assert (Hm2 : m2 = shr_m mrs' \/ m2 = (shr_m mrs' + 1)%Z).
  { unfold m2; destruct (loc_of_shr_record mrs') as [|[]];
      cbn [round_nearest_even]; auto.
    destruct (Z.even (shr_m mrs')); auto. }
  assert (Hm2' : (0 <= m2)%Z) by lia.
  destruct (Hshift m2 e' loc_Exact Hm2') as (H3 & H4 & _).
  destruct (shr_fexp 24 128 m2 e' loc_Exact) as [mrs'' e''].
  cbn [fst snd] in H3, H4.
  exists (shr_m mrs'), m2, (shr_m mrs''), e', e''.
  split; [exact H2|].
  split; [rewrite H1, <- H2; reflexivity|].
  split; [exact Hm2|].
  split.
  { intros -> He'; unfold m2; rewrite H2' by congruence; reflexivity. }
  split; [exact H4|].
  split; [rewrite H3, <- H4; reflexivity|].
  reflexivity.
Qed.


Lemma fexp_eq (k : Z) : fexp 24 128 k = Z.max (k - 24) (-149).
Proof. reflexivity. Qed.

(** The error of rounding.  [m * 2^e] is the truncation of the exact
    value [v >= 0], with a mantissa that has not been shifted too far
    ([e] is at most the exponent of the format); [v] is at most [2^b].
    Then the result is finite and its magnitude [a] is within [2^(b-22)]
    of [v].  When nothing has to be shifted the result is [m * 2^e]. *)
Lemma binary_round_aux_error (sx : bool) (m e : Z) (l : location) (v : Q)
    (b : Z) :
  (0 <= m)%Z ->
  (e <= fexp 24 128 (Zdigits2 m + e))%Z ->
  inject_Z m * 2 ^ e <= v -> v <= inject_Z (m + 1) * 2 ^ e ->
  v <= 2 ^ b -> (-126 <= b <= 127)%Z ->
  exists a : Q,
    is_finite (binary_round_aux 24 128 sx m e l) = true /\
    SF2Q (binary_round_aux 24 128 sx m e l) == (if sx then - a else a) /\
    0 <= a /\ v - 2 ^ (b - 22) <= a /\ a <= v + 2 ^ (b - 22) /\
    (l = loc_Exact -> fexp 24 128 (Zdigits2 m + e) = e ->
     a == inject_Z m * 2 ^ e).
Proof.
  intros Hm Hnorm Hlo Hhi Hb Hrange.
  destruct (binary_round_aux_steps sx m e l Hm)
    as (m1 & m2 & m3 & E1 & E3 & HE1 & Hm1 & Hm2 & Hex & HE3 & Hm3 & Hr).
  rewrite Hr; clear Hr.
  rewrite fexp_eq in *.
  assert (HE1e : (e <= E1)%Z) by lia.
  assert (Hm1' : (0 <= m1)%Z)
    by (rewrite Hm1; apply Z.div_pos; [exact Hm|apply Z.pow_pos_nonneg; lia]).
  assert (Hm2' : (0 <= m2)%Z) by lia.
  assert (HE31 : (E1 <= E3)%Z) by lia.
  assert (Hm3' : (0 <= m3)%Z)
    by (rewrite Hm3; apply Z.div_pos; [exact Hm2'|apply Z.pow_pos_nonneg; lia]).
  destruct (shift_floor m e (E1 - e) Hm ltac:(lia)) as [S1 S2].
  replace (e + (E1 - e))%Z with E1 in S1, S2 by lia.
  rewrite <- Hm1 in S1, S2.
  destruct (shift_floor m2 E1 (E3 - E1) Hm2' ltac:(lia)) as [S3 S4].
  replace (E1 + (E3 - E1))%Z with E3 in S3, S4 by lia.
  rewrite <- Hm3 in S3, S4.
  repeat rewrite inject_Z_plus in S2.
  repeat rewrite inject_Z_plus in S4.
  repeat rewrite inject_Z_plus in Hhi.
  change (inject_Z 1) with 1 in S2, S4, Hhi.
  pose proof (pow2_pos E1) as P1.
  pose proof (pow2_pos E3) as P3.
  pose proof (pow2_pos b) as Pb.
  assert (F1 : (E1 <= b - 23)%Z).
  { destruct (Z.eq_dec m 0) as [->|Hm0]; [cbn [Zdigits2] in *; lia|].
    pose proof (digits_lower m e ltac:(lia)) as Hd.
    assert (Hx : 2 ^ (Zdigits2 m - 1 + e) <= 2 ^ b) by lra.
    apply pow2_le_inv in Hx; lia. }
  pose proof (pow2_le E1 (b - 23) F1) as Q1.
  assert (Q2 : 2 ^ b == 2 ^ 23 * 2 ^ (b - 23))
    by (rewrite <- pow2_add; apply Qpower_comp; [reflexivity|lia]).
  assert (Q3 : 2 ^ (b - 22) == 2 * 2 ^ (b - 23))
    by (rewrite <- pow2_succ; apply Qpower_comp; [reflexivity|lia]).
  assert (Q4 : 2 ^ (b + 1) == 2 * 2 ^ b) by apply pow2_succ.
  change (2 ^ 23) with (8388608 # 1) in Q2.
  pose proof (pow2_pos (b - 23)) as Pb23.
  assert (Hm2hi : inject_Z m2 * 2 ^ E1 <= v + 2 ^ E1).
  { destruct Hm2 as [->| ->];
      [|rewrite inject_Z_plus; change (inject_Z 1) with 1]; lra. }
  assert (Hm2lo : v - 2 ^ E1 <= inject_Z m2 * 2 ^ E1).
  { destruct Hm2 as [->| ->];
      [|rewrite inject_Z_plus; change (inject_Z 1) with 1]; lra. }
  assert (F2 : (E3 <= b - 23)%Z).
  { destruct (Z.eq_dec m2 0) as [E0|Hm0];
      [rewrite E0 in HE3; cbn [Zdigits2] in HE3; lia|].
    pose proof (digits_lower m2 E1 ltac:(lia)) as Hd.
    assert (Hx : 2 ^ (Zdigits2 m2 - 1 + E1) < 2 ^ (b + 1)) by lra.
    apply pow2_lt_inv in Hx; lia. }
  pose proof (pow2_le E3 (b - 23) F2) as Q5.
  exists (inject_Z m3 * 2 ^ E3).
  assert (Ha : 0 <= inject_Z m3 * 2 ^ E3).
  { apply Qmult_le_0_compat; [|lra].
    change 0 with (inject_Z 0); rewrite <- Zle_Qle; exact Hm3'. }
  split; [|split; [|split; [exact Ha|split; [lra|split; [lra|]]]]].
  - destruct m3 as [|p|p]; [reflexivity| |lia].
    replace (E3 <=? 128 - 24)%Z with true by (symmetry; apply Z.leb_le; lia).
    reflexivity.
  - destruct m3 as [|p|p]; [|replace (E3 <=? 128 - 24)%Z with true
        by (symmetry; apply Z.leb_le; lia)|lia].
    + cbn [SF2Q]; destruct sx; ring.
    + cbn [SF2Q]; destruct sx; reflexivity.
  - intros Hl Hfe.
    assert (HE1' : E1 = e) by lia.
    pose proof (Hex Hl HE1') as Hm21.
    assert (Hm1m : m1 = m)
      by (rewrite Hm1, HE1', Z.sub_diag, Z.div_1_r; reflexivity).
    assert (HE3' : E3 = e) by (rewrite HE3, Hm21, Hm1m, HE1'; lia).
    assert (Hm3m : m3 = m)
      by (rewrite Hm3, HE3', HE1', Z.sub_diag, Z.div_1_r; congruence).
    rewrite Hm3m, HE3'; reflexivity.
Qed.


(** [Zdigits2] is the position of the leading bit. *)
Lemma digits2_pos_size (p : positive) : digits2_pos p = Pos.size p.
Proof. induction p as [p IH|p IH|]; cbn; congruence. Qed.

Lemma Zdigits2_log2 (p : positive) :
  Zdigits2 (Zpos p) = (Z.log2 (Zpos p) + 1)%Z.
Proof.
  cbn [Zdigits2]; rewrite digits2_pos_size.
  destruct p as [p|p|]; cbn [Z.log2 Pos.size]; lia.
Qed.

Lemma Zdigits2_shift (p : positive) (k : Z) :
  (0 <= k)%Z -> Zdigits2 (Zpos p * 2 ^ k) = (Zdigits2 (Zpos p) + k)%Z.
Proof.
  intros Hk.
  assert (Hp : (0 < Zpos p * 2 ^ k)%Z)
    by (apply Z.mul_pos_pos; [lia|apply Z.pow_pos_nonneg; lia]).
  destruct (Zpos p * 2 ^ k)%Z as [|q|q] eqn:E; try lia.
  rewrite !Zdigits2_log2, <- E, Z.log2_mul_pow2 by lia; lia.
Qed.

Lemma Zdigits2_mul (p q : positive) :
  (Zdigits2 (Zpos p) + Zdigits2 (Zpos q) - 1 <= Zdigits2 (Zpos (p * q)))%Z.
Proof.
  rewrite !Zdigits2_log2, Pos2Z.inj_mul.
  pose proof (Z.log2_mul_below (Zpos p) (Zpos q) ltac:(lia) ltac:(lia)); lia.
Qed.

Lemma iter_xO (m d : positive) :
  Zpos (Pos.iter xO m d) = (Zpos m * 2 ^ Zpos d)%Z.
Proof.
  revert m; induction d as [|d IH] using Pos.peano_ind; intros m.
  - cbn [Pos.iter]; lia.
  - rewrite Pos.iter_succ, Pos2Z.inj_xO, IH, Pos2Z.inj_succ, Z.pow_succ_r
      by lia.
    ring.
Qed.

(** [shl_align] lowers the exponent to [t] when it is above it, and keeps
    the value. *)
Lemma shl_align_spec (mx : positive) (ex t : Z) :
  snd (shl_align mx ex t) = Z.min ex t /\
  Zpos (fst (shl_align mx ex t)) = (Zpos mx * 2 ^ (ex - Z.min ex t))%Z.
Proof.
  unfold shl_align.
  destruct (t - ex)%Z as [|d|d] eqn:E; cbn [fst snd].
  - replace (Z.min ex t) with ex by lia.
    rewrite Z.sub_diag, Z.mul_1_r; auto.
  - replace (Z.min ex t) with ex by lia.
    rewrite Z.sub_diag, Z.mul_1_r; auto.
  - replace (Z.min ex t) with t by lia.
    rewrite iter_xO; replace (ex - t)%Z with (Zpos d) by lia; auto.
Qed.

Lemma shl_align_value (mx : positive) (ex t : Z) :
  inject_Z (Zpos (fst (shl_align mx ex t))) * 2 ^ snd (shl_align mx ex t)
  == inject_Z (Zpos mx) * 2 ^ ex.
Proof.
  destruct (shl_align_spec mx ex t) as [-> ->].
  rewrite inject_Z_mult, pow2_Z by lia.
  rewrite <- Qmult_assoc, <- pow2_add.
  replace (ex - Z.min ex t + Z.min ex t)%Z with ex by lia; reflexivity.
Qed.

(** The error of [binary_round], which rounds [mx * 2^ex]. *)
Lemma binary_round_error (sx : bool) (mx : positive) (ex b : Z) :
  inject_Z (Zpos mx) * 2 ^ ex <= 2 ^ b -> (-126 <= b <= 127)%Z ->
  exists a : Q,
    is_finite (binary_round 24 128 sx mx ex) = true /\
    SF2Q (binary_round 24 128 sx mx ex) == (if sx then - a else a) /\
    0 <= a /\
    inject_Z (Zpos mx) * 2 ^ ex - 2 ^ (b - 22) <= a /\
    a <= inject_Z (Zpos mx) * 2 ^ ex + 2 ^ (b - 22) /\
    ((fexp 24 128 (Zdigits2 (Zpos mx) + ex) <= ex)%Z ->
     a == inject_Z (Zpos mx) * 2 ^ ex).
Proof.
  intros Hb Hrange; unfold binary_round.
  pose proof (shl_align_spec mx ex (fexp 24 128 (Zpos (digits2_pos mx) + ex)))
    as [He Hm].
  pose proof (shl_align_value mx ex
                (fexp 24 128 (Zpos (digits2_pos mx) + ex))) as Hv.
  destruct (shl_align mx ex (fexp 24 128 (Zpos (digits2_pos mx) + ex)))
    as [mz ez].
  cbn [fst snd] in He, Hm, Hv.
  change (Zpos (digits2_pos mx)) with (Zdigits2 (Zpos mx)) in He, Hm.
  assert (Hd : (Zdigits2 (Zpos mz) + ez = Zdigits2 (Zpos mx) + ex)%Z).
  { rewrite Hm, Zdigits2_shift by lia; lia. }
  destruct (binary_round_aux_error sx (Zpos mz) ez loc_Exact
              (inject_Z (Zpos mx) * 2 ^ ex) b)
    as (a & Hfin & Hval & Ha & Hlo & Hhi & Hexact);
    try assumption; try lia.
  - rewrite Hd; lia.
  - rewrite Hv; apply Qle_refl.
  - rewrite <- Hv, inject_Z_plus.
    pose proof (pow2_pos ez); change (inject_Z 1) with 1; lra.
  - exists a; repeat (split; [assumption|]).
    intros Hfit; rewrite <- Hv; apply Hexact; [reflexivity|].
    rewrite Hd; lia.
Qed.


Lemma pow2_0 : 2 ^ 0 == 1.
Proof. reflexivity. Qed.

(** The error of [binary_normalize], which rounds the integer multiple
    [z * 2^e] of a power of two. *)
Lemma binary_normalize_error (z e : Z) (sz : bool) (b : Z) :
  - 2 ^ b <= inject_Z z * 2 ^ e -> inject_Z z * 2 ^ e <= 2 ^ b ->
  (-126 <= b <= 127)%Z ->
  is_finite (binary_normalize 24 128 z e sz) = true /\
  inject_Z z * 2 ^ e - 2 ^ (b - 22) <= SF2Q (binary_normalize 24 128 z e sz)
  /\
  SF2Q (binary_normalize 24 128 z e sz) <= inject_Z z * 2 ^ e + 2 ^ (b - 22)
  /\
  ((fexp 24 128 (Zdigits2 z + e) <= e)%Z ->
   SF2Q (binary_normalize 24 128 z e sz) == inject_Z z * 2 ^ e).
Proof.
  intros Hlo Hhi Hrange.
  pose proof (pow2_pos (b - 22)) as Pb.
  destruct z as [|p|p]; cbn [binary_normalize].
  - cbn [is_finite SF2Q]; split; [reflexivity|].
    change (inject_Z 0) with 0.
    split; [lra|split; [lra|intros _; ring]].
  - destruct (binary_round_error false p e b Hhi Hrange)
      as (a & Hfin & Hval & Ha & Hal & Hah & Hex).
    split; [exact Hfin|rewrite Hval].
    split; [exact Hal|split; [exact Hah|exact Hex]].
  - assert (Hn : inject_Z (Zneg p) == - inject_Z (Zpos p)) by reflexivity.
    rewrite Hn in *.
    destruct (binary_round_error true p e b ltac:(lra) Hrange)
      as (a & Hfin & Hval & Ha & Hal & Hah & Hex).
    split; [exact Hfin|rewrite Hval].
    split; [lra|split; [lra|]].
    intros Hfit; rewrite (Hex Hfit); ring.
Qed.

(** Small integers are converted without rounding. *)
Lemma of_int_exact (n : Z) :
  (- 2 ^ 24 < n < 2 ^ 24)%Z ->
  is_finite (f32 n) = true /\ SF2Q (f32 n) == inject_Z n.
Proof.
  intros Hn.
  assert (Hv : inject_Z n * 2 ^ 0 == inject_Z n) by (rewrite pow2_0; ring).
  assert (H24 : 2 ^ 24 == inject_Z (2 ^ 24)) by reflexivity.
  destruct (binary_normalize_error n 0 false 24) as (Hf & _ & _ & Hex).
  - rewrite Hv, H24, <- inject_Z_opp, <- Zle_Qle; lia.
  - rewrite Hv, H24, <- Zle_Qle; lia.
  - lia.
  - split; [exact Hf|].
    change (f32 n) with (binary_normalize 24 128 n 0 false).
    rewrite Hex, Hv; [reflexivity|].
    rewrite fexp_eq.
    assert (Hd : (Zdigits2 n <= 24)%Z).
    { destruct n as [|p|p]; [cbn; lia| |].
      - rewrite Zdigits2_log2.
        assert (Z.log2 (Zpos p) < 24)%Z
          by (apply Z.log2_lt_pow2; lia); lia.
      - change (Zdigits2 (Zneg p)) with (Zdigits2 (Zpos p)).
        rewrite Zdigits2_log2.
        assert (Z.log2 (Zpos p) < 24)%Z
          by (apply Z.log2_lt_pow2; lia); lia. }
    lia.
Qed.

(** The value of an operand of [SFadd] and [SFsub] once it is aligned to
    the smaller exponent. *)
Lemma aligned_value (s : bool) (m : positive) (e ez : Z) :
  (ez <= e)%Z ->
  inject_Z (cond_Zopp s (Zpos (fst (shl_align m e ez)))) * 2 ^ ez
  == SF2Q (S754_finite s m e).
Proof.
  intros He.
  pose proof (shl_align_value m e ez) as Hv.
  destruct (shl_align_spec m e ez) as [He' _].
  rewrite He' in Hv; replace (Z.min e ez) with ez in Hv by lia.
  destruct s; cbn [cond_Zopp SF2Q].
  - rewrite inject_Z_opp, <- Hv; ring.
  - exact Hv.
Qed.

(** Addition: the sum of two finite numbers, of magnitude at most [2^b],
    is finite and within [2^(b-22)] of the exact sum. *)
Lemma add_error (x y : spec_float) (b : Z) :
  is_finite x = true -> is_finite y = true ->
  - 2 ^ b <= SF2Q x + SF2Q y -> SF2Q x + SF2Q y <= 2 ^ b ->
  (-126 <= b <= 127)%Z ->
  is_finite (Binary32.add x y) = true /\
  SF2Q x + SF2Q y - 2 ^ (b - 22) <= SF2Q (Binary32.add x y) /\
  SF2Q (Binary32.add x y) <= SF2Q x + SF2Q y + 2 ^ (b - 22).
Proof.
  intros Hx Hy Hlo Hhi Hrange.
  pose proof (pow2_pos (b - 22)) as Pb.
  destruct x as [sx|sx| |sx mx ex]; try discriminate;
    destruct y as [sy|sy| |sy my ey]; try discriminate.
  - assert (E : SF2Q (Binary32.add (S754_zero sx) (S754_zero sy)) = 0)
      by (destruct sx, sy; reflexivity).
    split; [destruct sx, sy; reflexivity|rewrite E].
    cbn [SF2Q] in *; lra.
  - change (Binary32.add (S754_zero sx) (S754_finite sy my ey))
      with (S754_finite sy my ey).
    split; [reflexivity|cbn [SF2Q] in *; lra].
  - change (Binary32.add (S754_finite sx mx ex) (S754_zero sy))
      with (S754_finite sx mx ex).
    split; [reflexivity|].
    change (SF2Q (S754_zero sy)) with 0 in *; lra.
  - unfold Binary32.add; cbn [SFadd].
    set (ez := Z.min ex ey).
    pose proof (aligned_value sx mx ex ez ltac:(unfold ez; lia)) as Vx.
    pose proof (aligned_value sy my ey ez ltac:(unfold ez; lia)) as Vy.
    set (zx := cond_Zopp sx (Zpos (fst (shl_align mx ex ez)))) in *.
    set (zy := cond_Zopp sy (Zpos (fst (shl_align my ey ez)))) in *.
    assert (Hv : inject_Z (zx + zy) * 2 ^ ez
                 == SF2Q (S754_finite sx mx ex) + SF2Q (S754_finite sy my ey))
      by (rewrite inject_Z_plus, <- Vx, <- Vy; ring).
    rewrite <- Hv in *.
    destruct (binary_normalize_error (zx + zy) ez false b Hlo Hhi Hrange)
      as (Hf & Hl & Hh & _).
    auto.
Qed.

(** Subtraction, likewise. *)
Lemma sub_error (x y : spec_float) (b : Z) :
  is_finite x = true -> is_finite y = true ->
  - 2 ^ b <= SF2Q x - SF2Q y -> SF2Q x - SF2Q y <= 2 ^ b ->
  (-126 <= b <= 127)%Z ->
  is_finite (Binary32.sub x y) = true /\
  SF2Q x - SF2Q y - 2 ^ (b - 22) <= SF2Q (Binary32.sub x y) /\
  SF2Q (Binary32.sub x y) <= SF2Q x - SF2Q y + 2 ^ (b - 22).
Proof.
  intros Hx Hy Hlo Hhi Hrange.
  pose proof (pow2_pos (b - 22)) as Pb.
  destruct x as [sx|sx| |sx mx ex]; try discriminate;
    destruct y as [sy|sy| |sy my ey]; try discriminate.
  - assert (E : SF2Q (Binary32.sub (S754_zero sx) (S754_zero sy)) = 0)
      by (destruct sx, sy; reflexivity).
    split; [destruct sx, sy; reflexivity|rewrite E].
    cbn [SF2Q] in *; lra.
  - change (Binary32.sub (S754_zero sx) (S754_finite sy my ey))
      with (S754_finite (negb sy) my ey).
    split; [reflexivity|].
    assert (E : SF2Q (S754_finite (negb sy) my ey)
                == - SF2Q (S754_finite sy my ey))
      by (destruct sy; cbn [negb SF2Q]; ring).
    rewrite E; change (SF2Q (S754_zero sx)) with 0 in *; lra.
  - change (Binary32.sub (S754_finite sx mx ex) (S754_zero sy))
      with (S754_finite sx mx ex).
    split; [reflexivity|].
    change (SF2Q (S754_zero sy)) with 0 in *; lra.
  - unfold Binary32.sub; cbn [SFsub].
    set (ez := Z.min ex ey).
    pose proof (aligned_value sx mx ex ez ltac:(unfold ez; lia)) as Vx.
    pose proof (aligned_value sy my ey ez ltac:(unfold ez; lia)) as Vy.
    set (zx := cond_Zopp sx (Zpos (fst (shl_align mx ex ez)))) in *.
    set (zy := cond_Zopp sy (Zpos (fst (shl_align my ey ez)))) in *.
    assert (Hv : inject_Z (zx - zy) * 2 ^ ez
                 == SF2Q (S754_finite sx mx ex) - SF2Q (S754_finite sy my ey)).
    { unfold Z.sub; rewrite inject_Z_plus, inject_Z_opp, <- Vx, <- Vy; ring. }
    rewrite <- Hv in *.
    destruct (binary_normalize_error (zx - zy) ez false b Hlo Hhi Hrange)
      as (Hf & Hl & Hh & _).
    auto.
Qed.


Lemma SF2Q_finite (s : bool) (m : positive) (e : Z) :
  SF2Q (S754_finite s m e)
  == (if s then - (inject_Z (Zpos m) * 2 ^ e) else inject_Z (Zpos m) * 2 ^ e).
Proof. destruct s; reflexivity. Qed.

Lemma mantissa_pos (m : positive) (e : Z) : 0 < inject_Z (Zpos m) * 2 ^ e.
Proof.
  apply Qmult_lt_0_compat; [|apply pow2_pos].
  change 0 with (inject_Z 0); rewrite <- Zlt_Qlt; lia.
Qed.

(** Multiplication by a normal number [y]: the product of magnitude at
    most [2^b] is finite and within [2^(b-22)] of the exact product. *)
Lemma mul_error (x : spec_float) (sy : bool) (my : positive) (ey b : Z) :
  is_finite x = true -> Zdigits2 (Zpos my) = 24%Z ->
  - 2 ^ b <= SF2Q x * SF2Q (S754_finite sy my ey) ->
  SF2Q x * SF2Q (S754_finite sy my ey) <= 2 ^ b ->
  (-126 <= b <= 127)%Z ->
  is_finite (Binary32.mul x (S754_finite sy my ey)) = true /\
  SF2Q x * SF2Q (S754_finite sy my ey) - 2 ^ (b - 22)
  <= SF2Q (Binary32.mul x (S754_finite sy my ey)) /\
  SF2Q (Binary32.mul x (S754_finite sy my ey))
  <= SF2Q x * SF2Q (S754_finite sy my ey) + 2 ^ (b - 22).
Proof.
  intros Hx Hd Hlo Hhi Hrange.
  pose proof (pow2_pos (b - 22)) as Pb.
  destruct x as [sx|sx| |sx mx ex]; try discriminate.
  - change (Binary32.mul (S754_zero sx) (S754_finite sy my ey))
      with (S754_zero (xorb sx sy)).
    split; [reflexivity|].
    change (SF2Q (S754_zero sx)) with 0 in *.
    change (SF2Q (S754_zero (xorb sx sy))) with 0.
    rewrite Qmult_0_l in *; lra.
  - unfold Binary32.mul; cbn [SFmul].
    set (v := inject_Z (Zpos (mx * my)) * 2 ^ (ex + ey)).
    assert (Hv : v == (inject_Z (Zpos mx) * 2 ^ ex)
                      * (inject_Z (Zpos my) * 2 ^ ey)).
    { unfold v; rewrite Pos2Z.inj_mul, inject_Z_mult, pow2_add; ring. }
    assert (Hprod : SF2Q (S754_finite sx mx ex) * SF2Q (S754_finite sy my ey)
                    == (if xorb sx sy then - v else v)).
    { rewrite !SF2Q_finite; destruct sx, sy; cbn [xorb]; rewrite Hv; ring. }
    rewrite Hprod in *.
    assert (Hvpos : 0 < v) by apply mantissa_pos.
    destruct (binary_round_aux_error (xorb sx sy) (Zpos (mx * my)) (ex + ey)
                loc_Exact v b) as (a & Hfin & Hval & Ha & Hal & Hah & _).
    + lia.
    + rewrite fexp_eq.
      pose proof (Zdigits2_mul mx my) as Hm.
      assert (1 <= Zdigits2 (Zpos mx))%Z by (cbn; lia).
      lia.
    + apply Qle_refl.
    + unfold v; rewrite inject_Z_plus; change (inject_Z 1) with 1.
      pose proof (pow2_pos (ex + ey)); lra.
    + destruct (xorb sx sy); lra.
    + exact Hrange.
    + split; [exact Hfin|rewrite Hval].
      destruct (xorb sx sy); lra.
Qed.

(** The quotient and the exponent that [SFdiv_core_binary] hands to the
    rounding: the truncation of the exact quotient, not shifted too far. *)
Lemma div_core_spec (mx : positive) (ex : Z) (my : positive) (ey : Z) :
  let '(q, e', l) :=
    SFdiv_core_binary 24 128 (Zpos mx) ex (Zpos my) ey in
  let V := (inject_Z (Zpos mx) * 2 ^ ex) / (inject_Z (Zpos my) * 2 ^ ey) in
  (0 <= q)%Z /\ (e' <= fexp 24 128 (Zdigits2 q + e'))%Z /\
  inject_Z q * 2 ^ e' <= V /\ V <= inject_Z (q + 1) * 2 ^ e'.
Proof.
  unfold SFdiv_core_binary; cbv zeta.
  rewrite fexp_eq.
  set (d1 := Zdigits2 (Zpos mx)).
  set (d2 := Zdigits2 (Zpos my)).
  set (e' := Z.min (Z.max (d1 + ex - (d2 + ey) - 24) (-149)) (ex - ey)).
  set (s := (ex - ey - e')%Z).
  assert (Hs : (0 <= s)%Z) by (unfold s, e'; lia).
  set (m' := match s with
             | 0%Z => Zpos mx
             | Zpos _ => Z.shiftl (Zpos mx) s
             | Zneg _ => 0%Z
             end).
  assert (Hm' : m' = (Zpos mx * 2 ^ s)%Z).
  { unfold m'; destruct s as [|p|p] eqn:Es; [lia| |lia].
    rewrite Z.shiftl_mul_pow2 by lia; reflexivity. }
  clearbody m'.
  pose proof (Z_div_mod m' (Zpos my) ltac:(lia)) as Hdiv.
  destruct (Z.div_eucl m' (Zpos my)) as [q r].
  destruct Hdiv as [Hq Hr].
  assert (Hps : (0 < 2 ^ s)%Z) by (apply Z.pow_pos_nonneg; lia).
  assert (Hm'pos : (0 < m')%Z) by (rewrite Hm'; apply Z.mul_pos_pos; lia).
  assert (Hq0 : (0 <= q)%Z) by nia.
  pose proof (Binary32Zoom.Zdigits2_lower (Zpos mx) ltac:(lia)) as Hd1.
  fold d1 in Hd1.
  assert (Hd2 : (Zpos my < 2 ^ d2)%Z).
  { unfold d2; rewrite Zdigits2_log2.
    apply Z.log2_spec; lia. }
  assert (Hd1' : (1 <= d1)%Z) by (unfold d1; cbn; lia).
  assert (Hd2' : (1 <= d2)%Z) by (unfold d2; cbn; lia).
  split; [exact Hq0|split].
  - rewrite fexp_eq.
    destruct (Z.eq_dec q 0) as [->|Hqn].
    + cbn [Zdigits2].
      destruct (Z_le_gt_dec e' (-149)) as [Hle|Hgt]; [lia|exfalso].
      assert (Hs' : (d2 - d1 + 24 <= s)%Z) by (unfold s, e' in *; lia).
      assert (Hlow : (2 ^ (d2 + 23) <= m')%Z).
      { rewrite Hm'.
        apply Z.le_trans with (2 ^ (d1 - 1) * 2 ^ s)%Z;
          [|apply Z.mul_le_mono_nonneg_r; lia].
        rewrite <- Z.pow_add_r by lia; apply Z.pow_le_mono_r; lia. }
      assert (2 ^ d2 <= 2 ^ (d2 + 23))%Z by (apply Z.pow_le_mono_r; lia).
      lia.
    + assert (Hq1 : (1 <= q)%Z) by lia.
      assert (Hdq : (d1 - d2 + s <= Zdigits2 q)%Z).
      { destruct q as [|pq|pq]; try lia.
        rewrite Zdigits2_log2.
        destruct (Z_le_gt_dec (d1 - d2 + s) 1) as [Hsmall|Hbig];
          [pose proof (Z.log2_nonneg (Zpos pq)); lia|].
        assert (HL : (2 ^ (d1 - d2 + s - 1) <= Zpos pq)%Z).
        { assert (Hx : (2 ^ (d1 - d2 + s - 1) * 2 ^ d2 <= m')%Z).
          { rewrite Hm', <- Z.pow_add_r by lia.
            apply Z.le_trans with (2 ^ (d1 - 1) * 2 ^ s)%Z;
              [|apply Z.mul_le_mono_nonneg_r; lia].
            rewrite <- Z.pow_add_r by lia; apply Z.pow_le_mono_r; lia. }
          assert (Hp : (0 < 2 ^ (d1 - d2 + s - 1))%Z)
            by (apply Z.pow_pos_nonneg; lia).
          nia. }
        apply Z.log2_le_pow2 in HL; lia. }
      unfold e' in *; lia.
  - set (A := inject_Z (Zpos mx) * 2 ^ ex).
    set (B := inject_Z (Zpos my) * 2 ^ ey).
    assert (HB : 0 < B) by apply mantissa_pos.
    assert (HA : A == inject_Z m' * 2 ^ e' * 2 ^ ey).
    { unfold A; rewrite Hm', inject_Z_mult, pow2_Z by lia.
      rewrite <- !Qmult_assoc, <- !pow2_add.
      replace (s + (e' + ey))%Z with ex by (unfold s; lia); reflexivity. }
    assert (Hmq : inject_Z m' == inject_Z (Zpos my) * inject_Z q + inject_Z r)
      by (rewrite Hq, inject_Z_plus, inject_Z_mult; reflexivity).
    assert (Hr0 : 0 <= inject_Z r)
      by (change 0 with (inject_Z 0); rewrite <- Zle_Qle; lia).
    assert (Hr1 : inject_Z r <= inject_Z (Zpos my))
      by (rewrite <- Zle_Qle; lia).
    pose proof (pow2_pos e') as Pe'.
    pose proof (pow2_pos ey) as Pey.
    assert (Pee : 0 < 2 ^ e' * 2 ^ ey) by (apply Qmult_lt_0_compat; lra).
    split.
    + apply Qle_shift_div_l; [exact HB|].
      rewrite HA, Hmq; unfold B.
      setoid_replace (inject_Z q * 2 ^ e' * (inject_Z (Zpos my) * 2 ^ ey))
        with (inject_Z (Zpos my) * inject_Z q * (2 ^ e' * 2 ^ ey)) by ring.
      setoid_replace ((inject_Z (Zpos my) * inject_Z q + inject_Z r)
                      * 2 ^ e' * 2 ^ ey)
        with ((inject_Z (Zpos my) * inject_Z q + inject_Z r)
              * (2 ^ e' * 2 ^ ey)) by ring.
      apply Qmult_le_compat_r; [lra|lra].
    + apply Qle_shift_div_r; [exact HB|].
      rewrite HA, Hmq, inject_Z_plus; unfold B; change (inject_Z 1) with 1.
      setoid_replace ((inject_Z q + 1) * 2 ^ e'
                      * (inject_Z (Zpos my) * 2 ^ ey))
        with ((inject_Z (Zpos my) * inject_Z q + inject_Z (Zpos my))
              * (2 ^ e' * 2 ^ ey)) by ring.
      setoid_replace ((inject_Z (Zpos my) * inject_Z q + inject_Z r)
                      * 2 ^ e' * 2 ^ ey)
        with ((inject_Z (Zpos my) * inject_Z q + inject_Z r)
              * (2 ^ e' * 2 ^ ey)) by ring.
      apply Qmult_le_compat_r; [lra|lra].
Qed.

(** Division by a finite number other than zero: the quotient of
    magnitude at most [2^b] is finite and within [2^(b-22)] of the exact
    quotient. *)
Lemma div_error (x : spec_float) (sy : bool) (my : positive) (ey b : Z) :
  is_finite x = true ->
  - 2 ^ b <= SF2Q x / SF2Q (S754_finite sy my ey) ->
  SF2Q x / SF2Q (S754_finite sy my ey) <= 2 ^ b ->
  (-126 <= b <= 127)%Z ->
  is_finite (Binary32.div x (S754_finite sy my ey)) = true /\
  SF2Q x / SF2Q (S754_finite sy my ey) - 2 ^ (b - 22)
  <= SF2Q (Binary32.div x (S754_finite sy my ey)) /\
  SF2Q (Binary32.div x (S754_finite sy my ey))
  <= SF2Q x / SF2Q (S754_finite sy my ey) + 2 ^ (b - 22).
Proof.
  intros Hx Hlo Hhi Hrange.
  pose proof (pow2_pos (b - 22)) as Pb.
  pose proof (mantissa_pos my ey) as HB.
  destruct x as [sx|sx| |sx mx ex]; try discriminate.
  - change (Binary32.div (S754_zero sx) (S754_finite sy my ey))
      with (S754_zero (xorb sx sy)).
    split; [reflexivity|].
    change (SF2Q (S754_zero sx)) with 0 in *.
    change (SF2Q (S754_zero (xorb sx sy))) with 0.
    unfold Qdiv in *; rewrite Qmult_0_l in *; lra.
  - unfold Binary32.div; cbn [SFdiv].
    pose proof (div_core_spec mx ex my ey) as Hc.
    change (SFdiv_core_binary Binary32.prec Binary32.emax (Zpos mx) ex
              (Zpos my) ey)
      with (SFdiv_core_binary 24 128 (Zpos mx) ex (Zpos my) ey).
    destruct (SFdiv_core_binary 24 128 (Zpos mx) ex (Zpos my) ey)
      as [[q e'] l].
    cbv zeta in Hc.
    set (V := inject_Z (Zpos mx) * 2 ^ ex / (inject_Z (Zpos my) * 2 ^ ey))
      in *.
    destruct Hc as (Hq & Hnorm & Hvl & Hvh).
    assert (Hquot : SF2Q (S754_finite sx mx ex) / SF2Q (S754_finite sy my ey)
                    == (if xorb sx sy then - V else V)).
    { assert (Hne1 : ~ 2 ^ ey == 0) by (pose proof (pow2_pos ey); lra).
      assert (Hne2 : ~ inject_Z (Zpos my) == 0) by discriminate.
      unfold V; rewrite !SF2Q_finite.
      destruct sx, sy; cbn [xorb]; field; auto. }
    rewrite Hquot in *.
    assert (HV : 0 <= V).
    { apply Qle_trans with (inject_Z q * 2 ^ e'); [|exact Hvl].
      apply Qmult_le_0_compat; [|apply Qlt_le_weak, pow2_pos].
      change 0 with (inject_Z 0); rewrite <- Zle_Qle; exact Hq. }
    destruct (binary_round_aux_error (xorb sx sy) q e' l V b)
      as (a & Hfin & Hval & Ha & Hal & Hah & _); try assumption.
    + destruct (xorb sx sy); lra.
    + split; [exact Hfin|rewrite Hval].
      destruct (xorb sx sy); lra.
Qed.


Lemma Zdigits2_upper (p : positive) : (Zpos p < 2 ^ Zdigits2 (Zpos p))%Z.
Proof. rewrite Zdigits2_log2; apply Z.log2_spec; lia. Qed.

(** A valid [float] between [2^-100] and [2^100] is a positive normal
    number [m * 2^e] with [2^(e+23) <= m * 2^e <= 2^(e+24)]. *)
Lemma zoom_shape (zoom : spec_float) :
  valid_binary 24 128 zoom = true ->
  2 ^ (-100) <= SF2Q zoom -> SF2Q zoom <= 2 ^ 100 ->
  exists (m : positive) (e : Z),
    zoom = S754_finite false m e /\ Zdigits2 (Zpos m) = 24%Z /\
    (-124 <= e <= 77)%Z /\
    2 ^ (e + 23) <= SF2Q zoom /\ SF2Q zoom <= 2 ^ (e + 24).
Proof.
  intros Hvalid Hlo Hhi.
  destruct zoom as [s|s| |s m e];
    try (exfalso; revert Hlo; cbn [SF2Q]; change (2 ^ (-100))
           with (1 # 1267650600228229401496703205376);
         intros Hlo; apply Qle_not_lt in Hlo; apply Hlo; reflexivity).
  pose proof (mantissa_pos m e) as Hpos.
  destruct s.
  { exfalso; cbn [SF2Q] in Hlo; pose proof (pow2_pos (-100)); lra. }
  cbn [SF2Q] in *.
  exists m, e; split; [reflexivity|].
  cbn [valid_binary] in Hvalid; unfold bounded, canonical_mantissa in Hvalid.
  apply andb_prop in Hvalid; destruct Hvalid as [Hc _].
  apply Z.eqb_eq in Hc.
  change (Zpos (digits2_pos m)) with (Zdigits2 (Zpos m)) in Hc.
  rewrite fexp_eq in Hc.
  pose proof (digits_lower (Zpos m) e ltac:(lia)) as Hdl.
  pose proof (Zdigits2_upper m) as Hdu.
  assert (Hup : inject_Z (Zpos m) * 2 ^ e <= 2 ^ (Zdigits2 (Zpos m) + e)).
  { rewrite pow2_add, <- (pow2_Z (Zdigits2 (Zpos m))) by (cbn; lia).
    apply Qmult_le_compat_r; [|apply Qlt_le_weak, pow2_pos].
    rewrite <- Zle_Qle; lia. }
  assert (H1 : (-100 <= Zdigits2 (Zpos m) + e)%Z).
  { apply pow2_le_inv; eapply Qle_trans; [exact Hlo|exact Hup]. }
  assert (H2 : (Zdigits2 (Zpos m) - 1 + e <= 100)%Z).
  { apply pow2_le_inv; eapply Qle_trans; [exact Hdl|exact Hhi]. }
  assert (Hd : Zdigits2 (Zpos m) = 24%Z) by lia.
  rewrite Hd in *.
  split; [reflexivity|split; [lia|]].
  split.
  - replace (e + 23)%Z with (24 - 1 + e)%Z by lia; exact Hdl.
  - replace (e + 24)%Z with (24 + e)%Z by lia; exact Hup.
Qed.

End Binary32Error.

Module Binary32RoundTrip.
Import Binary32Error.
Local Open Scope Q_scope.

(** One axis of [screenToComplex]: column (or row) [g] of a window of size
    [w], with the offset [o].  [half] is the computed [w / 2.f] and [c]
    the computed coordinate; put back on the scale of the screen, [c] is
    within [7/1024] of [g + o - half]. *)
Lemma axis_forward (g w : Z) (o zoom : spec_float) :
  (-2048 <= g <= 2048)%Z -> (0 <= w <= 4096)%Z ->
  is_finite o = true -> - (2048 # 1) <= SF2Q o -> SF2Q o <= 2048 # 1 ->
  valid_binary 24 128 zoom = true ->
  2 ^ (-100) <= SF2Q zoom -> SF2Q zoom <= 2 ^ 100 ->
  let half := Binary32.div (f32 w) (f32 2) in
  let c := Binary32.div (Binary32.sub (Binary32.add (f32 g) o) half) zoom in
  is_finite half = true /\
  inject_Z w * (1 # 2) - (1 # 2048) <= SF2Q half /\
  SF2Q half <= inject_Z w * (1 # 2) + (1 # 2048) /\
  is_finite c = true /\
  inject_Z g + SF2Q o - SF2Q half - (7 # 1024) <= SF2Q c * SF2Q zoom /\
  SF2Q c * SF2Q zoom <= inject_Z g + SF2Q o - SF2Q half + (7 # 1024).
Proof.
  intros Hg Hw Ho Holo Hohi Hvalid Hzlo Hzhi.
  destruct (zoom_shape zoom Hvalid Hzlo Hzhi)
    as (mz & ez & -> & Hdz & Hez & Zlo & Zhi).
  clear Hvalid Hzlo Hzhi.
  assert (HZpos : 0 < SF2Q (S754_finite false mz ez))
    by (cbn [SF2Q]; apply mantissa_pos).
  set (Z := SF2Q (S754_finite false mz ez)) in *.
  destruct (of_int_exact g ltac:(lia)) as [Fg Vg].
  destruct (of_int_exact w ltac:(lia)) as [Fw Vw].
  assert (Bg : - (2048 # 1) <= inject_Z g /\ inject_Z g <= 2048 # 1).
  { change (2048 # 1) with (inject_Z 2048).
    rewrite <- inject_Z_opp, <- !Zle_Qle; lia. }
  assert (Bw : 0 <= inject_Z w /\ inject_Z w <= 4096 # 1).
  { change (4096 # 1) with (inject_Z 4096); change 0 with (inject_Z 0).
    rewrite <- !Zle_Qle; lia. }
  assert (E2 : f32 2 = S754_finite false 8388608 (-22))
    by (vm_compute; reflexivity).
  intros half c.
  assert (V2 : SF2Q (S754_finite false 8388608 (-22)) == 2) by reflexivity.
  assert (Hhalf : is_finite half = true /\
                  inject_Z w * (1 # 2) - (1 # 2048) <= SF2Q half /\
                  SF2Q half <= inject_Z w * (1 # 2) + (1 # 2048)).
  { unfold half; rewrite E2.
    assert (Hq : SF2Q (f32 w) / SF2Q (S754_finite false 8388608 (-22))
                 == inject_Z w * (1 # 2))
      by (rewrite Vw, V2; field).
    destruct (div_error (f32 w) false 8388608 (-22) 11 Fw)
      as (Hf & Hl & Hh).
    - rewrite Hq; change (2 ^ 11) with (2048 # 1); lra.
    - rewrite Hq; change (2 ^ 11) with (2048 # 1); lra.
    - lia.
    - rewrite Hq in Hl, Hh; change (2 ^ (11 - 22)) with (1 # 2048) in Hl, Hh.
      split; [exact Hf|split; lra]. }
  destruct Hhalf as (Fh & Hhlo & Hhhi).
  set (hv := SF2Q half) in *.
  (* t1 = g + o *)
  destruct (add_error (f32 g) o 12 Fg Ho) as (F1 & L1 & U1).
  { rewrite Vg; change (2 ^ 12) with (4096 # 1); lra. }
  { rewrite Vg; change (2 ^ 12) with (4096 # 1); lra. }
  { lia. }
  rewrite Vg in L1, U1; change (2 ^ (12 - 22)) with (1 # 1024) in L1, U1.
  set (t1 := Binary32.add (f32 g) o) in *.
  (* t2 = t1 - half *)
  destruct (sub_error t1 half 13 F1 Fh) as (F2 & L2 & U2).
  { fold hv; change (2 ^ 13) with (8192 # 1); lra. }
  { fold hv; change (2 ^ 13) with (8192 # 1); lra. }
  { lia. }
  fold hv in L2, U2; change (2 ^ (13 - 22)) with (1 # 512) in L2, U2.
  set (t2 := Binary32.sub t1 half) in *.
  set (tv := SF2Q t2) in *.
  (* c = t2 / zoom *)
  pose proof (pow2_pos (-10 - ez)) as Pb.
  pose proof (pow2_pos (-10 - ez - 22)) as Pe.
  assert (C1 : 2 ^ (-10 - ez) * 2 ^ (ez + 23) == 8192 # 1).
  { rewrite <- pow2_add.
    replace (-10 - ez + (ez + 23))%Z with 13%Z by lia; reflexivity. }
  assert (C2 : 2 ^ (-10 - ez - 22) * 2 ^ (ez + 24) == 1 # 256).
  { rewrite <- pow2_add.
    replace (-10 - ez - 22 + (ez + 24))%Z with (-8)%Z by lia; reflexivity. }
  assert (M1 : 2 ^ (-10 - ez) * 2 ^ (ez + 23) <= 2 ^ (-10 - ez) * Z)
    by (apply Qmult_le_l; [exact Pb|exact Zlo]).
  assert (M2 : 2 ^ (-10 - ez - 22) * Z
               <= 2 ^ (-10 - ez - 22) * 2 ^ (ez + 24))
    by (apply Qmult_le_l; [exact Pe|exact Zhi]).
  destruct (div_error t2 false mz ez (-10 - ez) F2) as (Fc & Lc & Uc).
  { fold Z tv; apply Qle_shift_div_l; [exact HZpos|lra]. }
  { fold Z tv; apply Qle_shift_div_r; [exact HZpos|lra]. }
  { lia. }
  fold Z tv in Lc, Uc; fold c in Fc, Lc, Uc.
  set (cv := SF2Q c) in *.
  assert (Hq : tv / Z * Z == tv) by (field; lra).
  set (q := tv / Z) in *.
  assert (Lc' : (q - 2 ^ (-10 - ez - 22)) * Z <= cv * Z)
    by (apply Qmult_le_compat_r; [exact Lc|lra]).
  assert (Uc' : cv * Z <= (q + 2 ^ (-10 - ez - 22)) * Z)
    by (apply Qmult_le_compat_r; [exact Uc|lra]).
  split; [exact Fh|split; [exact Hhlo|split; [exact Hhhi|]]].
  split; [exact Fc|split; lra].
Qed.

(** One axis of [orbitVertex]: a coordinate [c] that stands, on the scale
    of the screen, for a point within the window and its offset is drawn
    within [5/1024] of [c * zoom + half - o]. *)
Lemma axis_backward (c half o zoom : spec_float) :
  is_finite c = true -> is_finite half = true -> is_finite o = true ->
  valid_binary 24 128 zoom = true ->
  2 ^ (-100) <= SF2Q zoom -> SF2Q zoom <= 2 ^ 100 ->
  - (8191 # 1) <= SF2Q c * SF2Q zoom -> SF2Q c * SF2Q zoom <= 8191 # 1 ->
  - (8191 # 1) <= SF2Q c * SF2Q zoom + SF2Q half ->
  SF2Q c * SF2Q zoom + SF2Q half <= 8191 # 1 ->
  - (4095 # 1) <= SF2Q c * SF2Q zoom + SF2Q half - SF2Q o ->
  SF2Q c * SF2Q zoom + SF2Q half - SF2Q o <= 4095 # 1 ->
  let back := Binary32.sub (Binary32.add (Binary32.mul c zoom) half) o in
  is_finite back = true /\
  SF2Q c * SF2Q zoom + SF2Q half - SF2Q o - (5 # 1024) <= SF2Q back /\
  SF2Q back <= SF2Q c * SF2Q zoom + SF2Q half - SF2Q o + (5 # 1024).
Proof.
  intros Fc Fh Ho Hvalid Hzlo Hzhi B1 B2 B3 B4 B5 B6.
  destruct (zoom_shape zoom Hvalid Hzlo Hzhi)
    as (mz & ez & -> & Hdz & Hez & Zlo & Zhi).
  clear Hvalid Hzlo Hzhi Zlo Zhi.
  set (Z := SF2Q (S754_finite false mz ez)) in *.
  set (cv := SF2Q c) in *.
  set (hv := SF2Q half) in *.
  intros back.
  destruct (mul_error c false mz ez 13 Fc Hdz) as (F3 & L3 & U3).
  { fold Z cv; change (2 ^ 13) with (8192 # 1); lra. }
  { fold Z cv; change (2 ^ 13) with (8192 # 1); lra. }
  { lia. }
  fold Z cv in L3, U3; change (2 ^ (13 - 22)) with (1 # 512) in L3, U3.
  set (u1 := Binary32.mul c (S754_finite false mz ez)) in *.
  destruct (add_error u1 half 13 F3 Fh) as (F4 & L4 & U4).
  { fold hv; change (2 ^ 13) with (8192 # 1); lra. }
  { fold hv; change (2 ^ 13) with (8192 # 1); lra. }
  { lia. }
  fold hv in L4, U4; change (2 ^ (13 - 22)) with (1 # 512) in L4, U4.
  set (u2 := Binary32.add u1 half) in *.
  destruct (sub_error u2 o 12 F4 Ho) as (F5 & L5 & U5).
  { change (2 ^ 12) with (4096 # 1); lra. }
  { change (2 ^ 12) with (4096 # 1); lra. }
  { lia. }
  change (2 ^ (12 - 22)) with (1 # 1024) in L5, U5.
  fold back in F5, L5, U5.
  split; [exact F5|split; lra].
Qed.

(** The round trip along one axis. *)
Lemma axis_round_trip (g w : Z) (o zoom : spec_float) :
  (-2048 <= g <= 2048)%Z -> (0 <= w <= 4096)%Z ->
  is_finite o = true -> - (2048 # 1) <= SF2Q o -> SF2Q o <= 2048 # 1 ->
  valid_binary 24 128 zoom = true ->
  2 ^ (-100) <= SF2Q zoom -> SF2Q zoom <= 2 ^ 100 ->
  let half := Binary32.div (f32 w) (f32 2) in
  let c := Binary32.div (Binary32.sub (Binary32.add (f32 g) o) half) zoom in
  let back := Binary32.sub (Binary32.add (Binary32.mul c zoom) half) o in
  is_finite back = true /\
  inject_Z g - (1 # 64) <= SF2Q back /\ SF2Q back <= inject_Z g + (1 # 64).
Proof.
  intros Hg Hw Ho Holo Hohi Hvalid Hzlo Hzhi half c back.
  destruct (axis_forward g w o zoom Hg Hw Ho Holo Hohi Hvalid Hzlo Hzhi)
    as (Fh & Hl & Hh & Fc & Lc & Uc).
  fold half in Fh, Hl, Hh, Lc, Uc; fold c in Fc, Lc, Uc.
  assert (Bg : - (2048 # 1) <= inject_Z g /\ inject_Z g <= 2048 # 1).
  { change (2048 # 1) with (inject_Z 2048).
    rewrite <- inject_Z_opp, <- !Zle_Qle; lia. }
  assert (Bw : 0 <= inject_Z w /\ inject_Z w <= 4096 # 1).
  { change (4096 # 1) with (inject_Z 4096); change 0 with (inject_Z 0).
    rewrite <- !Zle_Qle; lia. }
  destruct (axis_backward c half o zoom Fc Fh Ho Hvalid Hzlo Hzhi)
    as (Fb & Lb & Ub); try lra.
  fold back in Fb, Lb, Ub.
  split; [exact Fb|split; lra].
Qed.

End Binary32RoundTrip.

(** ** The viewport mapper in binary32 *)

Section MapperInBinary32.
Import Binary32Error Binary32RoundTrip.
Local Open Scope Q_scope.

Lemma Qabs_within (x y t : Q) : y - t <= x -> x <= y + t -> Qabs (x - y) <= t.
Proof. intros H1 H2; apply Qabs_Qle_condition; split; lra. Qed.

Lemma Q_bounds (n lo hi : Z) :
  (lo <= n <= hi)%Z -> inject_Z lo <= inject_Z n /\ inject_Z n <= inject_Z hi.
Proof. intros H; rewrite <- !Zle_Qle; exact H. Qed.

(** C7.  [screenToComplex] returns the point the specification writes,
    [((gx + offset.x - W/2) / zoom, (gy + offset.y - H/2) / zoom)], with the
    operations of the arithmetic in use: in every arithmetic its result is
    [toComplex] of the same arguments.  In binary32, where each operation
    rounds, for a view in the stated range both parts are finite and, taken
    back to the scale of the screen, within 1/128 of a pixel of the exact
    value.  In exact arithmetic the result is the exact value. *)
Theorem screenToComplex_computes_toComplex (gx gy : Z) (zoom : spec_float)
    (offset : Vector2f spec_float) (W H : Z) :
  (-2048 <= gx <= 2048)%Z -> (-2048 <= gy <= 2048)%Z ->
  (0 <= W <= 4096)%Z -> (0 <= H <= 4096)%Z ->
  is_finite (vx offset) = true -> is_finite (vy offset) = true ->
  - (2048 # 1) <= SF2Q (vx offset) <= 2048 # 1 ->
  - (2048 # 1) <= SF2Q (vy offset) <= 2048 # 1 ->
  valid_binary 24 128 zoom = true ->
  2 ^ (-100) <= SF2Q zoom <= 2 ^ 100 ->
  let c := screenToComplex gx gy zoom offset W H in
  (forall (F : Type) (FA : FloatArith F) (x y : Z) (z : F) (o : Vector2f F)
          (w h : Z),
     screenToComplex x y z o w h
     = toComplex x y
         {| zoom := z; offset := o; gridWidth := w; gridHeight := h |}) /\
  is_finite (real c) = true /\ is_finite (imag c) = true /\
  Qabs (SF2Q (real c) * SF2Q zoom
        - (inject_Z gx + SF2Q (vx offset) - inject_Z W / 2)) <= 1 # 128 /\
  Qabs (SF2Q (imag c) * SF2Q zoom
        - (inject_Z gy + SF2Q (vy offset) - inject_Z H / 2)) <= 1 # 128 /\
  (forall (zq : Q) (oq : Vector2f Q), 0 < zq ->
     real (screenToComplex gx gy zq oq W H)
     == (inject_Z gx + vx oq - inject_Z W / 2) / zq /\
     imag (screenToComplex gx gy zq oq W H)
     == (inject_Z gy + vy oq - inject_Z H / 2) / zq).
Proof.
  intros Hgx Hgy HW HH Fox Foy [Hoxl Hoxh] [Hoyl Hoyh] Hvalid [Hzl Hzh] c.
  split; [reflexivity|].
  destruct (axis_forward gx W (vx offset) zoom Hgx HW Fox Hoxl Hoxh Hvalid
              Hzl Hzh) as (_ & Hl & Hh & Fc & Lc & Uc).
  destruct (axis_forward gy H (vy offset) zoom Hgy HH Foy Hoyl Hoyh Hvalid
              Hzl Hzh) as (_ & Hl' & Hh' & Fc' & Lc' & Uc').
  split; [exact Fc|split; [exact Fc'|]].
  split; [|split].
  - apply Qabs_within.
    + eapply Qle_trans; [|exact Lc]; unfold Qdiv; change (/ 2) with (1 # 2);
        lra.
    + eapply Qle_trans; [exact Uc|]; unfold Qdiv; change (/ 2) with (1 # 2);
        lra.
  - apply Qabs_within.
    + eapply Qle_trans; [|exact Lc']; unfold Qdiv; change (/ 2) with (1 # 2);
        lra.
    + eapply Qle_trans; [exact Uc'|]; unfold Qdiv; change (/ 2) with (1 # 2);
        lra.
  - intros zq oq Hz; exact (screenToComplex_affine gx gy zq oq W H Hz).
Qed.

(** C9.  Mapping a grid coordinate to the complex plane and drawing the
    point gives the coordinate back, within a tolerance, in a range of
    views: in binary32, for coordinates and offsets up to 2048, a window of
    up to 4096 and a valid zoom between [2^-100] and [2^100], both
    coordinates come back finite and within 1/64 of a pixel.  In exact
    arithmetic and for a positive zoom they come back exactly. *)
Theorem screen_round_trip_within_tolerance (gx gy : Z) (zoom : spec_float)
    (offset : Vector2f spec_float) (W H : Z) :
  (-2048 <= gx <= 2048)%Z -> (-2048 <= gy <= 2048)%Z ->
  (0 <= W <= 4096)%Z -> (0 <= H <= 4096)%Z ->
  is_finite (vx offset) = true -> is_finite (vy offset) = true ->
  - (2048 # 1) <= SF2Q (vx offset) <= 2048 # 1 ->
  - (2048 # 1) <= SF2Q (vy offset) <= 2048 # 1 ->
  valid_binary 24 128 zoom = true ->
  2 ^ (-100) <= SF2Q zoom <= 2 ^ 100 ->
  let back :=
    orbitVertex (screenToComplex gx gy zoom offset W H) zoom offset W H in
  is_finite (vx back) = true /\ is_finite (vy back) = true /\
  Qabs (SF2Q (vx back) - inject_Z gx) <= 1 # 64 /\
  Qabs (SF2Q (vy back) - inject_Z gy) <= 1 # 64 /\
  (forall (zq : Q) (oq : Vector2f Q), 0 < zq ->
     vx (orbitVertex (screenToComplex gx gy zq oq W H) zq oq W H)
     == inject_Z gx /\
     vy (orbitVertex (screenToComplex gx gy zq oq W H) zq oq W H)
     == inject_Z gy).
Proof.
  intros Hgx Hgy HW HH Fox Foy [Hoxl Hoxh] [Hoyl Hoyh] Hvalid [Hzl Hzh] back.
  destruct (axis_round_trip gx W (vx offset) zoom Hgx HW Fox Hoxl Hoxh Hvalid
              Hzl Hzh) as (Fb & Lb & Ub).
  destruct (axis_round_trip gy H (vy offset) zoom Hgy HH Foy Hoyl Hoyh Hvalid
              Hzl Hzh) as (Fb' & Lb' & Ub').
  split; [exact Fb|split; [exact Fb'|]].
  split; [apply Qabs_within; [exact Lb|exact Ub]|].
  split; [apply Qabs_within; [exact Lb'|exact Ub']|].
  intros zq oq Hz; exact (screen_round_trip gx gy zq oq W H Hz).
Qed.

(** X11.  Alt-drag in binary32, for positions and offsets of up to about a
    thousand pixels and a valid zoom between [2^-100] and [2^100]: after a
    left press with Alt at one mouse position and a drag step with Alt held
    at another, the zoom is unchanged and the point of the complex plane
    under the mouse is, on the scale of the screen, within 1/64 of a pixel
    of the point that was under the mouse at the press. *)
Theorem drag_keeps_grabbed_point (zoomFactor : spec_float) (W H : Z)
    (d0 d1 : Devices) (s : @App spec_float) :
  altPressed d0 = true -> altPressed d1 = true ->
  (0 <= ix (mouse d0) <= 1024)%Z -> (0 <= iy (mouse d0) <= 1024)%Z ->
  (0 <= ix (mouse d1) <= 1024)%Z -> (0 <= iy (mouse d1) <= 1024)%Z ->
  (0 <= W <= 4096)%Z -> (0 <= H <= 4096)%Z ->
  is_finite (vx (st_offset s)) = true ->
  is_finite (vy (st_offset s)) = true ->
  - (1000 # 1) <= SF2Q (vx (st_offset s)) <= 1000 # 1 ->
  - (1000 # 1) <= SF2Q (vy (st_offset s)) <= 1000 # 1 ->
  valid_binary 24 128 (st_zoom s) = true ->
  2 ^ (-100) <= SF2Q (st_zoom s) <= 2 ^ 100 ->
  let pressed := fst (handleEvent zoomFactor W H
                        (MouseButtonPressed LeftButton) d0 s) in
  let dragged := dragStep d1 pressed in
  let grabbed := screenToComplex (ix (mouse d0)) (iy (mouse d0))
                   (st_zoom s) (st_offset s) W H in
  let held := screenToComplex (ix (mouse d1)) (iy (mouse d1))
                (st_zoom dragged) (st_offset dragged) W H in
  st_zoom dragged = st_zoom s /\
  is_finite (real held) = true /\ is_finite (imag held) = true /\
  Qabs ((SF2Q (real held) - SF2Q (real grabbed)) * SF2Q (st_zoom s))
  <= 1 # 64 /\
  Qabs ((SF2Q (imag held) - SF2Q (imag grabbed)) * SF2Q (st_zoom s))
  <= 1 # 64.
Proof.
  intros H0 H1 Hx0 Hy0 Hx1 Hy1 HW HH Fox Foy [Hoxl Hoxh] [Hoyl Hoyh] Hvalid
    [Hzl Hzh] pressed dragged grabbed held.
  assert (Ed : dragged
               = setView (st_zoom s)
                   (Vec2 (Binary32.sub (vx (st_offset s))
                            (f32 (ix (mouse d1) - ix (mouse d0))))
                         (Binary32.sub (vy (st_offset s))
                            (f32 (iy (mouse d1) - iy (mouse d0)))))
                   (setDrag true (mouse d0) (st_offset s) s)).
  { unfold dragged, pressed; cbn [handleEvent]; rewrite H0; cbn [fst].
    unfold dragStep; cbn [setDrag st_dragging andb]; rewrite H1.
    reflexivity. }
  assert (Ez : st_zoom dragged = st_zoom s) by (rewrite Ed; reflexivity).
  split; [exact Ez|].
  assert (Haxis : forall (m0 m1 w : Z) (o : spec_float),
            (0 <= m0 <= 1024)%Z -> (0 <= m1 <= 1024)%Z -> (0 <= w <= 4096)%Z ->
            is_finite o = true -> - (1000 # 1) <= SF2Q o -> SF2Q o <= 1000 # 1 ->
            let half := Binary32.div (f32 w) (f32 2) in
            let o' := Binary32.sub o (f32 (m1 - m0)) in
            let g := Binary32.div
                       (Binary32.sub (Binary32.add (f32 m0) o) half)
                       (st_zoom s) in
            let h := Binary32.div
                       (Binary32.sub (Binary32.add (f32 m1) o') half)
                       (st_zoom s) in
            is_finite h = true /\
            Qabs ((SF2Q h - SF2Q g) * SF2Q (st_zoom s)) <= 1 # 64).
  { intros m0 m1 w o Hm0 Hm1 Hw Fo Hol Hoh half o' g h.
    destruct (of_int_exact (m1 - m0) ltac:(lia)) as [Fd Vd].
    destruct (Q_bounds (m1 - m0) (-1024) 1024 ltac:(lia)) as [Dl Dh].
    change (inject_Z (-1024)) with (- (1024 # 1)) in Dl.
    change (inject_Z 1024) with (1024 # 1) in Dh.
    destruct (sub_error o (f32 (m1 - m0)) 12 Fo Fd) as (Fo' & Lo' & Uo').
    { rewrite Vd; change (2 ^ 12) with (4096 # 1); lra. }
    { rewrite Vd; change (2 ^ 12) with (4096 # 1); lra. }
    { lia. }
    rewrite Vd in Lo', Uo'; change (2 ^ (12 - 22)) with (1 # 1024) in Lo', Uo'.
    fold o' in Fo', Lo', Uo'.
    unfold Z.sub in Lo', Uo'; rewrite inject_Z_plus, inject_Z_opp in Lo', Uo'.
    destruct (Q_bounds m0 0 1024 Hm0) as [M0l M0h].
    destruct (Q_bounds m1 0 1024 Hm1) as [M1l M1h].
    change (inject_Z 0) with 0 in M0l, M1l.
    change (inject_Z 1024) with (1024 # 1) in M0h, M1h.
    destruct (axis_forward m0 w o (st_zoom s) ltac:(lia) Hw Fo
                ltac:(lra) ltac:(lra) Hvalid Hzl Hzh)
      as (_ & _ & _ & Fg & Lg & Ug).
    destruct (axis_forward m1 w o' (st_zoom s) ltac:(lia) Hw Fo'
                ltac:(lra) ltac:(lra) Hvalid Hzl Hzh)
      as (_ & _ & _ & Fh & Lh & Uh).
    fold half in Lg, Ug, Lh, Uh; fold g in Fg, Lg, Ug; fold h in Fh, Lh, Uh.
    split; [exact Fh|].
    apply Qabs_Qle_condition; split; lra. }
  destruct (Haxis (ix (mouse d0)) (ix (mouse d1)) W (vx (st_offset s))
              Hx0 Hx1 HW Fox Hoxl Hoxh) as [Fx Ax].
  destruct (Haxis (iy (mouse d0)) (iy (mouse d1)) H (vy (st_offset s))
              Hy0 Hy1 HH Foy Hoyl Hoyh) as [Fy Ay].
  unfold held; rewrite Ez, Ed.
  split; [exact Fx|split; [exact Fy|split; [exact Ax|exact Ay]]].
Qed.
End MapperInBinary32.

Lemma screenToComplex_computes_toComplex_witness :
  let origin := Vec2 (f32 0) (f32 0) in
  let c := screenToComplex 500 400 (f32 250) origin width height in
  valid_binary 24 128 (f32 250) = true /\
  (2 ^ (-100) <= SF2Q (f32 250) <= 2 ^ 100)%Q /\
  is_finite (real c) = true /\ is_finite (imag c) = true /\
  (Qabs (SF2Q (real c) * SF2Q (f32 250)
         - (inject_Z 500 + SF2Q (vx origin) - inject_Z width / 2))
   <= 1 # 128)%Q /\
  (Qabs (SF2Q (imag c) * SF2Q (f32 250)
         - (inject_Z 400 + SF2Q (vy origin) - inject_Z height / 2))
   <= 1 # 128)%Q.
Proof.
  intros origin c.
  assert (Hgx : (-2048 <= 500 <= 2048)%Z) by lia.
  assert (Hgy : (-2048 <= 400 <= 2048)%Z) by lia.
  assert (HW : (0 <= width <= 4096)%Z) by (unfold width; lia).
  assert (HH : (0 <= height <= 4096)%Z) by (unfold height; lia).
  assert (Fo : is_finite (f32 0) = true) by reflexivity.
  assert (Bo : (- (2048 # 1) <= SF2Q (f32 0) <= 2048 # 1)%Q)
    by (split; vm_compute; discriminate).
  assert (Hv : valid_binary 24 128 (f32 250) = true)
    by (vm_compute; reflexivity).
  assert (Hz : (2 ^ (-100) <= SF2Q (f32 250) <= 2 ^ 100)%Q)
    by (split; vm_compute; discriminate).
  split; [exact Hv|split; [exact Hz|]].
  destruct (screenToComplex_computes_toComplex 500 400 (f32 250) origin
              width height Hgx Hgy HW HH Fo Fo Bo Bo Hv Hz)
    as (_ & F1 & F2 & A1 & A2 & _).
  split; [exact F1|split; [exact F2|split; [exact A1|exact A2]]].
Defined.

Lemma screen_round_trip_within_tolerance_witness :
  let origin := Vec2 (f32 0) (f32 0) in
  let back :=
    orbitVertex (screenToComplex 500 400 (f32 250) origin width height)
      (f32 250) origin width height in
  valid_binary 24 128 (f32 250) = true /\
  (2 ^ (-100) <= SF2Q (f32 250) <= 2 ^ 100)%Q /\
  is_finite (vx back) = true /\ is_finite (vy back) = true /\
  (Qabs (SF2Q (vx back) - inject_Z 500) <= 1 # 64)%Q /\
  (Qabs (SF2Q (vy back) - inject_Z 400) <= 1 # 64)%Q.
Proof.
  intros origin back.
  assert (Hgx : (-2048 <= 500 <= 2048)%Z) by lia.
  assert (Hgy : (-2048 <= 400 <= 2048)%Z) by lia.
  assert (HW : (0 <= width <= 4096)%Z) by (unfold width; lia).
  assert (HH : (0 <= height <= 4096)%Z) by (unfold height; lia).
  assert (Fo : is_finite (f32 0) = true) by reflexivity.
  assert (Bo : (- (2048 # 1) <= SF2Q (f32 0) <= 2048 # 1)%Q)
    by (split; vm_compute; discriminate).
  assert (Hv : valid_binary 24 128 (f32 250) = true)
    by (vm_compute; reflexivity).
  assert (Hz : (2 ^ (-100) <= SF2Q (f32 250) <= 2 ^ 100)%Q)
    by (split; vm_compute; discriminate).
  split; [exact Hv|split; [exact Hz|]].
  destruct (screen_round_trip_within_tolerance 500 400 (f32 250) origin
              width height Hgx Hgy HW HH Fo Fo Bo Bo Hv Hz)
    as (F1 & F2 & A1 & A2 & _).
  split; [exact F1|split; [exact F2|split; [exact A1|exact A2]]].
Defined.

(** The round trip of C9 is lost in views the program reaches.  Seven
    hundred notches of the wheel, turned down with the mouse at the centre
    of the window, take the initial view to the zoom [2^-148] with the
    offset still [(0, 0)]; there pixel [(500, 400)] comes back as
    [(+inf, +inf)].  At the initial zoom and the offset [2^25], where
    [float]s are 4 apart, column 501 comes back as column 500. *)
Lemma screen_round_trip_is_lost :
  let origin := Vec2 (f32 0) (f32 0) in
  let tiny := S754_finite false 2 (-149) in
  let back gx gy zoom off :=
    orbitVertex (screenToComplex gx gy zoom off width height) zoom off
      width height in
  wheelEvents 700 zoomFactor width height 400 300 (fneg (f32 1))
    (f32 250, origin) = (tiny, origin) /\
  flt (f32 0) tiny = true /\
  back 500%Z 400%Z tiny origin
  = Vec2 (S754_infinity false) (S754_infinity false) /\
  flt (f32 0) (f32 250) = true /\
  back 501%Z 400%Z (f32 250) (Vec2 (f32 (2 ^ 25)) (f32 0))
  = Vec2 (f32 500) (f32 400).
Proof.
  intros origin tiny back.
  split; [vm_compute; reflexivity|].
  split; [vm_compute; reflexivity|].
  split; [vm_compute; reflexivity|].
  split; vm_compute; reflexivity.
Qed.

Lemma drag_keeps_grabbed_point_witness :
  let d0 := {| mouse := Vec2i 500 400; altPressed := true;
               jPressed := false; leftPressed := true |} in
  let d1 := {| mouse := Vec2i 430 380; altPressed := true;
               jPressed := false; leftPressed := true |} in
  let s := {| st_open := true; st_zoom := f32 250;
              st_offset := Vec2 (f32 10) (f32 (-5));
              st_fractalImage := []; st_juliaMode := false;
              st_juliaC := c32 0 0; st_formulaIndex := 0;
              st_lastPeriod := (-1)%Z; st_needsUpdate := false;
              st_dragging := false; st_lastMousePos := Vec2i 0 0;
              st_dragStartOffset := Vec2 (f32 0) (f32 0);
              st_mousePeriod := (-1)%Z; st_mouseOrbit := [] |} in
  let pressed := fst (handleEvent zoomFactor width height
                        (MouseButtonPressed LeftButton) d0 s) in
  let dragged := dragStep d1 pressed in
  let grabbed := screenToComplex (ix (mouse d0)) (iy (mouse d0))
                   (st_zoom s) (st_offset s) width height in
  let held := screenToComplex (ix (mouse d1)) (iy (mouse d1))
                (st_zoom dragged) (st_offset dragged) width height in
  altPressed d0 = true /\ altPressed d1 = true /\
  valid_binary 24 128 (st_zoom s) = true /\
  st_zoom dragged = st_zoom s /\
  is_finite (real held) = true /\ is_finite (imag held) = true /\
  (Qabs ((SF2Q (real held) - SF2Q (real grabbed)) * SF2Q (st_zoom s))
   <= 1 # 64)%Q /\
  (Qabs ((SF2Q (imag held) - SF2Q (imag grabbed)) * SF2Q (st_zoom s))
   <= 1 # 64)%Q.
Proof.
  intros d0 d1 s.
  assert (H0 : altPressed d0 = true) by reflexivity.
  assert (H1 : altPressed d1 = true) by reflexivity.
  assert (Hx0 : (0 <= ix (mouse d0) <= 1024)%Z) by (cbn; lia).
  assert (Hy0 : (0 <= iy (mouse d0) <= 1024)%Z) by (cbn; lia).
  assert (Hx1 : (0 <= ix (mouse d1) <= 1024)%Z) by (cbn; lia).
  assert (Hy1 : (0 <= iy (mouse d1) <= 1024)%Z) by (cbn; lia).
  assert (HW : (0 <= width <= 4096)%Z) by (unfold width; lia).
  assert (HH : (0 <= height <= 4096)%Z) by (unfold height; lia).
  assert (Fox : is_finite (vx (st_offset s)) = true) by reflexivity.
  assert (Foy : is_finite (vy (st_offset s)) = true) by reflexivity.
  assert (Box : (- (1000 # 1) <= SF2Q (vx (st_offset s)) <= 1000 # 1)%Q)
    by (split; vm_compute; discriminate).
  assert (Boy : (- (1000 # 1) <= SF2Q (vy (st_offset s)) <= 1000 # 1)%Q)
    by (split; vm_compute; discriminate).
  assert (Hv : valid_binary 24 128 (st_zoom s) = true)
    by (vm_compute; reflexivity).
  assert (Hz : (2 ^ (-100) <= SF2Q (st_zoom s) <= 2 ^ 100)%Q)
    by (split; vm_compute; discriminate).
  intros pressed dragged grabbed held.
  split; [exact H0|split; [exact H1|split; [exact Hv|]]].
  exact (drag_keeps_grabbed_point zoomFactor width height d0 d1 s H0 H1
           Hx0 Hy0 Hx1 Hy1 HW HH Fox Foy Box Boy Hv Hz).
Defined.

Lemma exhausted_trace_is_separated_witness :
  let c := screenToComplex 475 375 (f32 250) (Vec2 (f32 0) (f32 0))
             width height in
  exists t,
    traceOrbit c c 0 3 = Some t /\
    classify t = Exhausted /\
    exists f, nth_error formulas 0 = Some f /\
      mouseOrbit t = map (orbit_point f c c) (seq 0 3) /\
      forall i, i < 3 ->
        escaped (orbit_point f c c i) = false /\
        forall j, j < i ->
          near (orbit_point f c c i) (orbit_point f c c j) = false.
Proof.
  intros c.
  eexists.
  match goal with
  | |- ?A /\ ?B /\ _ =>
      assert (H1 : A) by (vm_compute; reflexivity);
      assert (H2 : B) by reflexivity
  end.
  split; [exact H1|split; [exact H2|]].
  exact (exhausted_trace_is_separated c c 0 3 _ H1 H2).
Defined.

(** ** The wheel handler in binary32 *)

Module Binary32Wheel.
Import Binary32Error Binary32RoundTrip.
Local Open Scope Q_scope.

Lemma Zdigits2_log2_Z (m : Z) :
  (1 <= m)%Z -> Zdigits2 m = (Z.log2 m + 1)%Z.
Proof. destruct m as [|p|p]; try lia; intros _; apply Zdigits2_log2. Qed.

Lemma Zdigits2_div (m n : Z) :
  (0 <= n)%Z -> (2 ^ n <= m)%Z -> Zdigits2 (m / 2 ^ n) = (Zdigits2 m - n)%Z.
Proof.
  intros Hn Hm.
  assert (Hp : (0 < 2 ^ n)%Z) by (apply Z.pow_pos_nonneg; lia).
  assert (H1 : (1 <= m / 2 ^ n)%Z) by (apply Z.div_le_lower_bound; lia).
  rewrite !Zdigits2_log2_Z by lia.
  rewrite <- Z.shiftr_div_pow2, Z.log2_shiftr by lia.
  assert (n <= Z.log2 m)%Z by (apply Z.log2_le_pow2; lia).
  lia.
Qed.

Lemma Zdigits2_mono (a b : Z) :
  (0 <= a <= b)%Z -> (Zdigits2 a <= Zdigits2 b)%Z.
Proof.
  intros [Ha Hb].
  destruct (Z.eq_dec a 0) as [->|Hn].
  - destruct b; cbn; lia.
  - rewrite !Zdigits2_log2_Z by lia.
    pose proof (Z.log2_le_mono a b Hb); lia.
Qed.

(** What [binary_round_aux] returns is a number of the format. *)
Lemma binary_round_aux_valid (sx : bool) (m e : Z) (l : location) :
  (0 <= m)%Z -> (e <= fexp 24 128 (Zdigits2 m + e))%Z ->
  valid_binary 24 128 (binary_round_aux 24 128 sx m e l) = true.
Proof.
  intros Hm Hnorm.
  destruct (binary_round_aux_steps sx m e l Hm)
    as (m1 & m2 & m3 & E1 & E3 & HE1 & Hm1 & Hm2 & _ & HE3 & Hm3 & Hr).
  rewrite Hr; clear Hr.
  assert (Hcanon : (1 <= m3)%Z -> fexp 24 128 (Zdigits2 m3 + E3) = E3).
  { intros H3.
    rewrite fexp_eq in *.
    assert (HE1e : (e <= E1)%Z) by lia.
    assert (Hp1 : (0 < 2 ^ (E1 - e))%Z) by (apply Z.pow_pos_nonneg; lia).
    assert (Hm1' : (0 <= m1)%Z) by (rewrite Hm1; apply Z.div_pos; lia).
    assert (Hm2' : (0 <= m2)%Z) by lia.
    assert (HE31 : (E1 <= E3)%Z) by lia.
    assert (Hp3 : (0 < 2 ^ (E3 - E1))%Z) by (apply Z.pow_pos_nonneg; lia).
    assert (Hm2ge : (2 ^ (E3 - E1) <= m2)%Z).
    { destruct (Z_lt_le_dec m2 (2 ^ (E3 - E1))) as [Hlt|Hge]; [|exact Hge].
      rewrite Z.div_small in Hm3 by lia; lia. }
    assert (Hd3 : (Zdigits2 m3 + E3 = Zdigits2 m2 + E1)%Z).
    { rewrite Hm3, Zdigits2_div by lia; lia. }
    rewrite Hd3.
    destruct (Z.eq_dec m1 0) as [Hz|Hnz].
    - (* the first shift left nothing: the exponent is the smallest one *)
      assert (Hm21 : m2 = 1%Z) by lia.
      assert (HE1min : E1 = (-149)%Z).
      { destruct (Z.eq_dec m 0) as [Hm0|Hm0].
        - rewrite Hm0 in *; cbn [Zdigits2] in *; lia.
        - pose proof (Binary32Zoom.Zdigits2_lower m ltac:(lia)) as Hlow.
          destruct (Z_lt_le_dec m (2 ^ (E1 - e))) as [Hlt|Hge];
            [|assert (1 <= m / 2 ^ (E1 - e))%Z
                by (apply Z.div_le_lower_bound; lia); lia].
          destruct (Z_le_gt_dec E1 (-149)) as [Hle'|Hgt]; [lia|].
          assert (HEq : (E1 - e = Zdigits2 m - 24)%Z) by lia.
          assert (2 ^ (E1 - e) <= 2 ^ (Zdigits2 m - 1))%Z
            by (apply Z.pow_le_mono_r; lia).
          lia. }
      rewrite Hm21 in *; cbn [Zdigits2 digits2_pos] in *; lia.
    - assert (Hmge : (2 ^ (E1 - e) <= m)%Z).
      { destruct (Z_lt_le_dec m (2 ^ (E1 - e))) as [Hlt|Hge]; [|exact Hge].
        rewrite Z.div_small in Hm1 by lia; lia. }
      assert (Hd1 : (Zdigits2 m1 + E1 = Zdigits2 m + e)%Z).
      { rewrite Hm1, Zdigits2_div by lia; lia. }
      pose proof (Zdigits2_mono m1 m2 ltac:(lia)) as Hmono.
      lia. }
  clear Hm3.
  destruct m3 as [|p|p]; try reflexivity.
  destruct (E3 <=? 128 - 24)%Z eqn:Hle; [|reflexivity].
  cbn [valid_binary]; unfold bounded, canonical_mantissa.
  rewrite Hle, andb_true_r; apply Z.eqb_eq.
  apply Hcanon; lia.
Qed.

Lemma SF2Q_neg (x : spec_float) : SF2Q (Binary32.neg x) == - SF2Q x.
Proof. destruct x as [s|s| |[|] m e]; cbn; ring. Qed.

Lemma is_finite_neg (x : spec_float) :
  is_finite (Binary32.neg x) = is_finite x.
Proof. destruct x; reflexivity. Qed.

(** [zoom * zoomFactor] and [zoom / zoomFactor] are numbers of the
    format. *)
Lemma mul_valid (sx : bool) (mx : positive) (ex : Z) (sy : bool)
    (my : positive) (ey : Z) :
  Zdigits2 (Zpos my) = 24%Z ->
  valid_binary 24 128
    (Binary32.mul (S754_finite sx mx ex) (S754_finite sy my ey)) = true.
Proof.
  intros Hd; unfold Binary32.mul; cbn [SFmul].
  apply binary_round_aux_valid; [lia|].
  rewrite fexp_eq.
  pose proof (Zdigits2_mul mx my) as Hm.
  assert (1 <= Zdigits2 (Zpos mx))%Z by (cbn; lia).
  lia.
Qed.

Lemma div_valid (sx : bool) (mx : positive) (ex : Z) (sy : bool)
    (my : positive) (ey : Z) :
  valid_binary 24 128
    (Binary32.div (S754_finite sx mx ex) (S754_finite sy my ey)) = true.
Proof.
  unfold Binary32.div; cbn [SFdiv].
  pose proof (div_core_spec mx ex my ey) as Hc.
  change (SFdiv_core_binary Binary32.prec Binary32.emax (Zpos mx) ex
            (Zpos my) ey)
    with (SFdiv_core_binary 24 128 (Zpos mx) ex (Zpos my) ey).
  destruct (SFdiv_core_binary 24 128 (Zpos mx) ex (Zpos my) ey)
    as [[q e'] l].
  destruct Hc as (Hq & Hnorm & _).
  apply binary_round_aux_valid; assumption.
Qed.


(** One wheel event multiplies a zoom between [2^-99] and [2^99] by [r],
    up to [2^-19]: [r] is 6/5 for a notch up, 5/6 for a notch down and 1
    when the wheel did not move.  The new zoom is a number of the format
    between [2^-100] and [2^100]. *)
Lemma zoom_step (zoom zoom' : spec_float) (r : Q) :
  valid_binary 24 128 zoom = true ->
  2 ^ (-99) <= SF2Q zoom -> SF2Q zoom <= 2 ^ 99 ->
  zoom' = Binary32.mul zoom zoomFactor /\ r = 6 # 5 \/
  zoom' = Binary32.div zoom zoomFactor /\ r = 5 # 6 \/
  zoom' = zoom /\ r = 1 ->
  valid_binary 24 128 zoom' = true /\
  2 ^ (-100) <= SF2Q zoom' /\ SF2Q zoom' <= 2 ^ 100 /\
  (r - (1 # 524288)) * SF2Q zoom <= SF2Q zoom' /\
  SF2Q zoom' <= (r + (1 # 524288)) * SF2Q zoom.
Proof.
  intros Hvalid Hlo Hhi Hcase.
  assert (L100 : 2 ^ (-99) == 2 * 2 ^ (-100)).
  { rewrite <- pow2_succ; reflexivity. }
  assert (U100 : 2 ^ 100 == 2 * 2 ^ 99).
  { rewrite <- pow2_succ; reflexivity. }
  pose proof (pow2_pos (-100)) as P100.
  pose proof (pow2_pos 99) as P99.
  assert (Hlo' : 2 ^ (-100) <= SF2Q zoom) by lra.
  assert (Hhi' : SF2Q zoom <= 2 ^ 100) by lra.
  destruct (zoom_shape zoom Hvalid Hlo' Hhi')
    as (m & e & -> & Hd & He & Zlo & Zhi).
  set (Z := SF2Q (S754_finite false m e)) in *.
  assert (HZ : 0 < Z) by (unfold Z; cbn [SF2Q]; apply mantissa_pos).
  change (zoomFactor (F := spec_float))
    with (S754_finite false 10066330 (-23)) in Hcase.
  assert (VF : SF2Q (S754_finite false 10066330 (-23))
               == 5033165 # 4194304) by reflexivity.
  pose proof (pow2_pos (e + 23)) as Pe.
  clear Hvalid.
  remember (2 ^ (-100)) as T100 eqn:ET; clear ET.
  remember (2 ^ (-99)) as T99 eqn:ET; clear ET.
  remember (2 ^ 100) as U100' eqn:EU; clear EU.
  remember (2 ^ 99) as U99 eqn:EU; clear EU.
  destruct Hcase as [[-> ->] | [[-> ->] | [-> ->]]].
  - split; [apply mul_valid; reflexivity|].
    destruct (mul_error (S754_finite false m e) false 10066330 (-23)
                (e + 25) eq_refl eq_refl) as (_ & L & U).
    + fold Z; rewrite VF.
      pose proof (pow2_pos (e + 25)); lra.
    + fold Z; rewrite VF.
      assert (E25 : 2 ^ (e + 25) == 2 * 2 ^ (e + 24))
        by (rewrite <- pow2_succ; apply Qpower_comp; [reflexivity|lia]).
      lra.
    + lia.
    + fold Z in L, U; rewrite VF in L, U.
      assert (E3 : 2 ^ (e + 25 - 22) * (1048576 # 1) == 2 ^ (e + 23)).
      { change (1048576 # 1) with (2 ^ 20); rewrite <- pow2_add.
        apply Qpower_comp; [reflexivity|lia]. }
      pose proof (pow2_pos (e + 25 - 22)).
      repeat split; lra.
  - split; [apply div_valid|].
    destruct (div_error (S754_finite false m e) false 10066330 (-23)
                (e + 24) eq_refl) as (_ & L & U).
    + fold Z; rewrite VF; unfold Qdiv.
      change (/ (5033165 # 4194304)) with (4194304 # 5033165).
      pose proof (pow2_pos (e + 24)); lra.
    + fold Z; rewrite VF; unfold Qdiv.
      change (/ (5033165 # 4194304)) with (4194304 # 5033165).
      lra.
    + lia.
    + fold Z in L, U; rewrite VF in L, U; unfold Qdiv in L, U.
      change (/ (5033165 # 4194304)) with (4194304 # 5033165) in L, U.
      assert (E3 : 2 ^ (e + 24 - 22) * (2097152 # 1) == 2 ^ (e + 23)).
      { change (2097152 # 1) with (2 ^ 21); rewrite <- pow2_add.
        apply Qpower_comp; [reflexivity|lia]. }
      pose proof (pow2_pos (e + 24 - 22)).
      repeat split; lra.
  - split; [cbn [valid_binary]; unfold bounded, canonical_mantissa;
             change (Zpos (digits2_pos m)) with (Zdigits2 (Zpos m));
             rewrite Hd, fexp_eq;
             apply andb_true_intro; split;
             [apply Z.eqb_eq|apply Z.leb_le]; lia|].
    fold Z; repeat split; lra.
Qed.

(** [axis_backward] for a point further from the window: the drawn
    coordinate is within [6/1024] of [c * zoom + half - o]. *)
Lemma axis_backward_wide (c half o zoom : spec_float) :
  is_finite c = true -> is_finite half = true -> is_finite o = true ->
  valid_binary 24 128 zoom = true ->
  2 ^ (-100) <= SF2Q zoom -> SF2Q zoom <= 2 ^ 100 ->
  - (8191 # 1) <= SF2Q c * SF2Q zoom -> SF2Q c * SF2Q zoom <= 8191 # 1 ->
  - (8191 # 1) <= SF2Q c * SF2Q zoom + SF2Q half ->
  SF2Q c * SF2Q zoom + SF2Q half <= 8191 # 1 ->
  - (8191 # 1) <= SF2Q c * SF2Q zoom + SF2Q half - SF2Q o ->
  SF2Q c * SF2Q zoom + SF2Q half - SF2Q o <= 8191 # 1 ->
  let back := Binary32.sub (Binary32.add (Binary32.mul c zoom) half) o in
  is_finite back = true /\
  SF2Q c * SF2Q zoom + SF2Q half - SF2Q o - (6 # 1024) <= SF2Q back /\
  SF2Q back <= SF2Q c * SF2Q zoom + SF2Q half - SF2Q o + (6 # 1024).
Proof.
  intros Fc Fh Ho Hvalid Hzlo Hzhi B1 B2 B3 B4 B5 B6.
  destruct (zoom_shape zoom Hvalid Hzlo Hzhi)
    as (mz & ez & -> & Hdz & Hez & Zlo & Zhi).
  clear Hvalid Hzlo Hzhi Zlo Zhi.
  set (Z := SF2Q (S754_finite false mz ez)) in *.
  set (cv := SF2Q c) in *.
  set (hv := SF2Q half) in *.
  intros back.
  destruct (mul_error c false mz ez 13 Fc Hdz) as (F3 & L3 & U3).
  { fold Z cv; change (2 ^ 13) with (8192 # 1); lra. }
  { fold Z cv; change (2 ^ 13) with (8192 # 1); lra. }
  { lia. }
  fold Z cv in L3, U3; change (2 ^ (13 - 22)) with (1 # 512) in L3, U3.
  set (u1 := Binary32.mul c (S754_finite false mz ez)) in *.
  destruct (add_error u1 half 13 F3 Fh) as (F4 & L4 & U4).
  { fold hv; change (2 ^ 13) with (8192 # 1); lra. }
  { fold hv; change (2 ^ 13) with (8192 # 1); lra. }
  { lia. }
  fold hv in L4, U4; change (2 ^ (13 - 22)) with (1 # 512) in L4, U4.
  set (u2 := Binary32.add u1 half) in *.
  destruct (sub_error u2 o 13 F4 Ho) as (F5 & L5 & U5).
  { change (2 ^ 13) with (8192 # 1); lra. }
  { change (2 ^ 13) with (8192 # 1); lra. }
  { lia. }
  change (2 ^ (13 - 22)) with (1 # 512) in L5, U5.
  fold back in F5, L5, U5.
  split; [exact F5|split; lra].
Qed.

(** A coordinate scaled by the new zoom instead of the old one. *)
Lemma rescaled (b Z Z' r : Q) (B : Q) :
  0 < Z -> (r - (1 # 524288)) * Z <= Z' -> Z' <= (r + (1 # 524288)) * Z ->
  - B <= b * Z -> b * Z <= B ->
  r * (b * Z) - (1 # 524288) * B <= b * Z' /\
  b * Z' <= r * (b * Z) + (1 # 524288) * B.
Proof.
  intros HZ Hl Hh Bl Bh.
  destruct (Qlt_le_dec b 0) as [Hb|Hb].
  - assert (H1 : (- b) * ((r - (1 # 524288)) * Z) <= (- b) * Z')
      by (apply Qmult_le_l; [lra|exact Hl]).
    assert (H2 : (- b) * Z' <= (- b) * ((r + (1 # 524288)) * Z))
      by (apply Qmult_le_l; [lra|exact Hh]).
    split; lra.
  - destruct (Qeq_dec b 0) as [E|N].
    + rewrite E; split; lra.
    + assert (Hb' : 0 < b).
      { apply Qle_lteq in Hb; destruct Hb as [Hb| Hb]; [exact Hb|].
        exfalso; apply N; symmetry; exact Hb. }
      assert (H1 : b * ((r - (1 # 524288)) * Z) <= b * Z')
        by (apply Qmult_le_l; [exact Hb'|exact Hl]).
      assert (H2 : b * Z' <= b * ((r + (1 # 524288)) * Z))
        by (apply Qmult_le_l; [exact Hb'|exact Hh]).
      split; lra.
Qed.

(** A factor between 5/6 and 6/5 changes a number by at most a fifth, and
    keeps the order. *)
Lemma scaled_bound (r x : Q) :
  (5 # 6) <= r -> r <= (6 # 5) ->
  r * x - x <= (1 # 5) * Qabs x /\ - ((1 # 5) * Qabs x) <= r * x - x.
Proof.
  intros Hrl Hrh.
  destruct (Qlt_le_dec x 0) as [Hs|Hs].
  - rewrite (Qabs_neg x) by lra.
    assert (H1 : (- x) * (5 # 6) <= (- x) * r)
      by (apply Qmult_le_l; [lra|exact Hrl]).
    assert (H2 : (- x) * r <= (- x) * (6 # 5))
      by (apply Qmult_le_l; [lra|exact Hrh]).
    split; lra.
  - rewrite (Qabs_pos x) by exact Hs.
    assert (H1 : (5 # 6) * x <= r * x)
      by (apply Qmult_le_compat_r; [exact Hrl|exact Hs]).
    assert (H2 : r * x <= (6 # 5) * x)
      by (apply Qmult_le_compat_r; [exact Hrh|exact Hs]).
    split; lra.
Qed.

Lemma scaled_within (r x lo hi : Q) :
  0 <= r -> lo <= x -> x <= hi -> r * lo <= r * x /\ r * x <= r * hi.
Proof.
  intros Hr Hl Hh; split.
  - rewrite (Qmult_comm r lo), (Qmult_comm r x).
    apply Qmult_le_compat_r; assumption.
  - rewrite (Qmult_comm r x), (Qmult_comm r hi).
    apply Qmult_le_compat_r; assumption.
Qed.

(** One axis of the wheel handler, up to the new offset.  [before] and
    [after] are the coordinates of the point under the mouse for the old
    and the new zoom, [o'] is the new offset; [r] is the factor of the
    zoom. *)
Lemma axis_wheel_offset (g w : Z) (o zoom zoom' : spec_float) (r : Q) :
  (0 <= g <= 1024)%Z -> (0 <= w <= 4096)%Z ->
  is_finite o = true -> - (1000 # 1) <= SF2Q o -> SF2Q o <= 1000 # 1 ->
  valid_binary 24 128 zoom = true ->
  2 ^ (-100) <= SF2Q zoom -> SF2Q zoom <= 2 ^ 100 ->
  valid_binary 24 128 zoom' = true ->
  2 ^ (-100) <= SF2Q zoom' -> SF2Q zoom' <= 2 ^ 100 ->
  (5 # 6) <= r -> r <= (6 # 5) ->
  (r - (1 # 524288)) * SF2Q zoom <= SF2Q zoom' ->
  SF2Q zoom' <= (r + (1 # 524288)) * SF2Q zoom ->
  let half := Binary32.div (f32 w) (f32 2) in
  let n := Binary32.sub (Binary32.add (f32 g) o) half in
  let before := Binary32.div n zoom in
  let after := Binary32.div n zoom' in
  let o' := Binary32.add o
              (Binary32.mul (Binary32.sub after before) zoom') in
  let G := inject_Z g + SF2Q o - SF2Q half in
  is_finite half = true /\
  inject_Z w * (1 # 2) - (1 # 2048) <= SF2Q half /\
  SF2Q half <= inject_Z w * (1 # 2) + (1 # 2048) /\
  is_finite before = true /\
  G - (7 # 1024) <= SF2Q before * SF2Q zoom /\
  SF2Q before * SF2Q zoom <= G + (7 # 1024) /\
  G - (7 # 1024) <= SF2Q after * SF2Q zoom' /\
  SF2Q after * SF2Q zoom' <= G + (7 # 1024) /\
  r * (SF2Q before * SF2Q zoom) - (3050 # 524288)
  <= SF2Q before * SF2Q zoom' /\
  SF2Q before * SF2Q zoom'
  <= r * (SF2Q before * SF2Q zoom) + (3050 # 524288) /\
  is_finite o' = true /\
  SF2Q o + SF2Q after * SF2Q zoom' - SF2Q before * SF2Q zoom' - (5 # 4096)
  <= SF2Q o' /\
  SF2Q o'
  <= SF2Q o + SF2Q after * SF2Q zoom' - SF2Q before * SF2Q zoom' + (5 # 4096).
Proof.
  intros Hg Hw Fo Hol Hoh Hv Hzl Hzh Hv' Hzl' Hzh' Hrl Hrh Rl Rh
    half n before after o' G.
  assert (Bg : 0 <= inject_Z g /\ inject_Z g <= 1024 # 1).
  { change (1024 # 1) with (inject_Z 1024); change 0 with (inject_Z 0).
    rewrite <- !Zle_Qle; lia. }
  assert (Bw : 0 <= inject_Z w /\ inject_Z w <= 4096 # 1).
  { change (4096 # 1) with (inject_Z 4096); change 0 with (inject_Z 0).
    rewrite <- !Zle_Qle; lia. }
  destruct (axis_forward g w o zoom ltac:(lia) Hw Fo ltac:(lra) ltac:(lra)
              Hv Hzl Hzh) as (Fh & Hl & Hh & Fb & Lb & Ub).
  destruct (axis_forward g w o zoom' ltac:(lia) Hw Fo ltac:(lra) ltac:(lra)
              Hv' Hzl' Hzh') as (_ & _ & _ & Fa & La & Ua).
  fold half in Fh, Hl, Hh, Lb, Ub, La, Ua.
  fold n in Fb, Lb, Ub, Fa, La, Ua.
  fold before in Fb, Lb, Ub; fold after in Fa, La, Ua.
  fold G in Lb, Ub, La, Ua.
  assert (BG : - (3049 # 1) <= G /\ G <= 2025 # 1) by (unfold G; lra).
  set (hv := SF2Q half) in *.
  set (ov := SF2Q o) in *.
  set (bv := SF2Q before) in *.
  set (av := SF2Q after) in *.
  destruct (zoom_shape zoom' Hv' Hzl' Hzh')
    as (m' & e' & Ez' & Hd' & He' & Zlo' & Zhi').
  assert (HZ : 0 < SF2Q zoom).
  { pose proof (pow2_pos (-100)); lra. }
  assert (HZ' : 0 < SF2Q zoom').
  { pose proof (pow2_pos (-100)); lra. }
  clear Hzl Hzh Hzl' Hzh'.
  set (Z := SF2Q zoom) in *.
  set (Z' := SF2Q zoom') in *.
  clearbody G.
  (* the point scaled by the new zoom *)
  destruct (rescaled bv Z Z' r (3050 # 1) HZ Rl Rh ltac:(lra) ltac:(lra))
    as [Yl Yh].
  destruct (scaled_bound r (bv * Z) Hrl Hrh) as [RXh RXl].
  assert (AX : Qabs (bv * Z) <= 3050 # 1)
    by (apply Qabs_Qle_condition; split; lra).
  (* d = after - before *)
  destruct (Binary32Error.sub_error after before (-13 - e') Fa Fb)
    as (Fd & Ld & Ud).
  { fold av bv.
    assert (C : 2 ^ (-13 - e') * 2 ^ (e' + 23) == 1024 # 1).
    { rewrite <- pow2_add.
      replace (-13 - e' + (e' + 23))%Z with 10%Z by lia; reflexivity. }
    pose proof (pow2_pos (-13 - e')) as Pb.
    assert (M : 2 ^ (-13 - e') * 2 ^ (e' + 23) <= 2 ^ (-13 - e') * Z')
      by (apply Qmult_le_l; [exact Pb|exact Zlo']).
    apply (Qmult_le_r _ _ Z' HZ'); lra. }
  { fold av bv.
    assert (C : 2 ^ (-13 - e') * 2 ^ (e' + 23) == 1024 # 1).
    { rewrite <- pow2_add.
      replace (-13 - e' + (e' + 23))%Z with 10%Z by lia; reflexivity. }
    pose proof (pow2_pos (-13 - e')) as Pb.
    assert (M : 2 ^ (-13 - e') * 2 ^ (e' + 23) <= 2 ^ (-13 - e') * Z')
      by (apply Qmult_le_l; [exact Pb|exact Zlo']).
    apply (Qmult_le_r _ _ Z' HZ'); lra. }
  { lia. }
  fold av bv in Ld, Ud.
  set (d := Binary32.sub after before) in *.
  set (dv := SF2Q d) in *.
  assert (C2 : 2 ^ (-13 - e' - 22) * 2 ^ (e' + 24) == 1 # 2048).
  { rewrite <- pow2_add.
    replace (-13 - e' - 22 + (e' + 24))%Z with (-11)%Z by lia; reflexivity. }
  pose proof (pow2_pos (-13 - e' - 22)) as Pe.
  assert (M2 : 2 ^ (-13 - e' - 22) * Z'
               <= 2 ^ (-13 - e' - 22) * 2 ^ (e' + 24))
    by (apply Qmult_le_l; [exact Pe|exact Zhi']).
  assert (Ld' : (av - bv - 2 ^ (-13 - e' - 22)) * Z' <= dv * Z')
    by (apply Qmult_le_compat_r; [exact Ld|lra]).
  assert (Ud' : dv * Z' <= (av - bv + 2 ^ (-13 - e' - 22)) * Z')
    by (apply Qmult_le_compat_r; [exact Ud|lra]).
  (* p = d * zoom' *)
  assert (Fp : is_finite (Binary32.mul d zoom') = true /\
               dv * Z' - (1 # 4096) <= SF2Q (Binary32.mul d zoom') /\
               SF2Q (Binary32.mul d zoom') <= dv * Z' + (1 # 4096)).
  { unfold Z'; rewrite Ez'.
    destruct (Binary32Error.mul_error d false m' e' 10 Fd Hd')
      as (F & L & U).
    - fold dv; rewrite <- Ez'; fold Z'; change (2 ^ 10) with (1024 # 1); lra.
    - fold dv; rewrite <- Ez'; fold Z'; change (2 ^ 10) with (1024 # 1); lra.
    - lia.
    - fold dv in L, U; change (2 ^ (10 - 22)) with (1 # 4096) in L, U.
      auto. }
  destruct Fp as (Fp & Lp & Up).
  set (p := Binary32.mul d zoom') in *.
  (* o' = o + p *)
  destruct (Binary32Error.add_error o p 11 Fo Fp) as (Fo' & Lo' & Uo').
  { fold ov; change (2 ^ 11) with (2048 # 1); lra. }
  { fold ov; change (2 ^ 11) with (2048 # 1); lra. }
  { lia. }
  fold ov in Lo', Uo'; change (2 ^ (11 - 22)) with (1 # 2048) in Lo', Uo'.
  fold o' in Fo', Lo', Uo'.
  split; [exact Fh|split; [exact Hl|split; [exact Hh|]]].
  split; [exact Fb|split; [exact Lb|split; [exact Ub|]]].
  split; [exact La|split; [exact Ua|]].
  split; [lra|split; [lra|]].
  split; [exact Fo'|split; lra].
Qed.

(** One axis of the wheel handler: the point opposite to the one under the
    mouse is drawn at the same place, within 1/32, before and after. *)
Lemma axis_wheel (g w : Z) (o zoom zoom' : spec_float) (r : Q) :
  (0 <= g <= 1024)%Z -> (0 <= w <= 4096)%Z ->
  is_finite o = true -> - (1000 # 1) <= SF2Q o -> SF2Q o <= 1000 # 1 ->
  valid_binary 24 128 zoom = true ->
  2 ^ (-100) <= SF2Q zoom -> SF2Q zoom <= 2 ^ 100 ->
  valid_binary 24 128 zoom' = true ->
  2 ^ (-100) <= SF2Q zoom' -> SF2Q zoom' <= 2 ^ 100 ->
  (5 # 6) <= r -> r <= (6 # 5) ->
  (r - (1 # 524288)) * SF2Q zoom <= SF2Q zoom' ->
  SF2Q zoom' <= (r + (1 # 524288)) * SF2Q zoom ->
  let half := Binary32.div (f32 w) (f32 2) in
  let n := Binary32.sub (Binary32.add (f32 g) o) half in
  let before := Binary32.div n zoom in
  let after := Binary32.div n zoom' in
  let o' := Binary32.add o
              (Binary32.mul (Binary32.sub after before) zoom') in
  let drawn :=
    Binary32.sub (Binary32.add (Binary32.mul (Binary32.neg before) zoom)
                    half) o in
  let drawn' :=
    Binary32.sub (Binary32.add (Binary32.mul (Binary32.neg before) zoom')
                    half) o' in
  is_finite o' = true /\ is_finite drawn = true /\
  is_finite drawn' = true /\
  SF2Q drawn - (1 # 32) <= SF2Q drawn' /\
  SF2Q drawn' <= SF2Q drawn + (1 # 32).
Proof.
  intros Hg Hw Fo Hol Hoh Hv Hzl Hzh Hv' Hzl' Hzh' Hrl Hrh Rl Rh
    half n before after o' drawn drawn'.
  destruct (axis_wheel_offset g w o zoom zoom' r Hg Hw Fo Hol Hoh Hv Hzl Hzh
              Hv' Hzl' Hzh' Hrl Hrh Rl Rh)
    as (Fh & Hl & Hh & Fb & Lb & Ub & La & Ua & Yl & Yh & Fo' & Lo' & Uo').
  fold half in Fh, Hl, Hh, Lb, Ub, La, Ua, Yl, Yh, Fo', Lo', Uo'.
  fold n in Fb, Lb, Ub, La, Ua, Yl, Yh, Fo', Lo', Uo'.
  fold before in Fb, Lb, Ub, Yl, Yh, Fo', Lo', Uo'.
  fold after in La, Ua, Fo', Lo', Uo'.
  fold o' in Fo', Lo', Uo'.
  assert (Bg : 0 <= inject_Z g /\ inject_Z g <= 1024 # 1).
  { change (1024 # 1) with (inject_Z 1024); change 0 with (inject_Z 0).
    rewrite <- !Zle_Qle; lia. }
  assert (Bw : 0 <= inject_Z w /\ inject_Z w <= 4096 # 1).
  { change (4096 # 1) with (inject_Z 4096); change 0 with (inject_Z 0).
    rewrite <- !Zle_Qle; lia. }
  assert (Fn : is_finite (Binary32.neg before) = true)
    by (rewrite is_finite_neg; exact Fb).
  pose proof (axis_backward_wide (Binary32.neg before) half o zoom Fn Fh Fo
                Hv Hzl Hzh) as Back.
  pose proof (axis_backward_wide (Binary32.neg before) half o' zoom'
                Fn Fh Fo' Hv' Hzl' Hzh') as Back'.
  cbv zeta in Back, Back'; fold drawn in Back; fold drawn' in Back'.
  rewrite SF2Q_neg in Back, Back'.
  clear Hzl Hzh Hzl' Hzh' Rl Rh.
  set (hv := SF2Q half) in *.
  set (ov := SF2Q o) in *.
  set (bv := SF2Q before) in *.
  set (av := SF2Q after) in *.
  set (Z := SF2Q zoom) in *.
  set (Z' := SF2Q zoom') in *.
  destruct (scaled_bound r (bv * Z) Hrl Hrh) as [RXh RXl].
  assert (AX : Qabs (bv * Z) <= 3050 # 1)
    by (apply Qabs_Qle_condition; split; lra).
  destruct Back as (Fdr & Ldr & Udr); try lra.
  destruct Back' as (Fdr' & Ldr' & Udr'); try lra.
  split; [exact Fo'|split; [exact Fdr|split; [exact Fdr'|split; lra]]].
Qed.

(** One axis of the wheel handler: how far the point under the mouse moves.
    Measured in pixels of the new view, it moves by [2 (1 - r)] times the
    distance of the mouse from the place where the origin of the plane is
    drawn, within 1/16. *)
Lemma axis_drift (g w : Z) (o zoom zoom' : spec_float) (r : Q) :
  (0 <= g <= 1024)%Z -> (0 <= w <= 4096)%Z ->
  is_finite o = true -> - (1000 # 1) <= SF2Q o -> SF2Q o <= 1000 # 1 ->
  valid_binary 24 128 zoom = true ->
  2 ^ (-100) <= SF2Q zoom -> SF2Q zoom <= 2 ^ 100 ->
  valid_binary 24 128 zoom' = true ->
  2 ^ (-100) <= SF2Q zoom' -> SF2Q zoom' <= 2 ^ 100 ->
  (5 # 6) <= r -> r <= (6 # 5) ->
  (r - (1 # 524288)) * SF2Q zoom <= SF2Q zoom' ->
  SF2Q zoom' <= (r + (1 # 524288)) * SF2Q zoom ->
  let half := Binary32.div (f32 w) (f32 2) in
  let n := Binary32.sub (Binary32.add (f32 g) o) half in
  let before := Binary32.div n zoom in
  let after := Binary32.div n zoom' in
  let o' := Binary32.add o
              (Binary32.mul (Binary32.sub after before) zoom') in
  let moved :=
    Binary32.div (Binary32.sub (Binary32.add (f32 g) o') half) zoom' in
  let dist := inject_Z g + SF2Q o - inject_Z w * (1 # 2) in
  is_finite before = true /\ is_finite moved = true /\
  2 * (1 - r) * dist - (1 # 16)
  <= (SF2Q moved - SF2Q before) * SF2Q zoom' /\
  (SF2Q moved - SF2Q before) * SF2Q zoom'
  <= 2 * (1 - r) * dist + (1 # 16).
Proof.
  intros Hg Hw Fo Hol Hoh Hv Hzl Hzh Hv' Hzl' Hzh' Hrl Hrh Rl Rh
    half n before after o' moved dist.
  destruct (axis_wheel_offset g w o zoom zoom' r Hg Hw Fo Hol Hoh Hv Hzl Hzh
              Hv' Hzl' Hzh' Hrl Hrh Rl Rh)
    as (Fh & Hl & Hh & Fb & Lb & Ub & La & Ua & Yl & Yh & Fo' & Lo' & Uo').
  fold half in Fh, Hl, Hh, Lb, Ub, La, Ua, Yl, Yh, Fo', Lo', Uo'.
  fold n in Fb, Lb, Ub, La, Ua, Yl, Yh, Fo', Lo', Uo'.
  fold before in Fb, Lb, Ub, Yl, Yh, Fo', Lo', Uo'.
  fold after in La, Ua, Fo', Lo', Uo'.
  fold o' in Fo', Lo', Uo'.
  assert (Bg : 0 <= inject_Z g /\ inject_Z g <= 1024 # 1).
  { change (1024 # 1) with (inject_Z 1024); change 0 with (inject_Z 0).
    rewrite <- !Zle_Qle; lia. }
  assert (Bw : 0 <= inject_Z w /\ inject_Z w <= 4096 # 1).
  { change (4096 # 1) with (inject_Z 4096); change 0 with (inject_Z 0).
    rewrite <- !Zle_Qle; lia. }
  pose proof (axis_forward g w o' zoom' ltac:(lia) Hw Fo') as Fwd.
  cbv zeta in Fwd; fold half in Fwd; fold moved in Fwd.
  pose proof (fun A B => Fwd A B Hv' Hzl' Hzh') as Fwd'.
  clear Fwd Hzl Hzh Hzl' Hzh' Rl Rh.
  unfold dist; clear dist.
  set (hv := SF2Q half) in *.
  set (ov := SF2Q o) in *.
  set (bv := SF2Q before) in *.
  set (av := SF2Q after) in *.
  set (Z := SF2Q zoom) in *.
  set (Z' := SF2Q zoom') in *.
  destruct (scaled_bound r (bv * Z) Hrl Hrh) as [RXh RXl].
  assert (AX : Qabs (bv * Z) <= 3050 # 1)
    by (apply Qabs_Qle_condition; split; lra).
  destruct Fwd' as (_ & _ & _ & Fm & Lm & Um); try lra.
  destruct (scaled_within r (bv * Z) _ _ ltac:(lra) Lb Ub) as [P1 P2].
  destruct (scaled_within r hv _ _ ltac:(lra) Hl Hh) as [P3 P4].
  split; [exact Fb|split; [exact Fm|]].
  split; lra.
Qed.

End Binary32Wheel.

Section WheelInBinary32.
Import Binary32Error Binary32RoundTrip Binary32Wheel.
Local Open Scope Q_scope.

(** The zoom after a wheel event, with its factor. *)
Lemma wheel_zoom_cases (W H mouse_x mouse_y : Z) (delta zoom : spec_float)
    (offset : Vector2f spec_float) :
  let zoom' := fst (onMouseWheelScrolled zoomFactor W H mouse_x mouse_y delta
                      zoom offset) in
  let r := if flt (of_int 0) delta then 6 # 5
           else if flt delta (of_int 0) then 5 # 6 else 1 in
  (zoom' = Binary32.mul zoom zoomFactor /\ r = 6 # 5 \/
   zoom' = Binary32.div zoom zoomFactor /\ r = 5 # 6 \/
   zoom' = zoom /\ r = 1) /\
  (5 # 6) <= r /\ r <= (6 # 5).
Proof.
  unfold onMouseWheelScrolled; cbn [fst].
  destruct (flt (of_int 0) delta).
  - split; [left; split; reflexivity|split; lra].
  - destruct (flt delta (of_int 0)).
    + split; [right; left; split; reflexivity|split; lra].
    + split; [right; right; split; reflexivity|split; lra].
Qed.

(** X8.  How far the wheel handler moves the point under the mouse.  In
    binary32, for a mouse position in [0, 1024], a window of at most 4096,
    finite offsets of magnitude at most 1000 and a valid zoom between
    [2^-99] and [2^99]: let [dist] be the distance in pixels from the
    place where the origin of the plane is drawn to the mouse.  After a
    notch up the point under the mouse is another one than before, and the
    difference is -2/5 of [dist], measured in pixels of the new view; after
    a notch down it is +1/3 of [dist]; without movement of the wheel it is
    0; each within 1/16 of a pixel.  The event does not zoom about the
    point under the mouse. *)
Theorem wheel_drift_is_a_share_of_the_distance
    (W H mouse_x mouse_y : Z) (delta zoom : spec_float)
    (offset : Vector2f spec_float) :
  (0 <= mouse_x <= 1024)%Z -> (0 <= mouse_y <= 1024)%Z ->
  (0 <= W <= 4096)%Z -> (0 <= H <= 4096)%Z ->
  is_finite (vx offset) = true -> is_finite (vy offset) = true ->
  - (1000 # 1) <= SF2Q (vx offset) <= 1000 # 1 ->
  - (1000 # 1) <= SF2Q (vy offset) <= 1000 # 1 ->
  valid_binary 24 128 zoom = true ->
  2 ^ (-99) <= SF2Q zoom <= 2 ^ 99 ->
  let view' := onMouseWheelScrolled zoomFactor W H mouse_x mouse_y delta zoom
                 offset in
  let before := screenToComplex mouse_x mouse_y zoom offset W H in
  let moved := screenToComplex mouse_x mouse_y (fst view') (snd view') W H in
  let share := if flt (of_int 0) delta then - (2 # 5)
               else if flt delta (of_int 0) then 1 # 3 else 0 in
  let dist_x := inject_Z mouse_x + SF2Q (vx offset) - inject_Z W / 2 in
  let dist_y := inject_Z mouse_y + SF2Q (vy offset) - inject_Z H / 2 in
  is_finite (real before) = true /\ is_finite (imag before) = true /\
  is_finite (real moved) = true /\ is_finite (imag moved) = true /\
  Qabs ((SF2Q (real moved) - SF2Q (real before)) * SF2Q (fst view')
        - share * dist_x) <= 1 # 16 /\
  Qabs ((SF2Q (imag moved) - SF2Q (imag before)) * SF2Q (fst view')
        - share * dist_y) <= 1 # 16.
Proof.
  intros Hmx Hmy HW HH Fox Foy [Hoxl Hoxh] [Hoyl Hoyh] Hvalid [Hzl Hzh]
    view' before moved share dist_x dist_y.
  set (zoom' := fst view').
  destruct (wheel_zoom_cases W H mouse_x mouse_y delta zoom offset)
    as (Ez & Hrl & Hrh).
  fold view' in Ez; fold zoom' in Ez.
  set (r := if flt (of_int 0) delta then 6 # 5
            else if flt delta (of_int 0) then 5 # 6 else 1) in *.
  assert (Es : share == 2 * (1 - r)).
  { unfold share, r; destruct (flt (of_int 0) delta);
      [reflexivity|destruct (flt delta (of_int 0)); reflexivity]. }
  destruct (zoom_step zoom zoom' r Hvalid Hzl Hzh Ez)
    as (Hv' & Hl' & Hh' & Rl & Rh).
  assert (Hzl' : 2 ^ (-100) <= SF2Q zoom).
  { apply Qle_trans with (2 ^ (-99)); [apply pow2_le; lia|exact Hzl]. }
  assert (Hzh' : SF2Q zoom <= 2 ^ 100).
  { apply Qle_trans with (2 ^ 99); [exact Hzh|apply pow2_le; lia]. }
  destruct (axis_drift mouse_x W (vx offset) zoom zoom' r Hmx HW Fox
              Hoxl Hoxh Hvalid Hzl' Hzh' Hv' Hl' Hh' Hrl Hrh Rl Rh)
    as (Fbx & Fmx & Lx & Ux).
  destruct (axis_drift mouse_y H (vy offset) zoom zoom' r Hmy HH Foy
              Hoyl Hoyh Hvalid Hzl' Hzh' Hv' Hl' Hh' Hrl Hrh Rl Rh)
    as (Fby & Fmy & Ly & Uy).
  split; [exact Fbx|split; [exact Fby|split; [exact Fmx|]]].
  split; [exact Fmy|].
  unfold dist_x, dist_y, Qdiv; change (/ 2) with (1 # 2).
  rewrite Es.
  split; apply Qabs_Qle_condition; split.
  - apply (Qplus_le_l _ _ (2 * (1 - r) *
             (inject_Z mouse_x + SF2Q (vx offset) - inject_Z W * (1 # 2)))).
    ring_simplify; ring_simplify in Lx; exact Lx.
  - apply (Qplus_le_l _ _ (2 * (1 - r) *
             (inject_Z mouse_x + SF2Q (vx offset) - inject_Z W * (1 # 2)))).
    ring_simplify; ring_simplify in Ux; exact Ux.
  - apply (Qplus_le_l _ _ (2 * (1 - r) *
             (inject_Z mouse_y + SF2Q (vy offset) - inject_Z H * (1 # 2)))).
    ring_simplify; ring_simplify in Ly; exact Ly.
  - apply (Qplus_le_l _ _ (2 * (1 - r) *
             (inject_Z mouse_y + SF2Q (vy offset) - inject_Z H * (1 # 2)))).
    ring_simplify; ring_simplify in Uy; exact Uy.
Qed.

(** X9.  What the wheel handler keeps in place.  In binary32, for a mouse
    position in [0, 1024], a window of at most 4096, finite offsets of
    magnitude at most 1000 and a valid zoom between [2^-99] and [2^99], and
    whatever the direction of the wheel: the point opposite to the one
    under the mouse, [-before], is drawn at the same position before and
    after the event, within 1/32 of a pixel.  The handler zooms about the
    mirror image of the cursor through the origin. *)
Theorem wheel_zoom_fixes_the_opposite_point (W H mouse_x mouse_y : Z)
    (delta zoom : spec_float) (offset : Vector2f spec_float) :
  (0 <= mouse_x <= 1024)%Z -> (0 <= mouse_y <= 1024)%Z ->
  (0 <= W <= 4096)%Z -> (0 <= H <= 4096)%Z ->
  is_finite (vx offset) = true -> is_finite (vy offset) = true ->
  - (1000 # 1) <= SF2Q (vx offset) <= 1000 # 1 ->
  - (1000 # 1) <= SF2Q (vy offset) <= 1000 # 1 ->
  valid_binary 24 128 zoom = true ->
  2 ^ (-99) <= SF2Q zoom <= 2 ^ 99 ->
  let view' := onMouseWheelScrolled zoomFactor W H mouse_x mouse_y delta zoom
                 offset in
  let before := screenToComplex mouse_x mouse_y zoom offset W H in
  let drawn := orbitVertex (cneg before) zoom offset W H in
  let drawn' := orbitVertex (cneg before) (fst view') (snd view') W H in
  is_finite (vx drawn) = true /\ is_finite (vy drawn) = true /\
  is_finite (vx drawn') = true /\ is_finite (vy drawn') = true /\
  Qabs (SF2Q (vx drawn') - SF2Q (vx drawn)) <= 1 # 32 /\
  Qabs (SF2Q (vy drawn') - SF2Q (vy drawn)) <= 1 # 32.
Proof.
  intros Hmx Hmy HW HH Fox Foy [Hoxl Hoxh] [Hoyl Hoyh] Hvalid [Hzl Hzh]
    view' before drawn drawn'.
  set (zoom' := fst view').
  destruct (wheel_zoom_cases W H mouse_x mouse_y delta zoom offset)
    as (Ez & Hrl & Hrh).
  fold view' in Ez; fold zoom' in Ez.
  set (r := if flt (of_int 0) delta then 6 # 5
            else if flt delta (of_int 0) then 5 # 6 else 1) in *.
  destruct (zoom_step zoom zoom' r Hvalid Hzl Hzh Ez)
    as (Hv' & Hl' & Hh' & Rl & Rh).
  assert (Hzl' : 2 ^ (-100) <= SF2Q zoom).
  { apply Qle_trans with (2 ^ (-99)); [apply pow2_le; lia|exact Hzl]. }
  assert (Hzh' : SF2Q zoom <= 2 ^ 100).
  { apply Qle_trans with (2 ^ 99); [exact Hzh|apply pow2_le; lia]. }
  destruct (axis_wheel mouse_x W (vx offset) zoom zoom' r Hmx HW Fox
              Hoxl Hoxh Hvalid Hzl' Hzh' Hv' Hl' Hh' Hrl Hrh Rl Rh)
    as (_ & Fdx & Fdx' & Lx & Ux).
  destruct (axis_wheel mouse_y H (vy offset) zoom zoom' r Hmy HH Foy
              Hoyl Hoyh Hvalid Hzl' Hzh' Hv' Hl' Hh' Hrl Hrh Rl Rh)
    as (_ & Fdy & Fdy' & Ly & Uy).
  split; [exact Fdx|split; [exact Fdy|split; [exact Fdx'|]]].
  split; [exact Fdy'|].
  split; apply Qabs_within; assumption.
Qed.
End WheelInBinary32.

Lemma wheel_drift_is_a_share_of_the_distance_witness :
  let origin := Vec2 (f32 0) (f32 0) in
  let view' := onMouseWheelScrolled zoomFactor width height 123 456 (f32 1)
                 (f32 250) origin in
  let before := screenToComplex 123 456 (f32 250) origin width height in
  let moved := screenToComplex 123 456 (fst view') (snd view')
                 width height in
  valid_binary 24 128 (f32 250) = true /\
  (2 ^ (-99) <= SF2Q (f32 250) <= 2 ^ 99)%Q /\
  flt (of_int 0) (f32 1) = true /\
  real moved <> real before /\
  is_finite (real before) = true /\ is_finite (imag before) = true /\
  is_finite (real moved) = true /\ is_finite (imag moved) = true /\
  (Qabs ((SF2Q (real moved) - SF2Q (real before)) * SF2Q (fst view')
         - - (2 # 5) * (inject_Z 123 + SF2Q (f32 0) - inject_Z width / 2))
   <= 1 # 16)%Q /\
  (Qabs ((SF2Q (imag moved) - SF2Q (imag before)) * SF2Q (fst view')
         - - (2 # 5) * (inject_Z 456 + SF2Q (f32 0) - inject_Z height / 2))
   <= 1 # 16)%Q.
Proof.
  intros origin.
  assert (Hmx : (0 <= 123 <= 1024)%Z) by lia.
  assert (Hmy : (0 <= 456 <= 1024)%Z) by lia.
  assert (HW : (0 <= width <= 4096)%Z) by (unfold width; lia).
  assert (HH : (0 <= height <= 4096)%Z) by (unfold height; lia).
  assert (Fo : is_finite (f32 0) = true) by reflexivity.
  assert (Bo : (- (1000 # 1) <= SF2Q (f32 0) <= 1000 # 1)%Q)
    by (split; vm_compute; discriminate).
  assert (Hv : valid_binary 24 128 (f32 250) = true)
    by (vm_compute; reflexivity).
  assert (Hz : (2 ^ (-99) <= SF2Q (f32 250) <= 2 ^ 99)%Q)
    by (split; vm_compute; discriminate).
  assert (Hup : flt (of_int 0) (f32 1) = true) by reflexivity.
  intros view' before moved.
  split; [exact Hv|split; [exact Hz|split; [exact Hup|]]].
  split; [vm_compute; discriminate|].
  exact (wheel_drift_is_a_share_of_the_distance width height 123 456
           (f32 1) (f32 250) origin Hmx Hmy HW HH Fo Fo Bo Bo Hv Hz).
Defined.

Lemma wheel_zoom_fixes_the_opposite_point_witness :
  let origin := Vec2 (f32 0) (f32 0) in
  let view' := onMouseWheelScrolled zoomFactor width height 123 456 (f32 1)
                 (f32 250) origin in
  let before := screenToComplex 123 456 (f32 250) origin width height in
  let drawn := orbitVertex (cneg before) (f32 250) origin width height in
  let drawn' := orbitVertex (cneg before) (fst view') (snd view')
                  width height in
  valid_binary 24 128 (f32 250) = true /\
  (2 ^ (-99) <= SF2Q (f32 250) <= 2 ^ 99)%Q /\
  vy drawn <> vy drawn' /\
  is_finite (vx drawn) = true /\ is_finite (vy drawn) = true /\
  is_finite (vx drawn') = true /\ is_finite (vy drawn') = true /\
  (Qabs (SF2Q (vx drawn') - SF2Q (vx drawn)) <= 1 # 32)%Q /\
  (Qabs (SF2Q (vy drawn') - SF2Q (vy drawn)) <= 1 # 32)%Q.
Proof.
  intros origin.
  assert (Hmx : (0 <= 123 <= 1024)%Z) by lia.
  assert (Hmy : (0 <= 456 <= 1024)%Z) by lia.
  assert (HW : (0 <= width <= 4096)%Z) by (unfold width; lia).
  assert (HH : (0 <= height <= 4096)%Z) by (unfold height; lia).
  assert (Fo : is_finite (f32 0) = true) by reflexivity.
  assert (Bo : (- (1000 # 1) <= SF2Q (f32 0) <= 1000 # 1)%Q)
    by (split; vm_compute; discriminate).
  assert (Hv : valid_binary 24 128 (f32 250) = true)
    by (vm_compute; reflexivity).
  assert (Hz : (2 ^ (-99) <= SF2Q (f32 250) <= 2 ^ 99)%Q)
    by (split; vm_compute; discriminate).
  intros view' before drawn drawn'.
  split; [exact Hv|split; [exact Hz|]].
  split; [vm_compute; discriminate|].
  exact (wheel_zoom_fixes_the_opposite_point width height 123 456 (f32 1)
           (f32 250) origin Hmx Hmy HW HH Fo Fo Bo Bo Hv Hz).
Defined.
